(** * Message and thread reducers of the chat client, embedded in Rocq

    The development follows [src/global/reducers/messages.ts].  Every reducer
    is a pure function from a global state to a global state; it is embedded
    as a Rocq function of the same name over records that follow the shape of
    the state tree the reducers read and write.

    Conventions of the embedding.
    - A JavaScript object whose keys are data (a message, the rest of a
      record) is a finite map from property names to values ([JsObj]).
      [{...a, ...b}] is [objSpread a b]: the keys of [b] win.
    - A record of the state tree with known keys (Thread, TabThread,
      TabState, ApiThreadInfo) is a Rocq record; an optional key is an
      [option], where [None] stands both for a missing key and for a key
      holding [undefined] (the reducers never tell the two apart on stored
      records).  An update object ([Partial<...>]) does tell them apart: its
      fields are [option (option _)], [None] for a key the update does not
      have and [Some None] for a key it sets to [undefined].
    - Ids are integers ([Z]); thread ids are the numeric ones.
    - A property read on [undefined] raises a TypeError in JavaScript; a
      reducer that can do so returns an [option], [None] being the
      exception. *)

From stdpp Require Import gmap strings list fin_maps pretty sorting.
From Stdlib Require Import ZArith Lia.

Set Warnings "-register-all,-clear-no-such-hyp".
Set Default Proof Using "Type".
Local Open Scope Z_scope.

(** ** JavaScript values and objects *)

Inductive JsVal : Type :=
  | JUndefined
  | JNull
  | JBool (b : bool)
  | JNum (z : Z)
  | JStr (s : string)
  | JObj (fields : gmap string JsVal).

Abbreviation JsObj := (gmap string JsVal).

(** [Boolean(v)]; numbers are integers here, so the only falsy number is 0. *)
Definition truthy (v : JsVal) : bool :=
  match v with
  | JUndefined | JNull => false
  | JBool b => b
  | JNum z => negb (z =? 0)
  | JStr s => negb (String.eqb s "")
  | JObj _ => true
  end.

(** [o[k]] on an object. *)
Definition getProp (o : JsObj) (k : string) : JsVal :=
  default JUndefined (o !! k).

(** [v?.k]: [undefined] on a nullish receiver, and on a primitive (none of
    the keys read by the reducers is a property of a primitive). *)
Definition optProp (v : JsVal) (k : string) : JsVal :=
  match v with
  | JObj o => getProp o k
  | _ => JUndefined
  end.

(** [v.k]: a TypeError ([None]) on [undefined] and [null]. *)
Definition readProp (v : JsVal) (k : string) : option JsVal :=
  match v with
  | JUndefined | JNull => None
  | _ => Some (optProp v k)
  end.

(** [{...a, ...b}] *)
Definition objSpread (a b : JsObj) : JsObj := b ∪ a.

(** [{...v}] for an arbitrary value: the own enumerable properties of [v].
    A string spreads to its characters under their indices, other primitives
    and nullish values to nothing. *)
Definition spreadVal (v : JsVal) : JsObj :=
  match v with
  | JObj o => o
  | JStr s =>
      list_to_map
        (imap (λ i c, (pretty (N.of_nat i), JStr (String c EmptyString)))
              (String.list_ascii_of_string s))
  | _ => ∅
  end.

(** [v === false] *)
Definition isFalse (v : JsVal) : bool :=
  match v with
  | JBool false => true
  | _ => false
  end.

(** [n === v] for a number [n] *)
Definition numEq (n : Z) (v : JsVal) : bool :=
  match v with
  | JNum z => bool_decide (n = z)
  | _ => false
  end.

(** The property key a value is converted to when it subscripts an object. *)
Definition toPropertyKey (v : JsVal) : string :=
  match v with
  | JUndefined => "undefined"
  | JNull => "null"
  | JBool true => "true"
  | JBool false => "false"
  | JNum z => pretty z
  | JStr s => s
  | JObj _ => "[object Object]"
  end.

(** A subscript into a table keyed by numbers.  The tables hold integer keys
    only; a subscript that is not a number (by its type it is then
    [undefined]) finds nothing. *)
Definition toNumberKey (v : JsVal) : option Z :=
  match v with
  | JNum z => Some z
  | _ => None
  end.

(** ** JavaScript arrays *)

Section arrays.
Context {A : Type}.

(** The relative index of [Array.prototype.slice]. *)
Definition relIndex (len i : Z) : Z :=
  if i <? 0 then Z.max (len + i) 0 else Z.min i len.

(** [l.slice(start, stop)] *)
Definition jsSlice (l : list A) (start stop : Z) : list A :=
  let len := Z.of_nat (length l) in
  let s := relIndex len start in
  let e := relIndex len stop in
  take (Z.to_nat (e - s)) (drop (Z.to_nat s) l).

(** [l.slice(start)] *)
Definition jsSliceFrom (l : list A) (start : Z) : list A :=
  drop (Z.to_nat (relIndex (Z.of_nat (length l)) start)) l.

(** [l[l.length - 1]] *)
Definition lastElem (l : list A) : option A := last l.
End arrays.

(** [l.includes(x)] *)
Definition includes (l : list Z) (x : Z) : bool := bool_decide (x ∈ l).

(** [l.indexOf(x)] *)
Fixpoint indexOf (l : list Z) (x : Z) : Z :=
  match l with
  | [] => -1
  | y :: r =>
      if bool_decide (y = x) then 0
      else let i := indexOf r x in if i <? 0 then -1 else i + 1
  end.

(** ** Objects whose key order is observed

    [Object.values] and [Map.prototype.forEach] visit keys in an order the
    reducers depend on when they thread the state through the loop.  Such
    containers are association lists in insertion order. *)

Section alist.
Context {V : Type}.

Fixpoint alookup (k : Z) (l : list (Z * V)) : option V :=
  match l with
  | [] => None
  | (k', v) :: r => if bool_decide (k' = k) then Some v else alookup k r
  end.

(** [o[k] = v] and [map.set(k, v)]: an existing key keeps its place, a new
    one goes last. *)
Fixpoint aset (k : Z) (v : V) (l : list (Z * V)) : list (Z * V) :=
  match l with
  | [] => [(k, v)]
  | (k', v') :: r =>
      if bool_decide (k' = k) then (k, v) :: r else (k', v') :: aset k v r
  end.

(** An integer key that is an array index comes first in the own-key order
    of an object, in ascending order; the other keys follow in insertion
    order. *)
Definition isArrayIndex (k : Z) : bool :=
  (0 <=? k) && (k <? 4294967295).

Definition ownKeys (l : list (Z * V)) : list Z :=
  merge_sort Z.le (filter (λ k, isArrayIndex k = true) l.*1)
    ++ filter (λ k, isArrayIndex k = false) l.*1.

(** [Object.values(o)] *)
Definition objectValues (l : list (Z * V)) : list V :=
  omap (λ k, alookup k l) (ownKeys l).
End alist.

(** ** The state tree

    The types come from [global/types] and [api/types], which the reducers
    import; their shape is read off the reducers themselves.  Each record
    carries the keys the reducers name and keeps the remaining keys in an
    object of its own. *)

Inductive MessageListType := ListThread | ListPinned | ListScheduled.

Record MessageList := {
  ml_chatId : string;
  ml_threadId : Z;
  ml_type : MessageListType;
}.

Record ApiThreadInfo := {
  ti_isCommentsInfo : option bool;
  ti_chatId : option string;
  ti_threadId : option Z;
  ti_fromChannelId : option string;
  ti_fromMessageId : option Z;
  ti_messagesCount : option Z;
  ti_lastMessageId : option Z;
  ti_lastReadInboxMessageId : option Z;
  ti_other : JsObj;
}.

(** [Partial<ApiThreadInfo>] *)
Record ThreadInfoUpdate := {
  tiu_isCommentsInfo : option (option bool);
  tiu_chatId : option (option string);
  tiu_threadId : option (option Z);
  tiu_fromChannelId : option (option string);
  tiu_fromMessageId : option (option Z);
  tiu_messagesCount : option (option Z);
  tiu_lastMessageId : option (option Z);
  tiu_lastReadInboxMessageId : option (option Z);
  tiu_other : JsObj;
}.

Record Thread := {
  th_listedIds : option (list Z);
  th_outlyingLists : option (list (list Z));
  th_pinnedIds : option (list Z);
  th_scheduledIds : option (list Z);
  th_lastViewportIds : option (list Z);
  th_threadInfo : option ApiThreadInfo;
  th_other : JsObj;
}.

(** [Partial<Thread>] *)
Record ThreadUpdate := {
  thu_listedIds : option (option (list Z));
  thu_outlyingLists : option (option (list (list Z)));
  thu_pinnedIds : option (option (list Z));
  thu_scheduledIds : option (option (list Z));
  thu_lastViewportIds : option (option (list Z));
  thu_threadInfo : option (option ApiThreadInfo);
  thu_other : JsObj;
}.

Record TabThread := {
  tt_viewportIds : option (list Z);
  tt_other : JsObj;
}.

(** [Partial<TabThread>] *)
Record TabThreadUpdate := {
  ttu_viewportIds : option (option (list Z));
  ttu_other : JsObj;
}.

Record SelectedMessages := {
  sel_chatId : string;
  sel_messageIds : list Z;
}.

Record TabState := {
  tab_messageLists : list MessageList;
  tab_tabThreads : gmap string (gmap Z TabThread);
  tab_selectedMessages : option SelectedMessages;
  tab_other : JsObj;
}.

(** [Partial<TabState>] *)
Record TabStateUpdate := {
  tsu_messageLists : option (list MessageList);
  tsu_tabThreads : option (gmap string (gmap Z TabThread));
  tsu_selectedMessages : option (option SelectedMessages);
  tsu_other : JsObj;
}.

(** [global.messages.byChatId[chatId]] *)
Record ChatMessages := {
  byId : gmap Z JsObj;
  threadsById : gmap Z Thread;
}.

(** [Partial<MessageStoreSections>] *)
Record MessageStoreUpdate := {
  msu_byId : option (gmap Z JsObj);
  msu_threadsById : option (gmap Z Thread);
}.

(** [global.scheduledMessages.byChatId[chatId]] *)
Record ScheduledMessages := {
  sch_byId : gmap Z JsObj;
  sch_hash : option Z;
}.

(** The global state.  [g_byTabId] keeps the insertion order of the tabs,
    which [Object.values(global.byTabId)] observes; a tab is known by its
    key, the [id] a tab state carries being that key.  [g_other] is the rest
    of the tree (chats, translations, quick replies, uploads, ...). *)
Record GlobalState := {
  g_messages : gmap string ChatMessages;
  g_scheduledMessages : gmap string ScheduledMessages;
  g_byTabId : list (Z * TabState);
  g_other : JsObj;
}.

Definition set_messages (global : GlobalState) (m : gmap string ChatMessages) :=
  {| g_messages := m;
     g_scheduledMessages := g_scheduledMessages global;
     g_byTabId := g_byTabId global;
     g_other := g_other global |}.

Definition set_scheduledMessages (global : GlobalState)
    (s : gmap string ScheduledMessages) :=
  {| g_messages := g_messages global;
     g_scheduledMessages := s;
     g_byTabId := g_byTabId global;
     g_other := g_other global |}.

Definition set_byTabId (global : GlobalState) (t : list (Z * TabState)) :=
  {| g_messages := g_messages global;
     g_scheduledMessages := g_scheduledMessages global;
     g_byTabId := t;
     g_other := g_other global |}.

Definition set_other (global : GlobalState) (o : JsObj) :=
  {| g_messages := g_messages global;
     g_scheduledMessages := g_scheduledMessages global;
     g_byTabId := g_byTabId global;
     g_other := o |}.

(** *** Spreading an update over a record *)

(** One key of [{...old, ...update}]. *)
Definition spreadKey {A} (old : option A) (upd : option (option A)) : option A :=
  match upd with
  | Some v => v
  | None => old
  end.

Definition emptyThreadInfo : ApiThreadInfo :=
  {| ti_isCommentsInfo := None; ti_chatId := None; ti_threadId := None;
     ti_fromChannelId := None; ti_fromMessageId := None;
     ti_messagesCount := None; ti_lastMessageId := None;
     ti_lastReadInboxMessageId := None; ti_other := ∅ |}.

Definition noThreadInfoUpdate : ThreadInfoUpdate :=
  {| tiu_isCommentsInfo := None; tiu_chatId := None; tiu_threadId := None;
     tiu_fromChannelId := None; tiu_fromMessageId := None;
     tiu_messagesCount := None; tiu_lastMessageId := None;
     tiu_lastReadInboxMessageId := None; tiu_other := ∅ |}.

Definition spreadThreadInfo (old : ApiThreadInfo) (u : ThreadInfoUpdate)
    : ApiThreadInfo :=
  {| ti_isCommentsInfo := spreadKey (ti_isCommentsInfo old) (tiu_isCommentsInfo u);
     ti_chatId := spreadKey (ti_chatId old) (tiu_chatId u);
     ti_threadId := spreadKey (ti_threadId old) (tiu_threadId u);
     ti_fromChannelId := spreadKey (ti_fromChannelId old) (tiu_fromChannelId u);
     ti_fromMessageId := spreadKey (ti_fromMessageId old) (tiu_fromMessageId u);
     ti_messagesCount := spreadKey (ti_messagesCount old) (tiu_messagesCount u);
     ti_lastMessageId := spreadKey (ti_lastMessageId old) (tiu_lastMessageId u);
     ti_lastReadInboxMessageId :=
       spreadKey (ti_lastReadInboxMessageId old) (tiu_lastReadInboxMessageId u);
     ti_other := objSpread (ti_other old) (tiu_other u) |}.

Definition emptyThread : Thread :=
  {| th_listedIds := None; th_outlyingLists := None; th_pinnedIds := None;
     th_scheduledIds := None; th_lastViewportIds := None;
     th_threadInfo := None; th_other := ∅ |}.

Definition noThreadUpdate : ThreadUpdate :=
  {| thu_listedIds := None; thu_outlyingLists := None; thu_pinnedIds := None;
     thu_scheduledIds := None; thu_lastViewportIds := None;
     thu_threadInfo := None; thu_other := ∅ |}.

Definition spreadThread (old : Thread) (u : ThreadUpdate) : Thread :=
  {| th_listedIds := spreadKey (th_listedIds old) (thu_listedIds u);
     th_outlyingLists := spreadKey (th_outlyingLists old) (thu_outlyingLists u);
     th_pinnedIds := spreadKey (th_pinnedIds old) (thu_pinnedIds u);
     th_scheduledIds := spreadKey (th_scheduledIds old) (thu_scheduledIds u);
     th_lastViewportIds :=
       spreadKey (th_lastViewportIds old) (thu_lastViewportIds u);
     th_threadInfo := spreadKey (th_threadInfo old) (thu_threadInfo u);
     th_other := objSpread (th_other old) (thu_other u) |}.

Definition emptyTabThread : TabThread :=
  {| tt_viewportIds := None; tt_other := ∅ |}.

Definition spreadTabThread (old : TabThread) (u : TabThreadUpdate) : TabThread :=
  {| tt_viewportIds := spreadKey (tt_viewportIds old) (ttu_viewportIds u);
     tt_other := objSpread (tt_other old) (ttu_other u) |}.

(** A tab state that does not exist yet reads as one without message lists,
    tab threads and selection. *)
Definition emptyTabState : TabState :=
  {| tab_messageLists := []; tab_tabThreads := ∅;
     tab_selectedMessages := None; tab_other := ∅ |}.

Definition noTabStateUpdate : TabStateUpdate :=
  {| tsu_messageLists := None; tsu_tabThreads := None;
     tsu_selectedMessages := None; tsu_other := ∅ |}.

Definition spreadTabState (old : TabState) (u : TabStateUpdate) : TabState :=
  {| tab_messageLists := default (tab_messageLists old) (tsu_messageLists u);
     tab_tabThreads := default (tab_tabThreads old) (tsu_tabThreads u);
     tab_selectedMessages :=
       spreadKey (tab_selectedMessages old) (tsu_selectedMessages u);
     tab_other := objSpread (tab_other old) (tsu_other u) |}.

(** [{ [paramName]: newValue }] for a key of [Thread] *)
Inductive ThreadParam :=
  | P_listedIds (v : option (list Z))
  | P_outlyingLists (v : option (list (list Z)))
  | P_pinnedIds (v : option (list Z))
  | P_scheduledIds (v : option (list Z))
  | P_lastViewportIds (v : option (list Z))
  | P_threadInfo (v : option ApiThreadInfo)
  | P_other (k : string) (v : JsVal).

Definition threadParam (p : ThreadParam) : ThreadUpdate :=
  match p with
  | P_listedIds v =>
      {| thu_listedIds := Some v; thu_outlyingLists := None;
         thu_pinnedIds := None; thu_scheduledIds := None;
         thu_lastViewportIds := None; thu_threadInfo := None; thu_other := ∅ |}
  | P_outlyingLists v =>
      {| thu_listedIds := None; thu_outlyingLists := Some v;
         thu_pinnedIds := None; thu_scheduledIds := None;
         thu_lastViewportIds := None; thu_threadInfo := None; thu_other := ∅ |}
  | P_pinnedIds v =>
      {| thu_listedIds := None; thu_outlyingLists := None;
         thu_pinnedIds := Some v; thu_scheduledIds := None;
         thu_lastViewportIds := None; thu_threadInfo := None; thu_other := ∅ |}
  | P_scheduledIds v =>
      {| thu_listedIds := None; thu_outlyingLists := None;
         thu_pinnedIds := None; thu_scheduledIds := Some v;
         thu_lastViewportIds := None; thu_threadInfo := None; thu_other := ∅ |}
  | P_lastViewportIds v =>
      {| thu_listedIds := None; thu_outlyingLists := None;
         thu_pinnedIds := None; thu_scheduledIds := None;
         thu_lastViewportIds := Some v; thu_threadInfo := None; thu_other := ∅ |}
  | P_threadInfo v =>
      {| thu_listedIds := None; thu_outlyingLists := None;
         thu_pinnedIds := None; thu_scheduledIds := None;
         thu_lastViewportIds := None; thu_threadInfo := Some v; thu_other := ∅ |}
  | P_other k v =>
      {| thu_listedIds := None; thu_outlyingLists := None;
         thu_pinnedIds := None; thu_scheduledIds := None;
         thu_lastViewportIds := None; thu_threadInfo := None;
         thu_other := {[ k := v ]} |}
  end.

(** [{ [paramName]: newValue }] for a key of [TabThread] *)
Inductive TabThreadParam :=
  | TP_viewportIds (v : option (list Z))
  | TP_other (k : string) (v : JsVal).

Definition tabThreadParam (p : TabThreadParam) : TabThreadUpdate :=
  match p with
  | TP_viewportIds v => {| ttu_viewportIds := Some v; ttu_other := ∅ |}
  | TP_other k v => {| ttu_viewportIds := None; ttu_other := {[ k := v ]} |}
  end.

#[global] Instance MessageListType_eq_dec : EqDecision MessageListType.
Proof. solve_decision. Defined.

(** ** Helpers of [util/iteratees] and [global/helpers] *)

(** Modelled from the spec: [omit] (util/iteratees) is not in the sources.
    It is the "remove by id set" of the tables: the object without the given
    keys.  Called on a table that does not exist it is taken to give the
    empty table. *)
Definition omit {V} (object : gmap Z V) (keys : list Z) : gmap Z V :=
  filter (λ kv, kv.1 ∉ keys) object.

(** Modelled from the spec: [pick] (util/iteratees) is not in the sources.
    It builds an object from the listed keys of its argument; here the keys
    are the restricted field set [messagesCount], [lastMessageId],
    [lastReadInboxMessageId] that is propagated to a linked thread. *)
Definition pick (info : ApiThreadInfo) : ThreadInfoUpdate :=
  {| tiu_isCommentsInfo := None; tiu_chatId := None; tiu_threadId := None;
     tiu_fromChannelId := None; tiu_fromMessageId := None;
     tiu_messagesCount := Some (ti_messagesCount info);
     tiu_lastMessageId := Some (ti_lastMessageId info);
     tiu_lastReadInboxMessageId := Some (ti_lastReadInboxMessageId info);
     tiu_other := ∅ |}.

(** Modelled from the spec: [pickTruthy] (util/iteratees) is not in the
    sources.  It collects the messages being deleted: the entries of the
    table under the given keys that hold a value, assigned key by key. *)
Definition pickTruthy (object : gmap Z JsObj) (keys : list Z)
    : list (Z * JsObj) :=
  foldl (λ result key,
           match object !! key with
           | Some v => aset key v result
           | None => result
           end) [] keys.

(** Modelled from the spec: [unique] (util/iteratees) is not in the sources.
    It deduplicates, keeping the first occurrence of each id. *)
Definition unique (l : list Z) : list Z :=
  reverse (remove_dups (reverse l)).

(** Modelled from the spec: [excludeSortedArray] (util/iteratees) is not in
    the sources.  It is the sorted-array subtraction primitive: the ids of
    [base], in their order, that are not among [toExclude]. *)
Definition excludeSortedArray (base toExclude : list Z) : list Z :=
  filter (λ id, id ∉ toExclude) base.

(** Modelled from the spec: [orderHistoryIds] (global/helpers) is not in the
    sources.  History order is ascending numeric order.  The reducers call
    it on an array for its effect on that array; the embedding rebinds the
    array to the result. *)
Definition orderHistoryIds (ids : list Z) : list Z := merge_sort Z.le ids.

(** Modelled from the spec: [orderPinnedIds] (global/helpers) is not in the
    sources.  The spec keeps pinned ids ascending like the other id lists. *)
Definition orderPinnedIds (ids : list Z) : list Z := merge_sort Z.le ids.

(** ** Selectors

    The selectors ([global/selectors]) are the read-only accessors of the
    tree.  None of them is in the sources; each one reads the place the
    reducers of this file write. *)

(** Modelled from the spec: [selectChatMessages] is not in the sources.  It
    is the message table of the chat, if the chat has one. *)
Definition selectChatMessages (global : GlobalState) (chatId : string)
    : option (gmap Z JsObj) :=
  byId <$> g_messages global !! chatId.

(** Modelled from the spec: [selectChatMessage] is not in the sources.  It
    is the per-chat message lookup by id. *)
Definition selectChatMessage (global : GlobalState) (chatId : string)
    (messageId : Z) : option JsObj :=
  selectChatMessages global chatId ≫= λ m, m !! messageId.

(** Modelled from the spec: [selectChatScheduledMessages] is not in the
    sources.  It is the scheduled-message table of the chat, if any. *)
Definition selectChatScheduledMessages (global : GlobalState) (chatId : string)
    : option (gmap Z JsObj) :=
  sch_byId <$> g_scheduledMessages global !! chatId.

(** Modelled from the spec: [selectScheduledMessage] is not in the sources.
    It is the lookup by id in the scheduled-message table. *)
Definition selectScheduledMessage (global : GlobalState) (chatId : string)
    (messageId : Z) : option JsObj :=
  selectChatScheduledMessages global chatId ≫= λ m, m !! messageId.

(** The thread entry [global.messages.byChatId[chatId]?.threadsById[threadId]],
    as [updateThread] reads it. *)
Definition selectThread (global : GlobalState) (chatId : string) (threadId : Z)
    : option Thread :=
  g_messages global !! chatId ≫= λ c, threadsById c !! threadId.

(** Modelled from the spec: [selectListedIds] is not in the sources.  It is
    the [listedIds] list of the thread. *)
Definition selectListedIds (global : GlobalState) (chatId : string)
    (threadId : Z) : option (list Z) :=
  selectThread global chatId threadId ≫= th_listedIds.

(** Modelled from the spec: [selectOutlyingLists] is not in the sources.  It
    is the [outlyingLists] of the thread. *)
Definition selectOutlyingLists (global : GlobalState) (chatId : string)
    (threadId : Z) : option (list (list Z)) :=
  selectThread global chatId threadId ≫= th_outlyingLists.

(** Modelled from the spec: [selectPinnedIds] is not in the sources.  It is
    the [pinnedIds] list of the thread. *)
Definition selectPinnedIds (global : GlobalState) (chatId : string)
    (threadId : Z) : option (list Z) :=
  selectThread global chatId threadId ≫= th_pinnedIds.

(** Modelled from the spec: [selectScheduledIds] is not in the sources.  It
    is the [scheduledIds] list of the thread. *)
Definition selectScheduledIds (global : GlobalState) (chatId : string)
    (threadId : Z) : option (list Z) :=
  selectThread global chatId threadId ≫= th_scheduledIds.

(** Modelled from the spec: [selectThreadInfo] is not in the sources.  It is
    the [threadInfo] of the thread. *)
Definition selectThreadInfo (global : GlobalState) (chatId : string)
    (threadId : Z) : option ApiThreadInfo :=
  selectThread global chatId threadId ≫= th_threadInfo.

(** Modelled from the spec: [selectTabState] is not in the sources.  It is
    the state of the tab; a tab that does not exist reads as
    [emptyTabState]. *)
Definition selectTabState (global : GlobalState) (tabId : Z) : TabState :=
  default emptyTabState (alookup tabId (g_byTabId global)).

(** The per-tab overlay [tabState.tabThreads[chatId]?.[threadId]], as
    [updateTabThread] reads it. *)
Definition selectTabThread (global : GlobalState) (chatId : string)
    (threadId tabId : Z) : option TabThread :=
  tab_tabThreads (selectTabState global tabId) !! chatId ≫= λ t, t !! threadId.

(** Modelled from the spec: [selectViewportIds] is not in the sources.  It
    is the per-tab viewport id sequence of the thread. *)
Definition selectViewportIds (global : GlobalState) (chatId : string)
    (threadId tabId : Z) : option (list Z) :=
  selectTabThread global chatId threadId tabId ≫= tt_viewportIds.

(** Modelled from the spec: [selectCurrentMessageList] is not in the
    sources.  It is the active view of the tab: the last of its message
    lists, the one [updateCurrentMessageList] compares with and replaces. *)
Definition selectCurrentMessageList (global : GlobalState) (tabId : Z)
    : option MessageList :=
  lastElem (tab_messageLists (selectTabState global tabId)).

(** The tabs [Object.values(global.byTabId)] visits, in its order. *)
Definition tabIds (global : GlobalState) : list Z := ownKeys (g_byTabId global).

(** ** Reducers of [reducers/tabs] *)

(** Modelled from the spec: [updateTabState] (reducers/tabs) is not in the
    sources.  It spreads the update over the state of the given tab. *)
Definition updateTabState (global : GlobalState) (update : TabStateUpdate)
    (tabId : Z) : GlobalState :=
  set_byTabId global
    (aset tabId (spreadTabState (selectTabState global tabId) update)
       (g_byTabId global)).

(** ** The reducers of [reducers/messages] *)

Section reducers.
(** Constants of [config] and [api/types], and the helpers and selectors
    whose result depends on parts of the tree that are not modelled.  None
    of them is in the sources; the reducers are embedded over any value of
    them. *)
Variable MAIN_THREAD_ID : Z.
Variables IS_TEST IS_MOCKED_CLIENT : bool.
Variable TMP_CHAT_ID : string.
Variables MESSAGE_LIST_SLICE MESSAGE_LIST_VIEWPORT_LIMIT : Z.
Variable hasMessageTtl : JsObj → bool.
Variable isLocalMessageId : Z → bool.
Variable selectThreadIdFromMessage : GlobalState → JsObj → option Z.
Variable selectMessageIdsByGroupId :
  GlobalState → string → string → option (list Z).
Variable selectCurrentMessageIds :
  GlobalState → string → Z → MessageListType → Z → option (list Z).
(** What [clearMessageTranslation] does to the rest of the tree. *)
Variable clearTranslation : JsObj → string → Z → JsObj.

(** Modelled from the spec: [clearMessageTranslation]
    (reducers/translations) is not in the sources.  Translations are a side
    store outside the message store and the tabs; the reducer changes the
    rest of the tree only. *)
Definition clearMessageTranslation (global : GlobalState) (chatId : string)
    (messageId : Z) : GlobalState :=
  set_other global (clearTranslation (g_other global) chatId messageId).

(** A [string | undefined] argument used as a condition. *)
Definition truthyString (s : option string) : option string :=
  match s with
  | Some s => if bool_decide (s = "") then None else Some s
  | None => None
  end.

Definition updateCurrentMessageList (global : GlobalState)
    (chatId : option string) (threadId : option Z)
    (type : option MessageListType)
    (shouldReplaceHistory shouldReplaceLast : bool) (tabId : Z)
    : GlobalState :=
  let threadId := default MAIN_THREAD_ID threadId in
  let type := default ListThread type in
  let messageLists := tab_messageLists (selectTabState global tabId) in
  let newMessageLists :=
    if shouldReplaceHistory || (IS_TEST && negb IS_MOCKED_CLIENT) then
      match truthyString chatId with
      | Some chatId =>
          [ {| ml_chatId := chatId; ml_threadId := threadId; ml_type := type |} ]
      | None => []
      end
    else
      match truthyString chatId with
      | Some chatId =>
          let entry :=
            {| ml_chatId := chatId; ml_threadId := threadId; ml_type := type |} in
          match lastElem messageLists with
          | None => messageLists ++ [entry]
          | Some last =>
              if negb (bool_decide (ml_chatId last = chatId))
                 || negb (bool_decide (ml_threadId last = threadId))
                 || negb (bool_decide (ml_type last = type))
              then
                if bool_decide (ml_chatId last = TMP_CHAT_ID) || shouldReplaceLast
                then jsSlice messageLists 0 (-1) ++ [entry]
                else messageLists ++ [entry]
              else messageLists
          end
      | None => jsSlice messageLists 0 (-1)
      end in
  updateTabState global
    {| tsu_messageLists := Some newMessageLists; tsu_tabThreads := None;
       tsu_selectedMessages := None; tsu_other := ∅ |} tabId.

Definition updateMessageStore (global : GlobalState) (chatId : string)
    (update : MessageStoreUpdate) : GlobalState :=
  let current :=
    default {| byId := ∅; threadsById := ∅ |} (g_messages global !! chatId) in
  set_messages global
    (<[chatId :=
         {| byId := default (byId current) (msu_byId update);
            threadsById := default (threadsById current) (msu_threadsById update) |}]>
       (g_messages global)).

Definition replaceChatMessages (global : GlobalState) (chatId : string)
    (newById : gmap Z JsObj) : GlobalState :=
  updateMessageStore global chatId
    {| msu_byId := Some newById; msu_threadsById := None |}.

Definition updateTabThread (global : GlobalState) (chatId : string)
    (threadId : Z) (threadUpdate : TabThreadUpdate) (tabId : Z)
    : GlobalState :=
  let tabState := selectTabState global tabId in
  let current :=
    default emptyTabThread
      (tab_tabThreads tabState !! chatId ≫= λ t, t !! threadId) in
  updateTabState global
    {| tsu_messageLists := None;
       tsu_tabThreads :=
         Some (<[chatId :=
                   <[threadId := spreadTabThread current threadUpdate]>
                     (default ∅ (tab_tabThreads tabState !! chatId))]>
                 (tab_tabThreads tabState));
       tsu_selectedMessages := None; tsu_other := ∅ |} tabId.

Definition updateThread (global : GlobalState) (chatId : string)
    (threadId : Z) (threadUpdate : option ThreadUpdate) : GlobalState :=
  match threadUpdate with
  | None =>
      updateMessageStore global chatId
        {| msu_byId := None;
           msu_threadsById :=
             Some (omit (default ∅ (threadsById <$> g_messages global !! chatId))
                        [threadId]) |}
  | Some threadUpdate =>
      let current := g_messages global !! chatId in
      updateMessageStore global chatId
        {| msu_byId := None;
           msu_threadsById :=
             Some (<[threadId :=
                       spreadThread
                         (default emptyThread
                            (current ≫= λ c, threadsById c !! threadId))
                         threadUpdate]>
                     (default ∅ (threadsById <$> current))) |}
  end.

Definition replaceThreadParam (global : GlobalState) (chatId : string)
    (threadId : Z) (param : ThreadParam) : GlobalState :=
  updateThread global chatId threadId (Some (threadParam param)).

Definition replaceTabThreadParam (global : GlobalState) (chatId : string)
    (threadId : Z) (param : TabThreadParam) (tabId : Z) : GlobalState :=
  let global :=
    match param with
    | TP_viewportIds newValue =>
        replaceThreadParam global chatId threadId (P_lastViewportIds newValue)
    | TP_other _ _ => global
    end in
  updateTabThread global chatId threadId (tabThreadParam param) tabId.

(** *** The message table *)

Definition addChatMessagesById (global : GlobalState) (chatId : string)
    (newById : gmap Z JsObj) : GlobalState :=
  let byId := selectChatMessages global chatId in
  if match byId with
     | Some byId =>
         forallb (λ newId, bool_decide (is_Some (byId !! newId)))
                 (map_to_list newById).*1
     | None => false
     end
  then global
  else replaceChatMessages global chatId (default ∅ byId ∪ newById).

(** The media-expiry rule of [updateChatMessage]: the update object after
    the first [if] of the reducer.  [None] is the TypeError of
    [message.content.voice] on a stored message without [content]. *)
Definition expireMedia (message : option JsObj) (messageUpdate : JsObj)
    : option JsObj :=
  match message with
  | Some message =>
      if isFalse (getProp messageUpdate "isMediaUnread") && hasMessageTtl message
      then
        voice ← readProp (getProp message "content") "voice";
        if truthy voice then
          Some (<["content" :=
                    JObj (<["isExpiredVoice" := JBool true]>
                            (<["voice" := JUndefined]>
                               (spreadVal (getProp messageUpdate "content"))))]>
                  messageUpdate)
        else if truthy (optProp (optProp (getProp message "content") "video")
                                "isRound")
        then
          Some (<["content" :=
                    JObj (<["isExpiredRoundVideo" := JBool true]>
                            (<["video" := JUndefined]>
                               (spreadVal (getProp messageUpdate "content"))))]>
                  messageUpdate)
        else Some messageUpdate
      else Some messageUpdate
  | None => Some messageUpdate
  end.

(** [{...message, ...messageUpdate}] for a message that may be missing. *)
Definition mergeMessage (message : option JsObj) (messageUpdate : JsObj)
    : JsObj :=
  objSpread (default ∅ message) messageUpdate.

Definition updateChatMessage (global : GlobalState) (chatId : string)
    (messageId : Z) (messageUpdate : JsObj) : option GlobalState :=
  let byId := default ∅ (selectChatMessages global chatId) in
  let message := byId !! messageId in
  messageUpdate ← expireMedia message messageUpdate;
  let updatedMessage := mergeMessage message messageUpdate in
  if negb (truthy (getProp updatedMessage "id")) then Some global
  else Some (replaceChatMessages global chatId
               (<[messageId := updatedMessage]> byId)).

Definition updateScheduledMessages (global : GlobalState) (chatId : string)
    (newById : gmap Z JsObj) : GlobalState :=
  let current :=
    default {| sch_byId := ∅; sch_hash := Some 0 |}
            (g_scheduledMessages global !! chatId) in
  set_scheduledMessages global
    (<[chatId := {| sch_byId := newById ∪ sch_byId current;
                    sch_hash := sch_hash current |}]>
       (g_scheduledMessages global)).

Definition updateScheduledMessage (global : GlobalState) (chatId : string)
    (messageId : Z) (messageUpdate : JsObj) : GlobalState :=
  let message := selectScheduledMessage global chatId messageId in
  let updatedMessage := mergeMessage message messageUpdate in
  if negb (truthy (getProp updatedMessage "id")) then global
  else updateScheduledMessages global chatId {[ messageId := updatedMessage ]}.

(** *** Thread info and its cascade *)

Definition truthyNumber (n : option Z) : option Z :=
  match n with
  | Some n => if bool_decide (n = 0) then None else Some n
  | None => None
  end.

(** The body of [updateThreadInfo]; [self] is the function the body calls
    for the linked thread.  A chat id that is [undefined] subscripts the
    tree as the key "undefined". *)
Definition updateThreadInfoBody
    (self : GlobalState → string → Z → option ThreadInfoUpdate → bool →
            GlobalState)
    (global : GlobalState) (chatId : string) (threadId : Z)
    (update : option ThreadInfoUpdate) (doNotUpdateLinked : bool)
    : GlobalState :=
  let newThreadInfo :=
    spreadThreadInfo
      (default emptyThreadInfo (selectThreadInfo global chatId threadId))
      (default noThreadInfoUpdate update) in
  let global :=
    if negb doNotUpdateLinked then
      let linkedUpdate := pick newThreadInfo in
      if default false (ti_isCommentsInfo newThreadInfo) then
        match truthyNumber (ti_threadId newThreadInfo) with
        | Some linkedThreadId =>
            self global (default "undefined" (ti_chatId newThreadInfo))
                 linkedThreadId (Some linkedUpdate) true
        | None => global
        end
      else
        match truthyString (ti_fromChannelId newThreadInfo),
              truthyNumber (ti_fromMessageId newThreadInfo) with
        | Some fromChannelId, Some fromMessageId =>
            self global fromChannelId fromMessageId (Some linkedUpdate) true
        | _, _ => global
        end
    else global in
  replaceThreadParam global chatId threadId (P_threadInfo (Some newThreadInfo)).

(** [updateThreadInfo] calls itself with [doNotUpdateLinked] set, and a
    call with the flag set calls nothing: two unfoldings of the body are
    the whole function (see [updateThreadInfo_unfold]). *)
Definition updateThreadInfo : GlobalState → string → Z →
    option ThreadInfoUpdate → bool → GlobalState :=
  updateThreadInfoBody (updateThreadInfoBody (λ global _ _ _ _, global)).

(** *** Deletion *)

(** One step of [messageIds.forEach] in [deleteChatMessages]: the state and
    the [updatedThreads] map after the message id. *)
Definition collectThread (chatId : string) (byId : gmap Z JsObj)
    (acc : GlobalState * list (Z * list Z)) (messageId : Z)
    : GlobalState * list (Z * list Z) :=
  let '(global, updatedThreads) := acc in
  match byId !! messageId with
  | None => acc
  | Some message =>
      match truthyNumber (selectThreadIdFromMessage global message) with
      | None => acc
      | Some threadId =>
          if bool_decide (threadId = MAIN_THREAD_ID) then acc
          else
            let threadMessages := default [] (alookup threadId updatedThreads) in
            (clearMessageTranslation global chatId messageId,
             aset threadId (threadMessages ++ [messageId]) updatedThreads)
      end
  end.

(** One step of the loop over the tabs inside [updatedThreads.forEach]. *)
Definition deleteFromViewport (chatId : string) (threadId : Z)
    (messageIds : list Z) (global : GlobalState) (tabId : Z) : GlobalState :=
  match selectViewportIds global chatId threadId tabId with
  | None => global
  | Some viewportIds =>
      let newViewportIds := excludeSortedArray viewportIds messageIds in
      replaceTabThreadParam global chatId threadId
        (TP_viewportIds
           (if bool_decide (newViewportIds = []) then None
            else Some newViewportIds))
        tabId
  end.

(** One step of [updatedThreads.forEach].  The entry of the main thread is
    the [messageIds] array itself, so what [orderPinnedIds] does to the
    array of that entry it does to [messageIds]; the step returns the
    array along with the state. *)
Definition deleteFromThread (chatId : string)
    (acc : GlobalState * list Z) (entry : Z * list Z)
    : GlobalState * list Z :=
  let '(global, messageIds) := acc in
  let threadId := entry.1 in
  let threadMessageIds :=
    if bool_decide (threadId = MAIN_THREAD_ID) then messageIds else entry.2 in
  let threadInfo := selectThreadInfo global chatId threadId in
  let listedIds := selectListedIds global chatId threadId in
  let pinnedIds := selectPinnedIds global chatId threadId in
  let outlyingLists := selectOutlyingLists global chatId threadId in
  let newMessageCount := threadInfo ≫= ti_messagesCount in
  let listedIds := (λ l, excludeSortedArray l threadMessageIds) <$> listedIds in
  let outlyingLists :=
    (λ lists : list (list Z),
       (λ l, excludeSortedArray l threadMessageIds) <$> lists)
      <$> outlyingLists in
  let threadMessageIds :=
    match pinnedIds with
    | Some _ => orderPinnedIds threadMessageIds
    | None => threadMessageIds
    end in
  let pinnedIds := (λ l, excludeSortedArray l threadMessageIds) <$> pinnedIds in
  let messageIds :=
    if bool_decide (threadId = MAIN_THREAD_ID) then threadMessageIds
    else messageIds in
  let nonLocalMessageCount :=
    Z.of_nat (length (filter (λ id, isLocalMessageId id = false) threadMessageIds)) in
  let newMessageCount := (λ n, n - nonLocalMessageCount) <$> newMessageCount in
  let global :=
    foldl (deleteFromViewport chatId threadId messageIds) global (tabIds global) in
  let global := replaceThreadParam global chatId threadId (P_listedIds listedIds) in
  let global :=
    replaceThreadParam global chatId threadId (P_outlyingLists outlyingLists) in
  let global := replaceThreadParam global chatId threadId (P_pinnedIds pinnedIds) in
  let global :=
    match threadInfo, newMessageCount with
    | Some _, Some newMessageCount =>
        updateThreadInfo global chatId threadId
          (Some {| tiu_isCommentsInfo := None; tiu_chatId := None;
                   tiu_threadId := None; tiu_fromChannelId := None;
                   tiu_fromMessageId := None;
                   tiu_messagesCount := Some (Some newMessageCount);
                   tiu_lastMessageId := None;
                   tiu_lastReadInboxMessageId := None; tiu_other := ∅ |})
          false
    | _, _ => global
    end in
  (global, messageIds).

(** [forwardInfo?.isLinkedChannelPost] *)
Definition isLinkedChannelPost (message : JsObj) : bool :=
  truthy (optProp (getProp message "forwardInfo") "isLinkedChannelPost").

(** One step of [deletedForwardedPosts.forEach]. *)
Definition deleteForwardedPost (chatId : string) (tabId : Z)
    (canDeleteCurrentThread : bool) (currentThreadId : option Z)
    (global : GlobalState) (message : JsObj) : GlobalState :=
  let forwardInfo := getProp message "forwardInfo" in
  let fromChatId := toPropertyKey (optProp forwardInfo "fromChatId") in
  let fromMessageId := toNumberKey (optProp forwardInfo "fromMessageId") in
  let originalPost := fromMessageId ≫= selectChatMessage global fromChatId in
  let global :=
    if canDeleteCurrentThread
       && match currentThreadId with
          | Some currentThreadId => numEq currentThreadId (getProp message "id")
          | None => false
          end
    then updateCurrentMessageList global (Some chatId) None None false false tabId
    else global in
  match originalPost, fromMessageId with
  | Some _, Some fromMessageId => updateThread global fromChatId fromMessageId None
  | _, _ => global
  end.

(** One step of the loop over the tabs for the deleted channel posts. *)
Definition deleteForwardedPosts (chatId : string)
    (deletedForwardedPosts : list JsObj) (global : GlobalState) (tabId : Z)
    : GlobalState :=
  let currentMessageList := selectCurrentMessageList global tabId in
  let canDeleteCurrentThread :=
    match currentMessageList with
    | Some currentMessageList =>
        bool_decide (ml_chatId currentMessageList = chatId)
        && bool_decide (ml_type currentMessageList = ListThread)
    | None => false
    end in
  let currentThreadId := ml_threadId <$> currentMessageList in
  foldl (deleteForwardedPost chatId tabId canDeleteCurrentThread currentThreadId)
        global deletedForwardedPosts.

Definition deleteChatMessages (global : GlobalState) (chatId : string)
    (messageIds : list Z) : GlobalState :=
  match selectChatMessages global chatId with
  | None => global
  | Some byId =>
      let messageIds := orderHistoryIds messageIds in
      let '(global, updatedThreads) :=
        foldl (collectThread chatId byId)
              (global, [(MAIN_THREAD_ID, messageIds)]) messageIds in
      let deletedForwardedPosts :=
        filter (λ message, isLinkedChannelPost message = true)
               (objectValues (pickTruthy byId messageIds)) in
      let '(global, messageIds) :=
        foldl (deleteFromThread chatId) (global, messageIds) updatedThreads in
      let global :=
        match deletedForwardedPosts with
        | [] => global
        | _ =>
            foldl (deleteForwardedPosts chatId deletedForwardedPosts)
                  global (tabIds global)
        end in
      let newById := omit byId messageIds in
      replaceChatMessages global chatId newById
  end.

(** One step of the loop over [Object.entries(...threadsById)] in
    [deleteChatScheduledMessages].  Each step writes the thread it visits
    and no other, so the order of the visits does not show in the result;
    the embedding visits the entries in the order of [map_to_list]. *)
Definition deleteScheduledFromThread (chatId : string) (messageIds : list Z)
    (global : GlobalState) (entry : Z * Thread) : GlobalState :=
  match th_scheduledIds entry.2 with
  | Some ids =>
      let newScheduledIds := filter (λ id, includes messageIds id = false) ids in
      replaceThreadParam global chatId entry.1
        (P_scheduledIds (Some newScheduledIds))
  | None => global
  end.

Definition deleteChatScheduledMessages (global : GlobalState)
    (chatId : string) (messageIds : list Z) : GlobalState :=
  match selectChatScheduledMessages global chatId with
  | None => global
  | Some byId =>
      let newById := omit byId messageIds in
      let global :=
        match selectScheduledIds global chatId MAIN_THREAD_ID with
        | Some scheduledIds =>
            let scheduledIds :=
              foldl (λ scheduledIds messageId,
                       if includes scheduledIds messageId
                       then filter (λ id, id ≠ messageId) scheduledIds
                       else scheduledIds)
                    scheduledIds messageIds in
            let global :=
              replaceThreadParam global chatId MAIN_THREAD_ID
                (P_scheduledIds (Some scheduledIds)) in
            foldl (deleteScheduledFromThread chatId messageIds) global
                  (map_to_list
                     (default ∅ (threadsById <$> g_messages global !! chatId)))
        | None => global
        end in
      set_scheduledMessages global
        (<[chatId := {| sch_byId := newById; sch_hash := None |}]>
           (g_scheduledMessages global))
  end.

(** *** The viewport window *)

Definition addViewportId (global : GlobalState) (chatId : string)
    (threadId newId tabId : Z) : GlobalState :=
  let viewportIds := default [] (selectViewportIds global chatId threadId tabId) in
  if includes viewportIds newId then global
  else
    let newIds :=
      orderHistoryIds
        ((if Z.of_nat (length viewportIds) <? MESSAGE_LIST_VIEWPORT_LIMIT
          then viewportIds
          else jsSliceFrom viewportIds (- (MESSAGE_LIST_SLICE ÷ 2)))
           ++ [newId]) in
    replaceTabThreadParam global chatId threadId (TP_viewportIds (Some newIds))
      tabId.

(** *** Selection *)

Definition noSelection : TabStateUpdate :=
  {| tsu_messageLists := None; tsu_tabThreads := None;
     tsu_selectedMessages := Some None; tsu_other := ∅ |}.

Definition selection (s : SelectedMessages) : TabStateUpdate :=
  {| tsu_messageLists := None; tsu_tabThreads := None;
     tsu_selectedMessages := Some (Some s); tsu_other := ∅ |}.

(** [messageId] is a number, an array of numbers or missing. *)
Definition enterMessageSelectMode (global : GlobalState) (chatId : string)
    (messageId : option (Z + list Z)) (tabId : Z) : GlobalState :=
  let messageIds :=
    match messageId with
    | Some (inl n) => if bool_decide (n = 0) then [] else [n]
    | Some (inr ids) => ids
    | None => []
    end in
  updateTabState global
    (selection {| sel_chatId := chatId; sel_messageIds := messageIds |}) tabId.

Definition exitMessageSelectMode (global : GlobalState) (tabId : Z)
    : GlobalState :=
  updateTabState global noSelection tabId.

(** [None] is the TypeError of [viewportIds.indexOf] when the current
    message ids are [undefined]. *)
Definition toggleMessageSelection (global : GlobalState) (chatId : string)
    (threadId : Z) (messageListType : MessageListType) (messageId : Z)
    (groupedId : option string) (childMessageIds : option (list Z))
    (withShift : bool) (tabId : Z) : option GlobalState :=
  let oldSelectedMessages := tab_selectedMessages (selectTabState global tabId) in
  let childMessageIds :=
    match truthyString groupedId with
    | Some groupedId => selectMessageIdsByGroupId global chatId groupedId
    | None => childMessageIds
    end in
  let selectedMessageIds := default [messageId] childMessageIds in
  match oldSelectedMessages with
  | None =>
      Some (enterMessageSelectMode global chatId (Some (inr selectedMessageIds))
              tabId)
  | Some oldSelectedMessages =>
      let messageIds := sel_messageIds oldSelectedMessages in
      let newSelectedMessageIds :=
        filter (λ id, includes messageIds id = false) selectedMessageIds in
      newMessageIds ←
        match newSelectedMessageIds with
        | [] =>
            Some (filter (λ id, includes selectedMessageIds id = false) messageIds)
        | _ =>
            match (if withShift then lastElem messageIds else None) with
            | Some lastId =>
                viewportIds ←
                  selectCurrentMessageIds global chatId threadId
                    messageListType tabId;
                let prevIndex := indexOf viewportIds lastId in
                let currentIndex := indexOf viewportIds messageId in
                let from := Z.min prevIndex currentIndex in
                let to := Z.max prevIndex currentIndex in
                let slice := jsSlice viewportIds from (to + 1) in
                Some (unique (messageIds ++ slice))
            | None => Some (messageIds ++ newSelectedMessageIds)
            end
        end;
      match newMessageIds with
      | [] => Some (exitMessageSelectMode global tabId)
      | _ =>
          Some (updateTabState global
                  (selection {| sel_chatId := sel_chatId oldSelectedMessages;
                                sel_messageIds := newMessageIds |})
                  tabId)
      end
  end.


(** *** Adding messages *)

(** [message.chatId] as it subscripts the tree. *)
Definition messageChatId (message : JsObj) : string :=
  toPropertyKey (getProp message "chatId").

(** [message.id] as it subscripts a message table. *)
Definition messageKey (message : JsObj) : option Z :=
  toNumberKey (getProp message "id").

(** One step of [messages.reduce] in [addMessages].  The chat gets its
    object, and the message goes under its id.  By its type a message has a
    number as its id; an id that is not a number is no key of a table keyed
    by numbers, and such a message is not entered. *)
Definition groupMessage (messagesByChatId : gmap string (gmap Z JsObj))
    (message : JsObj) : gmap string (gmap Z JsObj) :=
  let chatMessages := default ∅ (messagesByChatId !! messageChatId message) in
  <[messageChatId message :=
      match messageKey message with
      | Some id => <[id := message]> chatMessages
      | None => chatMessages
      end]> messagesByChatId.

(** [Object.keys(addedByChatId).forEach] calls [addChatMessagesById] once
    for each chat, and each call writes the message table of its chat only,
    so the order of the calls does not show in the result (see
    [addMessages_any_order]); the embedding visits the chats in the order
    of [map_to_list]. *)
Definition addMessages (global : GlobalState) (messages : list JsObj)
    : GlobalState :=
  let addedByChatId := foldl groupMessage ∅ messages in
  foldl (λ global entry, addChatMessagesById global entry.1 entry.2)
        global (map_to_list addedByChatId).

(** *** The listed ids *)

Definition updateListedIds (global : GlobalState) (chatId : string)
    (threadId : Z) (idsUpdate : list Z) : GlobalState :=
  let listedIds := selectListedIds global chatId threadId in
  let newIds :=
    match listedIds with
    | Some ((_ :: _) as listedIds) =>
        filter (λ id, includes listedIds id = false) idsUpdate
    | _ => idsUpdate
    end in
  match listedIds, newIds with
  | Some _, [] => global
  | _, _ =>
      replaceThreadParam global chatId threadId
        (P_listedIds (Some (orderHistoryIds (default [] listedIds ++ newIds))))
  end.

(** *** Replacing a viewport and the pinned ids *)




(** *** The unread count of a comments thread *)

(** [originMessage.forwardInfo || {}] is read by keys, so a missing or falsy
    [forwardInfo] gives [undefined] for both keys.  [channelPostId] subscripts
    the threads of the chat; by its type it is a number. *)
Definition updateThreadUnreadFromForwardedMessage (global : GlobalState)
    (originMessage : JsObj) (chatId : string) (lastMessageId : Z)
    (isDeleting : bool) : GlobalState :=
  let forwardInfo := getProp originMessage "forwardInfo" in
  let channelPostId := optProp forwardInfo "channelPostId" in
  let fromChatId := optProp forwardInfo "fromChatId" in
  if truthy channelPostId && truthy fromChatId then
    match toNumberKey channelPostId with
    | Some channelPostId =>
        match selectThreadInfo global chatId channelPostId with
        | Some threadInfoOld =>
            replaceThreadParam global chatId channelPostId
              (P_threadInfo
                 (Some
                    (spreadThreadInfo threadInfoOld
                       {| tiu_isCommentsInfo := None; tiu_chatId := None;
                          tiu_threadId := None; tiu_fromChannelId := None;
                          tiu_fromMessageId := None;
                          tiu_messagesCount :=
                            Some (Some (default 0 (truthyNumber
                                                     (ti_messagesCount threadInfoOld))
                                        + (if isDeleting then -1 else 1)));
                          tiu_lastMessageId := Some (Some lastMessageId);
                          tiu_lastReadInboxMessageId := None; tiu_other := ∅ |})))
        | None => global
        end
    | None => global
    end
  else global.

(** *** The focused message *)

(** An optional argument as the value it has in the body. *)
Definition optString (s : option string) : JsVal :=
  match s with
  | Some s => JStr s
  | None => JUndefined
  end.

Definition optNumber (n : option Z) : JsVal :=
  match n with
  | Some n => JNum n
  | None => JUndefined
  end.

(** [focusedMessage] is one of the keys of the tab state that the reducers
    of this file do not name; it lives among [tab_other]. *)
Definition updateFocusedMessage (global : GlobalState) (chatId : option string)
    (messageId : option Z) (threadId : option Z)
    (noHighlight isResizingContainer : option bool) (quote : option string)
    (tabId : Z) : GlobalState :=
  let threadId := default MAIN_THREAD_ID threadId in
  let noHighlight := default false noHighlight in
  let isResizingContainer := default false isResizingContainer in
  updateTabState global
    {| tsu_messageLists := None; tsu_tabThreads := None;
       tsu_selectedMessages := None;
       tsu_other :=
         {[ "focusedMessage" :=
              JObj (<["quote" := optString quote]>
                      (<["isResizingContainer" := JBool isResizingContainer]>
                         (<["noHighlight" := JBool noHighlight]>
                            (<["messageId" := optNumber messageId]>
                               (<["threadId" := JNum threadId]>
                                  (<["chatId" := optString chatId]>
                                     (spreadVal
                                        (getProp
                                           (tab_other (selectTabState global tabId))
                                           "focusedMessage")))))))) ]} |}
    tabId.

Definition updateFocusDirection (global : GlobalState) (direction : JsVal)
    (tabId : Z) : GlobalState :=
  updateTabState global
    {| tsu_messageLists := None; tsu_tabThreads := None;
       tsu_selectedMessages := None;
       tsu_other :=
         {[ "focusedMessage" :=
              JObj (<["direction" := direction]>
                      (spreadVal
                         (getProp (tab_other (selectTabState global tabId))
                                  "focusedMessage"))) ]} |}
    tabId.

(** ** Notions used to state the properties *)

(** The ids [toggleMessageSelection] toggles. *)
Definition toggledIds (global : GlobalState) (chatId : string) (messageId : Z)
    (groupedId : option string) (childMessageIds : option (list Z)) : list Z :=
  default [messageId]
    (match truthyString groupedId with
     | Some groupedId => selectMessageIdsByGroupId global chatId groupedId
     | None => childMessageIds
     end).

(** The thread an info is linked to, by the conditions [updateThreadInfo]
    tests on it: a comments info with a truthy [threadId] is linked to thread
    [threadId] of chat [chatId]; an info that is not a comments info and has
    a truthy [fromChannelId] and [fromMessageId] is linked to thread
    [fromMessageId] of chat [fromChannelId]. *)
Definition linkedThread (info : ApiThreadInfo) : option (string * Z) :=
  if default false (ti_isCommentsInfo info) then
    match truthyNumber (ti_threadId info) with
    | Some linkedThreadId =>
        Some (default "undefined" (ti_chatId info), linkedThreadId)
    | None => None
    end
  else
    match truthyString (ti_fromChannelId info),
          truthyNumber (ti_fromMessageId info) with
    | Some fromChannelId, Some fromMessageId => Some (fromChannelId, fromMessageId)
    | _, _ => None
    end.

(** A thread with its [threadInfo] replaced and nothing else changed. *)
Definition withThreadInfo (thread : Thread) (info : ApiThreadInfo) : Thread :=
  {| th_listedIds := th_listedIds thread;
     th_outlyingLists := th_outlyingLists thread;
     th_pinnedIds := th_pinnedIds thread;
     th_scheduledIds := th_scheduledIds thread;
     th_lastViewportIds := th_lastViewportIds thread;
     th_threadInfo := Some info;
     th_other := th_other thread |}.

(** The info [updateThreadInfo] stores for the thread it is called on. *)
Definition mergedThreadInfo (global : GlobalState) (chatId : string)
    (threadId : Z) (update : option ThreadInfoUpdate) : ApiThreadInfo :=
  spreadThreadInfo
    (default emptyThreadInfo (selectThreadInfo global chatId threadId))
    (default noThreadInfoUpdate update).

(** A thread with its [scheduledIds] replaced and nothing else changed. *)
Definition withScheduledIds (thread : Thread) (ids : list Z) : Thread :=
  {| th_listedIds := th_listedIds thread;
     th_outlyingLists := th_outlyingLists thread;
     th_pinnedIds := th_pinnedIds thread;
     th_scheduledIds := Some ids;
     th_lastViewportIds := th_lastViewportIds thread;
     th_threadInfo := th_threadInfo thread;
     th_other := th_other thread |}.

(** A thread after the given ids are taken out of its [scheduledIds]. *)
Definition stripScheduled (messageIds : list Z) (thread : Thread) : Thread :=
  match th_scheduledIds thread with
  | Some ids => withScheduledIds thread (filter (λ id, id ∉ messageIds) ids)
  | None => thread
  end.


(** *** The indices of a thread and what it means to delete from them *)

(** None of the ids is in the list, if there is a list. *)
Definition avoids (ids : list Z) (list : option (list Z)) : Prop :=
  ∀ l, list = Some l → ∀ id, id ∈ ids → id ∉ l.

(** None of the ids is in any of the lists. *)
Definition allAvoid (ids : list Z) (lists : option (list (list Z))) : Prop :=
  ∀ ls l, lists = Some ls → l ∈ ls → ∀ id, id ∈ ids → id ∉ l.

(** The thread has none of the ids in its [listedIds], in any of its
    [outlyingLists] and in its [pinnedIds]. *)
Definition threadListsAvoid (global : GlobalState) (chatId : string)
    (threadId : Z) (ids : list Z) : Prop :=
  avoids ids (selectListedIds global chatId threadId)
  ∧ allAvoid ids (selectOutlyingLists global chatId threadId)
  ∧ avoids ids (selectPinnedIds global chatId threadId).

(** No tab has any of the ids in its viewport of the thread. *)
Definition viewportsAvoid (global : GlobalState) (chatId : string)
    (threadId : Z) (ids : list Z) : Prop :=
  ∀ tabId, avoids ids (selectViewportIds global chatId threadId tabId).

(** A list after a step is made of ids of the list before it. *)
Definition optSubset (old new : option (list Z)) : Prop :=
  ∀ l', new = Some l' → ∃ l, old = Some l ∧ l' ⊆ l.

Definition optSubsets (old new : option (list (list Z))) : Prop :=
  ∀ ls' l', new = Some ls' → l' ∈ ls' → ∃ ls l, old = Some ls ∧ l ∈ ls ∧ l' ⊆ l.

(** A step that adds no id to any id list of any thread and to any
    viewport. *)
Record shrinks (global global' : GlobalState) : Prop := {
  shrinks_listedIds : ∀ c t,
    optSubset (selectListedIds global c t) (selectListedIds global' c t);
  shrinks_outlyingLists : ∀ c t,
    optSubsets (selectOutlyingLists global c t) (selectOutlyingLists global' c t);
  shrinks_pinnedIds : ∀ c t,
    optSubset (selectPinnedIds global c t) (selectPinnedIds global' c t);
  shrinks_viewportIds : ∀ c t tabId,
    optSubset (selectViewportIds global c t tabId)
              (selectViewportIds global' c t tabId);
}.

(** A step that leaves the id lists of every thread and every viewport as
    they are. *)
Record sameIndex (global global' : GlobalState) : Prop := {
  same_listedIds : ∀ c t, selectListedIds global' c t = selectListedIds global c t;
  same_outlyingLists : ∀ c t,
    selectOutlyingLists global' c t = selectOutlyingLists global c t;
  same_pinnedIds : ∀ c t, selectPinnedIds global' c t = selectPinnedIds global c t;
  same_viewportIds : ∀ c t tabId,
    selectViewportIds global' c t tabId = selectViewportIds global c t tabId;
}.

(** A step that leaves the stored messages, the message lists of the tabs
    and the set of tabs as they are. *)
Record stable (global global' : GlobalState) : Prop := {
  stable_messages : ∀ c m, selectChatMessage global' c m = selectChatMessage global c m;
  stable_messageLists : ∀ tabId,
    tab_messageLists (selectTabState global' tabId)
    = tab_messageLists (selectTabState global tabId);
  stable_tabIds : ∀ tabId, tabId ∈ tabIds global' ↔ tabId ∈ tabIds global;
}.

(** The [updatedThreads] map [deleteChatMessages] builds. *)
Definition updatedThreads (global : GlobalState) (chatId : string)
    (byId : gmap Z JsObj) (messageIds : list Z) : list (Z * list Z) :=
  (foldl (collectThread chatId byId)
         (global, [(MAIN_THREAD_ID, orderHistoryIds messageIds)])
         (orderHistoryIds messageIds)).2.

(** A step that leaves the id lists of every thread as they are. *)
Definition sameLists (global global' : GlobalState) : Prop :=
  ∀ c t,
    selectListedIds global' c t = selectListedIds global c t
    ∧ selectOutlyingLists global' c t = selectOutlyingLists global c t
    ∧ selectPinnedIds global' c t = selectPinnedIds global c t.

(** The tab shows no specific thread of the chat: its current message list
    is the chat's main thread. *)
Definition showsMainThread (global : GlobalState) (chatId : string) (tabId : Z)
    : Prop :=
  selectCurrentMessageList global tabId
  = Some {| ml_chatId := chatId; ml_threadId := MAIN_THREAD_ID;
            ml_type := ListThread |}.

(** The chat and the message a linked channel post was forwarded from, as
    [deleteChatMessages] reads them off the post. *)
Definition originChatId (message : JsObj) : string :=
  toPropertyKey (optProp (getProp message "forwardInfo") "fromChatId").

Definition originMessageId (message : JsObj) : option Z :=
  toNumberKey (optProp (getProp message "forwardInfo") "fromMessageId").

(** *** The claims of the specification that the reducers do not meet, as
    the specification words them *)

(** Deletion completeness for every thread of the chat. *)
Definition deletionComplete (global : GlobalState) (chatId : string)
    (messageIds : list Z) : Prop :=
  let global' := deleteChatMessages global chatId messageIds in
  (∀ threadId,
     threadListsAvoid global' chatId threadId messageIds
     ∧ viewportsAvoid global' chatId threadId messageIds)
  ∧ (∀ id, id ∈ messageIds → selectChatMessage global' chatId id = None).

(** An upsert stores each id of the batch as the prior entity overwritten by
    the fields of the batch entry. *)
Definition upsertMerges (global : GlobalState) (chatId : string)
    (newById : gmap Z JsObj) : Prop :=
  ∀ id entry,
    newById !! id = Some entry →
    selectChatMessage (addChatMessagesById global chatId newById) chatId id
    = Some (mergeMessage (selectChatMessage global chatId id) entry).

(** Deleting a linked forwarded channel post resets the tabs that show its
    thread and drops the thread entry of its origin. *)
Definition linkedPostDropped (global : GlobalState) (chatId : string)
    (messageIds : list Z) : Prop :=
  ∀ byId messageId message,
    selectChatMessages global chatId = Some byId →
    messageId ∈ messageIds →
    byId !! messageId = Some message →
    isLinkedChannelPost message = true →
    let global' := deleteChatMessages global chatId messageIds in
    (∀ tabId postId,
       getProp message "id" = JNum postId →
       selectCurrentMessageList global tabId
       = Some {| ml_chatId := chatId; ml_threadId := postId;
                 ml_type := ListThread |} →
       showsMainThread global' chatId tabId)
    ∧ (∀ fromMessageId,
         originMessageId message = Some fromMessageId →
         selectThread global' (originChatId message) fromMessageId = None).

(** Deleting scheduled messages strips the ids from the table and from the
    [scheduledIds] of every thread, and touches no tab and no thread info. *)
Definition scheduledDeletionComplete (global : GlobalState) (chatId : string)
    (messageIds : list Z) : Prop :=
  ∀ byId,
    selectChatScheduledMessages global chatId = Some byId →
    let global' := deleteChatScheduledMessages global chatId messageIds in
    (∀ id, id ∈ messageIds → selectScheduledMessage global' chatId id = None)
    ∧ (∀ threadId, avoids messageIds (selectScheduledIds global' chatId threadId))
    ∧ g_byTabId global' = g_byTabId global
    ∧ (∀ c t, selectThreadInfo global' c t = selectThreadInfo global c t).

(** A selection record that is present has ids. *)
Definition selectionNonEmpty (global : GlobalState) (tabId : Z) : Prop :=
  ∀ s, tab_selectedMessages (selectTabState global tabId) = Some s →
       sel_messageIds s ≠ [].

(** Entering selection mode with zero ids leaves the record absent, and
    after every selection operation a present record has ids. *)
Definition selectionPresentIffNonEmpty (global : GlobalState) (chatId : string)
    (tabId : Z) : Prop :=
  (tab_selectedMessages (selectTabState global tabId) = None →
   tab_selectedMessages
     (selectTabState (enterMessageSelectMode global chatId None tabId) tabId)
   = None)
  ∧ (∀ messageId,
       selectionNonEmpty (enterMessageSelectMode global chatId messageId tabId) tabId)
  ∧ (∀ threadId type messageId groupedId childMessageIds withShift global',
       toggleMessageSelection global chatId threadId type messageId groupedId
         childMessageIds withShift tabId = Some global' →
       selectionNonEmpty global' tabId).

(** ** Example data *)

(** Values for the constants and helpers the reducers are embedded over:
    the main thread id and slice sizes of the client, no test mode, no
    local ids, no message groups, no translation store, and the thread of a
    message read off a [topicId] key. *)
Definition exampleThreadOf : GlobalState → JsObj → option Z :=
  λ _ message, toNumberKey (getProp message "topicId").

Definition exampleNoTtl : JsObj → bool := λ _, false.

Definition exampleNotLocal : Z → bool := λ _, false.

Definition exampleNoGroups : GlobalState → string → string → option (list Z) :=
  λ _ _ _, None.

Definition exampleCurrentIds
    : GlobalState → string → Z → MessageListType → Z → option (list Z) :=
  λ global chatId threadId _ tabId, selectViewportIds global chatId threadId tabId.

Definition exampleKeepTranslations : JsObj → string → Z → JsObj := λ o _ _, o.

Definition exampleMessage (id : Z) : JsObj := {[ "id" := JNum id ]}.

Definition exampleTopicMessage (id topicId : Z) : JsObj :=
  <["topicId" := JNum topicId]> (exampleMessage id).

Definition exampleText (id : Z) (text : string) : JsObj :=
  <["text" := JStr text]> (exampleMessage id).

(** Message 42, the copy of post 7 of channel "chan" in its discussion
    group. *)
Definition examplePost : JsObj :=
  <["forwardInfo" :=
      JObj (<["isLinkedChannelPost" := JBool true]>
              (<["fromChatId" := JStr "chan"]>
                 {[ "fromMessageId" := JNum 7 ]}))]>
    (exampleMessage 42).

Definition exampleThread (ids : list Z) : Thread :=
  {| th_listedIds := Some ids; th_outlyingLists := Some [ids];
     th_pinnedIds := Some ids; th_scheduledIds := Some ids;
     th_lastViewportIds := None; th_threadInfo := None; th_other := ∅ |}.

Definition exampleTab (current : MessageList) (viewportIds : list Z) : TabState :=
  {| tab_messageLists := [current];
     tab_tabThreads :=
       {[ ml_chatId current :=
            {[ ml_threadId current :=
                 {| tt_viewportIds := Some viewportIds; tt_other := ∅ |} ]} ]};
     tab_selectedMessages := None; tab_other := ∅ |}.

Definition emptyGlobal : GlobalState :=
  {| g_messages := ∅; g_scheduledMessages := ∅; g_byTabId := []; g_other := ∅ |}.

(** Chat "c" with messages 7 (of topic 5) and 8, listed in the main thread
    (-1); topic 5 lists 7, and thread 9 lists 8 although message 8 is not
    of that thread.  Tab 1 shows the main thread. *)
Definition exampleChat : GlobalState :=
  {| g_messages :=
       {[ "c" := {| byId := <[7 := exampleTopicMessage 7 5]>
                              {[ 8 := exampleMessage 8 ]};
                    threadsById := <[-1 := exampleThread [7; 8]]>
                                     (<[5 := exampleThread [7]]>
                                        {[ 9 := exampleThread [8] ]}) |} ]};
     g_scheduledMessages := ∅;
     g_byTabId :=
       [(1, exampleTab {| ml_chatId := "c"; ml_threadId := -1;
                          ml_type := ListThread |} [7; 8])];
     g_other := ∅ |}.

(** Chat "c" with one stored message. *)
Definition exampleTable : GlobalState :=
  {| g_messages :=
       {[ "c" := {| byId := {[ 1 := exampleText 1 "old" ]}; threadsById := ∅ |} ]};
     g_scheduledMessages := ∅; g_byTabId := []; g_other := ∅ |}.

(** The discussion group "c" holds [examplePost]; tab 1 shows the comments
    thread 42.  Channel "chan" has a thread entry for post 7; its message
    table holds the post or not. *)
Definition exampleDiscussion (originLoaded : bool) : GlobalState :=
  {| g_messages :=
       <["c" := {| byId := {[ 42 := examplePost ]}; threadsById := ∅ |}]>
         {[ "chan" :=
              {| byId := if originLoaded then {[ 7 := exampleMessage 7 ]} else ∅;
                 threadsById := {[ 7 := exampleThread [] ]} |} ]};
     g_scheduledMessages := ∅;
     g_byTabId :=
       [(1, exampleTab {| ml_chatId := "c"; ml_threadId := 42;
                          ml_type := ListThread |} [])];
     g_other := ∅ |}.

(** Chat "c" with scheduled message 3, scheduled in topic 5; the main thread
    has a [scheduledIds] list or not. *)
Definition exampleScheduled (mainListed : bool) : GlobalState :=
  {| g_messages :=
       {[ "c" := {| byId := ∅;
                    threadsById :=
                      if mainListed
                      then <[-1 := exampleThread [3]]> {[ 5 := exampleThread [3] ]}
                      else {[ 5 := exampleThread [3] ]} |} ]};
     g_scheduledMessages :=
       {[ "c" := {| sch_byId := {[ 3 := exampleMessage 3 ]}; sch_hash := Some 0 |} ]};
     g_byTabId := []; g_other := ∅ |}.

(** Thread 42 of chat "c" holds the comments info of a post; the info links
    it to thread 7 of chat "group". *)
Definition exampleCommentsInfo : ApiThreadInfo :=
  {| ti_isCommentsInfo := Some true; ti_chatId := Some "group";
     ti_threadId := Some 7; ti_fromChannelId := None; ti_fromMessageId := None;
     ti_messagesCount := Some 3; ti_lastMessageId := Some 30;
     ti_lastReadInboxMessageId := Some 20; ti_other := ∅ |}.

Definition exampleComments : GlobalState :=
  {| g_messages :=
       {[ "c" := {| byId := ∅;
                    threadsById :=
                      {[ 42 := {| th_listedIds := None; th_outlyingLists := None;
                                  th_pinnedIds := None; th_scheduledIds := None;
                                  th_lastViewportIds := None;
                                  th_threadInfo := Some exampleCommentsInfo;
                                  th_other := ∅ |} ]} |} ]};
     g_scheduledMessages := ∅; g_byTabId := []; g_other := ∅ |}.

Definition exampleCountUpdate : ThreadInfoUpdate :=
  {| tiu_isCommentsInfo := None; tiu_chatId := None; tiu_threadId := None;
     tiu_fromChannelId := None; tiu_fromMessageId := None;
     tiu_messagesCount := Some (Some 4); tiu_lastMessageId := None;
     tiu_lastReadInboxMessageId := None; tiu_other := ∅ |}.

(** Tab 1 with the selection [ids] in chat "c". *)
Definition exampleSelection (ids : list Z) : GlobalState :=
  {| g_messages := ∅; g_scheduledMessages := ∅;
     g_byTabId :=
       [(1, {| tab_messageLists := []; tab_tabThreads := ∅;
               tab_selectedMessages :=
                 Some {| sel_chatId := "c"; sel_messageIds := ids |};
               tab_other := ∅ |})];
     g_other := ∅ |}.

(** A batch for chat "c" of [exampleTable]: a new text for message 1, which
    the table holds, and message 2, which it does not hold. *)
Definition exampleBatch : gmap Z JsObj :=
  <[1 := exampleText 1 "new"]> {[ 2 := exampleMessage 2 ]}.

(** Tab 1 with the given viewport of the main thread of chat "c". *)
Definition exampleViewport (viewportIds : list Z) : GlobalState :=
  {| g_messages := ∅; g_scheduledMessages := ∅;
     g_byTabId :=
       [(1, exampleTab {| ml_chatId := "c"; ml_threadId := -1;
                          ml_type := ListThread |} viewportIds)];
     g_other := ∅ |}.

(** *** Notions for the properties of the other reducers *)

(** A step that leaves the scheduled messages and the selection of every
    tab as they are. *)
Record sameSelections (global global' : GlobalState) : Prop := {
  same_scheduledMessages : g_scheduledMessages global' = g_scheduledMessages global;
  same_selectedMessages : ∀ tabId,
    tab_selectedMessages (selectTabState global' tabId)
    = tab_selectedMessages (selectTabState global tabId);
}.

(** A viewport after the given ids are taken out of it: [excludeSortedArray]
    of it, and [undefined] when nothing is left, as the loop over the tabs of
    [deleteChatMessages] writes it. *)
Definition withoutIds (messageIds : list Z) (viewportIds : option (list Z))
    : option (list Z) :=
  viewportIds ≫= λ viewportIds,
    let newViewportIds := excludeSortedArray viewportIds messageIds in
    if bool_decide (newViewportIds = []) then None else Some newViewportIds.


#[global] Instance MessageList_eq_dec : EqDecision MessageList.
Proof. solve_decision. Defined.



(** The last message of the batch with the given chat id and id. *)
Definition lastOf (chatId : string) (id : Z) (messages : list JsObj)
    : option JsObj :=
  last (filter (λ message,
                  messageChatId message = chatId ∧ messageKey message = Some id)
               messages).

(** The own properties of the focused message of a tab. *)
Definition focusedMessage (global : GlobalState) (tabId : Z) : JsObj :=
  spreadVal (getProp (tab_other (selectTabState global tabId)) "focusedMessage").

(** *** More example states *)


(** A voice message with id 1, and chat "c" that stores it. *)
Definition exampleVoiceMessage : JsObj :=
  <["content" := JObj (<["text" := JStr "hello"]> {[ "voice" := JObj ∅ ]})]>
    (exampleMessage 1).

Definition exampleVoice : GlobalState :=
  {| g_messages :=
       {[ "c" := {| byId := {[ 1 := exampleVoiceMessage ]}; threadsById := ∅ |} ]};
     g_scheduledMessages := ∅; g_byTabId := []; g_other := ∅ |}.

Definition exampleAlwaysTtl : JsObj → bool := λ _, true.


Definition exampleChatMessage (chatId : string) (id : Z) (text : string)
    : JsObj :=
  <["chatId" := JStr chatId]> (exampleText id text).

(** Tab 1 shows the ids 10 to 14 of the main thread of chat "c"; message 12
    is selected. *)
Definition exampleRange : GlobalState :=
  {| g_messages := ∅; g_scheduledMessages := ∅;
     g_byTabId :=
       [(1, {| tab_messageLists := [];
               tab_tabThreads :=
                 {[ "c" := {[ -1 := {| tt_viewportIds := Some [10; 11; 12; 13; 14];
                                       tt_other := ∅ |} ]} ]};
               tab_selectedMessages :=
                 Some {| sel_chatId := "c"; sel_messageIds := [12] |};
               tab_other := ∅ |})];
     g_other := ∅ |}.

(** A batch for [exampleTable]: a new text for the stored message 1 of chat
    "c", two messages with id 2 for chat "c", and a message for chat "d". *)
Definition exampleMessages : list JsObj :=
  [exampleChatMessage "c" 1 "new"; exampleChatMessage "c" 2 "first";
   exampleChatMessage "c" 2 "second"; exampleChatMessage "d" 5 "other"].

(** * Properties *)

(** The properties are proved over any value of the constants and helpers
    of the section.  A proof that does not need them starts by dropping
    them, so that no tactic picks one up. *)
Ltac clear_unused := repeat match goal with x : _ |- _ => clear x end.

(** ** Association lists *)

Lemma alookup_aset_eq {V} (k : Z) (v : V) (l : list (Z * V)) :
  alookup k (aset k v l) = Some v.
Proof.
  induction l as [|[k' v'] l IH]; simpl.
  - by rewrite bool_decide_eq_true_2.
  - destruct (decide (k' = k)) as [->|Hne].
    + rewrite bool_decide_eq_true_2 by done. simpl.
      by rewrite bool_decide_eq_true_2.
    + rewrite bool_decide_eq_false_2 by done. simpl.
      by rewrite bool_decide_eq_false_2.
Qed.

Lemma alookup_aset_ne {V} (k k' : Z) (v : V) (l : list (Z * V)) :
  k ≠ k' → alookup k' (aset k v l) = alookup k' l.
Proof.
  intros Hne. induction l as [|[k0 v0] l IH]; simpl.
  - by rewrite bool_decide_eq_false_2.
  - destruct (decide (k0 = k)) as [->|Hne0].
    + rewrite bool_decide_eq_true_2 by done. simpl.
      by rewrite !bool_decide_eq_false_2.
    + rewrite (bool_decide_eq_false_2 (k0 = k)) by done. simpl.
      by rewrite IH.
Qed.

Lemma alookup_Some_elem {V} (k : Z) (v : V) (l : list (Z * V)) :
  alookup k l = Some v → (k, v) ∈ l.
Proof.
  induction l as [|[k0 v0] l IH]; simpl; [done|].
  case_bool_decide as Hk.
  - intros [= ->]. subst. apply list_elem_of_here.
  - intros H. apply list_elem_of_further. auto.
Qed.

Lemma alookup_is_Some {V} (k : Z) (l : list (Z * V)) :
  is_Some (alookup k l) ↔ k ∈ l.*1.
Proof. clear_unused.
  induction l as [|[k0 v0] l IH]; simpl.
  - split; [by intros [? ?]|by intros ?%not_elem_of_nil].
  - case_bool_decide as Hk.
    + subst. split; [intros _; apply list_elem_of_here|eauto].
    + rewrite IH. rewrite elem_of_cons. naive_solver.
Qed.

Lemma aset_keys_in {V} (k : Z) (v : V) (l : list (Z * V)) :
  k ∈ l.*1 → (aset k v l).*1 = l.*1.
Proof.
  induction l as [|[k0 v0] l IH]; csimpl.
  - by intros ?%not_elem_of_nil.
  - case_bool_decide as Hk; csimpl; [by subst|].
    rewrite elem_of_cons. intros [?|Hin]; [congruence|]. by rewrite IH.
Qed.

Lemma aset_keys_notin {V} (k : Z) (v : V) (l : list (Z * V)) :
  k ∉ l.*1 → (aset k v l).*1 = l.*1 ++ [k].
Proof.
  induction l as [|[k0 v0] l IH]; csimpl; [done|].
  rewrite not_elem_of_cons. intros [Hne Hnin].
  rewrite bool_decide_eq_false_2 by congruence. csimpl. by rewrite IH.
Qed.

Lemma elem_of_aset_keys {V} (k k' : Z) (v : V) (l : list (Z * V)) :
  k' ∈ (aset k v l).*1 ↔ k' = k ∨ k' ∈ l.*1.
Proof. clear_unused.
  destruct (decide (k ∈ l.*1)) as [Hin|Hnin].
  - rewrite aset_keys_in by done. naive_solver.
  - rewrite aset_keys_notin by done. rewrite elem_of_app, list_elem_of_singleton.
    naive_solver.
Qed.

Lemma elem_of_ownKeys {V} (k : Z) (l : list (Z * V)) :
  k ∈ ownKeys l ↔ k ∈ l.*1.
Proof. clear_unused.
  unfold ownKeys. rewrite elem_of_app, merge_sort_Permutation.
  rewrite !list_elem_of_filter. destruct (isArrayIndex k); naive_solver.
Qed.

Lemma elem_of_objectValues {V} (v : V) (l : list (Z * V)) :
  v ∈ objectValues l ↔ ∃ k, alookup k l = Some v.
Proof.
  unfold objectValues. rewrite list_elem_of_omap. split.
  - intros (k & _ & Hk). eauto.
  - intros (k & Hk). exists k. split; [|done].
    apply elem_of_ownKeys, alookup_is_Some. eauto.
Qed.

(** ** Reading a place of the tree after a write *)

Lemma selectTabState_updateTabState_eq global update tabId :
  selectTabState (updateTabState global update tabId) tabId
  = spreadTabState (selectTabState global tabId) update.
Proof. unfold selectTabState, updateTabState. simpl. by rewrite alookup_aset_eq. Qed.

Lemma selectTabState_updateTabState_ne global update tabId tabId' :
  tabId ≠ tabId' →
  selectTabState (updateTabState global update tabId) tabId'
  = selectTabState global tabId'.
Proof.
  intros Hne. unfold selectTabState, updateTabState. simpl.
  by rewrite alookup_aset_ne.
Qed.

Lemma tabIds_updateTabState global update tabId k :
  k ∈ tabIds (updateTabState global update tabId)
  ↔ k = tabId ∨ k ∈ tabIds global.
Proof.
  unfold tabIds, updateTabState. simpl.
  rewrite !elem_of_ownKeys. apply elem_of_aset_keys.
Qed.

Lemma selectThread_updateThread_eq global chatId threadId update :
  selectThread (updateThread global chatId threadId (Some update)) chatId threadId
  = Some (spreadThread (default emptyThread (selectThread global chatId threadId))
                       update).
Proof.
  unfold selectThread, updateThread, updateMessageStore. simpl.
  rewrite lookup_insert_eq. simpl. by rewrite lookup_insert_eq.
Qed.

Lemma selectThread_updateThread_ne global chatId threadId update chatId' threadId' :
  (chatId', threadId') ≠ (chatId, threadId) →
  selectThread (updateThread global chatId threadId update) chatId' threadId'
  = selectThread global chatId' threadId'.
Proof. clear_unused.
  intros Hne. unfold selectThread, updateThread, updateMessageStore.
  destruct (decide (chatId' = chatId)) as [->|Hc].
  - assert (threadId' ≠ threadId) as Ht by congruence.
    destruct update as [update|]; simpl; rewrite lookup_insert_eq; simpl.
    + rewrite lookup_insert_ne by done. by destruct (g_messages global !! chatId).
    + unfold omit. rewrite map_lookup_filter.
      destruct (g_messages global !! chatId) as [chat|]; simpl; [|done].
      destruct (threadsById chat !! threadId') as [thread|]; simpl; [|done].
      rewrite option_guard_True; [done|]. simpl. set_solver.
  - destruct update as [update|]; simpl; by rewrite lookup_insert_ne.
Qed.

Lemma selectThread_updateThread_None global chatId threadId :
  selectThread (updateThread global chatId threadId None) chatId threadId = None.
Proof. clear_unused.
  unfold selectThread, updateThread, updateMessageStore. simpl.
  rewrite lookup_insert_eq. simpl. unfold omit. rewrite map_lookup_filter.
  destruct (default ∅ (threadsById <$> g_messages global !! chatId) !! threadId)
    as [thread|]; simpl; [|done].
  rewrite option_guard_False; [done|]. simpl. set_solver.
Qed.

Lemma selectChatMessage_updateThread global chatId threadId update chatId' messageId :
  selectChatMessage (updateThread global chatId threadId update) chatId' messageId
  = selectChatMessage global chatId' messageId.
Proof.
  unfold selectChatMessage, selectChatMessages, updateThread, updateMessageStore.
  destruct (decide (chatId' = chatId)) as [->|Hc].
  - destruct update; simpl; rewrite lookup_insert_eq; simpl;
      by destruct (g_messages global !! chatId).
  - destruct update; simpl; by rewrite lookup_insert_ne.
Qed.

Lemma selectChatMessages_updateThread_Some global chatId threadId update chatId' byId :
  selectChatMessages global chatId' = Some byId →
  selectChatMessages (updateThread global chatId threadId update) chatId' = Some byId.
Proof.
  unfold selectChatMessages, updateThread, updateMessageStore.
  destruct (decide (chatId' = chatId)) as [->|Hc].
  - destruct update; simpl; rewrite lookup_insert_eq; simpl;
      by destruct (g_messages global !! chatId).
  - destruct update; simpl; by rewrite lookup_insert_ne.
Qed.

Lemma selectChatMessages_replaceChatMessages_eq global chatId newById :
  selectChatMessages (replaceChatMessages global chatId newById) chatId = Some newById.
Proof.
  unfold selectChatMessages, replaceChatMessages, updateMessageStore. simpl.
  by rewrite lookup_insert_eq.
Qed.

Lemma selectChatMessages_replaceChatMessages_ne global chatId newById chatId' :
  chatId ≠ chatId' →
  selectChatMessages (replaceChatMessages global chatId newById) chatId'
  = selectChatMessages global chatId'.
Proof.
  intros Hne. unfold selectChatMessages, replaceChatMessages, updateMessageStore.
  simpl. by rewrite lookup_insert_ne.
Qed.

Lemma selectThread_replaceChatMessages global chatId newById chatId' threadId :
  selectThread (replaceChatMessages global chatId newById) chatId' threadId
  = selectThread global chatId' threadId.
Proof.
  unfold selectThread, replaceChatMessages, updateMessageStore. simpl.
  destruct (decide (chatId = chatId')) as [->|Hc].
  - rewrite lookup_insert_eq. simpl. by destruct (g_messages global !! chatId').
  - by rewrite lookup_insert_ne.
Qed.

Lemma selectTabThread_updateTabThread_eq global chatId threadId update tabId :
  selectTabThread (updateTabThread global chatId threadId update tabId)
                  chatId threadId tabId
  = Some (spreadTabThread
            (default emptyTabThread (selectTabThread global chatId threadId tabId))
            update).
Proof.
  unfold selectTabThread, updateTabThread.
  rewrite selectTabState_updateTabState_eq. simpl.
  rewrite lookup_insert_eq. simpl. by rewrite lookup_insert_eq.
Qed.

Lemma selectTabThread_updateTabThread_ne global chatId threadId update tabId
    chatId' threadId' tabId' :
  (chatId', threadId', tabId') ≠ (chatId, threadId, tabId) →
  selectTabThread (updateTabThread global chatId threadId update tabId)
                  chatId' threadId' tabId'
  = selectTabThread global chatId' threadId' tabId'.
Proof.
  intros Hne. unfold selectTabThread, updateTabThread.
  destruct (decide (tabId = tabId')) as [<-|Ht].
  - rewrite selectTabState_updateTabState_eq. simpl.
    destruct (decide (chatId = chatId')) as [<-|Hc].
    + rewrite lookup_insert_eq. simpl.
      rewrite lookup_insert_ne by congruence.
      by destruct (tab_tabThreads (selectTabState global tabId) !! chatId).
    + by rewrite lookup_insert_ne.
  - by rewrite selectTabState_updateTabState_ne.
Qed.

(** ** The message table *)

Lemma byId_lookup_selectChatMessage global chatId messageId :
  default ∅ (selectChatMessages global chatId) !! messageId
  = selectChatMessage global chatId messageId.
Proof.
  unfold selectChatMessage. by destruct (selectChatMessages global chatId).
Qed.

Lemma selectChatMessage_replaceChatMessages_eq global chatId newById messageId :
  selectChatMessage (replaceChatMessages global chatId newById) chatId messageId
  = newById !! messageId.
Proof.
  unfold selectChatMessage. by rewrite selectChatMessages_replaceChatMessages_eq.
Qed.

Lemma addChatMessagesById_present global chatId newById byId :
  selectChatMessages global chatId = Some byId →
  (∀ id, is_Some (newById !! id) → is_Some (byId !! id)) →
  addChatMessagesById global chatId newById = global.
Proof.
  intros Hsel Hall. unfold addChatMessagesById. rewrite Hsel.
  rewrite (proj2 (forallb_forall _ _)); [done|].
  intros id Hin. apply bool_decide_eq_true_2, Hall.
  apply list_elem_of_In, list_elem_of_fmap in Hin as [[id' entry] [-> Hin]].
  apply elem_of_map_to_list in Hin. simpl. eauto.
Qed.

Lemma addChatMessagesById_cases global chatId newById :
  (addChatMessagesById global chatId newById = global
   ∧ ∃ byId, selectChatMessages global chatId = Some byId
             ∧ ∀ id, is_Some (newById !! id) → is_Some (byId !! id))
  ∨ addChatMessagesById global chatId newById
    = replaceChatMessages global chatId
        (default ∅ (selectChatMessages global chatId) ∪ newById).
Proof.
  unfold addChatMessagesById.
  destruct (selectChatMessages global chatId) as [byId|] eqn:Hsel; [|by right].
  destruct (forallb _ _) eqn:Hall; [left|by right].
  split; [done|]. exists byId. split; [done|]. intros id [entry Hentry].
  rewrite forallb_forall in Hall.
  specialize (Hall id). rewrite bool_decide_eq_true in Hall. apply Hall.
  apply list_elem_of_In, list_elem_of_fmap. exists (id, entry). split; [done|].
  by apply elem_of_map_to_list.
Qed.

(** C3: applying the same batch a second time changes nothing, and a batch
    whose ids are all in the chat's message table leaves the state as it
    is. *)
Theorem addChatMessagesById_idempotent :
  (∀ global chatId newById,
     addChatMessagesById (addChatMessagesById global chatId newById) chatId newById
     = addChatMessagesById global chatId newById)
  ∧ (∀ global chatId newById byId,
       selectChatMessages global chatId = Some byId →
       (∀ id, is_Some (newById !! id) → is_Some (byId !! id)) →
       addChatMessagesById global chatId newById = global).
Proof.
  split; [|apply addChatMessagesById_present].
  intros global chatId newById.
  destruct (addChatMessagesById_cases global chatId newById)
    as [[Heq _]|Heq]; rewrite Heq; [done|].
  eapply addChatMessagesById_present.
  - apply selectChatMessages_replaceChatMessages_eq.
  - intros id [entry Hentry].
    destruct (default ∅ (selectChatMessages global chatId) !! id) as [old|] eqn:Hold.
    + exists old. by apply lookup_union_Some_l.
    + exists entry. rewrite lookup_union_r; done.
Qed.

(** C2, as the code has it: an id of the batch that the chat's table already
    holds keeps its prior entity whole, and an id the table does not hold is
    stored as the batch entry. *)
Theorem addChatMessagesById_keeps_prior global chatId newById id entry :
  newById !! id = Some entry →
  selectChatMessage (addChatMessagesById global chatId newById) chatId id
  = Some (default entry (selectChatMessage global chatId id)).
Proof.
  intros Hentry.
  destruct (addChatMessagesById_cases global chatId newById)
    as [[Heq (byId & Hsel & Hall)]|Heq]; rewrite Heq.
  - unfold selectChatMessage. rewrite Hsel. simpl.
    destruct (Hall id) as [old Hold]; [eauto|]. by rewrite Hold.
  - rewrite selectChatMessage_replaceChatMessages_eq.
    rewrite <- byId_lookup_selectChatMessage.
    destruct (default ∅ (selectChatMessages global chatId) !! id) as [old|] eqn:Hold.
    + by apply lookup_union_Some_l.
    + rewrite lookup_union_r; done.
Qed.

Lemma getProp_mergeMessage_content message messageUpdate content k :
  k ≠ "content" →
  getProp (mergeMessage message (<["content" := content]> messageUpdate)) k
  = getProp (mergeMessage message messageUpdate) k.
Proof.
  intros Hk. unfold getProp, mergeMessage, objSpread.
  rewrite !lookup_union, lookup_insert_ne; done.
Qed.

Lemma expireMedia_id message messageUpdate messageUpdate' :
  expireMedia message messageUpdate = Some messageUpdate' →
  getProp (mergeMessage message messageUpdate') "id"
  = getProp (mergeMessage message messageUpdate) "id".
Proof.
  unfold expireMedia. destruct message as [message|]; [|by intros [= ->]].
  destruct (_ && _); [|by intros [= ->]].
  destruct (readProp _ _) as [voice|]; simpl; [|done].
  repeat case_match; intros [= <-]; try done;
    by apply getProp_mergeMessage_content.
Qed.

(** C9: when the merge of the stored message (if any) and the patch has no
    id, [updateChatMessage] and [updateScheduledMessage] give back the state
    they were given.  For [updateChatMessage] the media-expiry rule must get
    past its property reads. *)
Theorem update_without_id_is_noop global chatId messageId messageUpdate :
  (is_Some (expireMedia (selectChatMessage global chatId messageId) messageUpdate) →
   truthy (getProp (mergeMessage (selectChatMessage global chatId messageId)
                                 messageUpdate) "id") = false →
   updateChatMessage global chatId messageId messageUpdate = Some global)
  ∧ (truthy (getProp (mergeMessage (selectScheduledMessage global chatId messageId)
                                   messageUpdate) "id") = false →
     updateScheduledMessage global chatId messageId messageUpdate = global).
Proof.
  split.
  - intros [messageUpdate' Hexp] Hid. unfold updateChatMessage.
    rewrite byId_lookup_selectChatMessage, Hexp. simpl.
    by rewrite (expireMedia_id _ _ _ Hexp), Hid.
  - intros Hid. unfold updateScheduledMessage. by rewrite Hid.
Qed.

(** C10: with no entry under the message id, a patch with a truthy id is
    stored under that key as it is; the other entries of the chat stay. *)
Theorem updateChatMessage_inserts global chatId messageId messageUpdate :
  selectChatMessage global chatId messageId = None →
  truthy (getProp messageUpdate "id") = true →
  ∃ global',
    updateChatMessage global chatId messageId messageUpdate = Some global'
    ∧ selectChatMessage global' chatId messageId = Some messageUpdate
    ∧ (∀ messageId', messageId' ≠ messageId →
         selectChatMessage global' chatId messageId'
         = selectChatMessage global chatId messageId')
    ∧ global' ≠ global.
Proof.
  intros Hnone Hid. unfold updateChatMessage.
  rewrite byId_lookup_selectChatMessage, Hnone. simpl.
  unfold mergeMessage, objSpread. simpl. rewrite (right_id_L ∅ (∪)), Hid. simpl.
  eexists. split; [done|].
  assert (selectChatMessage
            (replaceChatMessages global chatId
               (<[messageId:=messageUpdate]> (default ∅ (selectChatMessages global chatId))))
            chatId messageId = Some messageUpdate) as Hnew.
  { rewrite selectChatMessage_replaceChatMessages_eq. apply lookup_insert_eq. }
  split; [done|]. split.
  - intros messageId' Hne. rewrite selectChatMessage_replaceChatMessages_eq.
    rewrite lookup_insert_ne by done. apply byId_lookup_selectChatMessage.
  - intros Heq. rewrite Heq in Hnew. congruence.
Qed.

(** ** The viewport window *)

Lemma selectTabState_updateThread global chatId threadId update tabId :
  selectTabState (updateThread global chatId threadId update) tabId
  = selectTabState global tabId.
Proof. by destruct update. Qed.

Lemma selectViewportIds_replaceTabThreadParam_eq global chatId threadId newValue tabId :
  selectViewportIds
    (replaceTabThreadParam global chatId threadId (TP_viewportIds newValue) tabId)
    chatId threadId tabId
  = newValue.
Proof.
  unfold selectViewportIds, replaceTabThreadParam.
  by rewrite selectTabThread_updateTabThread_eq.
Qed.

Lemma length_orderHistoryIds ids : length (orderHistoryIds ids) = length ids.
Proof. unfold orderHistoryIds. by rewrite merge_sort_Permutation. Qed.

Lemma jsSliceFrom_tail {A} (l : list A) (k : Z) :
  0 < k → k ≤ Z.of_nat (length l) →
  jsSliceFrom l (- k) = drop (length l - Z.to_nat k) l.
Proof.
  intros Hk Hlen. unfold jsSliceFrom, relIndex.
  destruct (Z.ltb_spec (- k) 0); [|lia]. f_equal. lia.
Qed.

(** C5: with a half slice of at least one id that is below the viewport
    limit, [addViewportId] leaves the state alone for an id that is in the
    viewport; for a new id the viewport afterwards has at most
    MESSAGE_LIST_VIEWPORT_LIMIT ids, and from a viewport at capacity it is
    made of the last MESSAGE_LIST_SLICE / 2 ids of the old one and the new
    id. *)
Theorem addViewportId_window global chatId threadId newId tabId :
  0 < MESSAGE_LIST_SLICE ÷ 2 →
  MESSAGE_LIST_SLICE ÷ 2 < MESSAGE_LIST_VIEWPORT_LIMIT →
  let viewportIds := default [] (selectViewportIds global chatId threadId tabId) in
  let global' := addViewportId global chatId threadId newId tabId in
  (newId ∈ viewportIds → global' = global)
  ∧ (newId ∉ viewportIds →
     ∃ newIds,
       selectViewportIds global' chatId threadId tabId = Some newIds
       ∧ Z.of_nat (length newIds) ≤ MESSAGE_LIST_VIEWPORT_LIMIT
       ∧ (MESSAGE_LIST_VIEWPORT_LIMIT ≤ Z.of_nat (length viewportIds) →
          let recent :=
            drop (length viewportIds - Z.to_nat (MESSAGE_LIST_SLICE ÷ 2))
                 viewportIds in
          Z.of_nat (length recent) = MESSAGE_LIST_SLICE ÷ 2
          ∧ newIds ≡ₚ recent ++ [newId])).
Proof.
  intros Hhalf Hlimit viewportIds global'. subst global'.
  unfold addViewportId. fold viewportIds. unfold includes. split.
  - intros Hin. by rewrite bool_decide_eq_true_2.
  - intros Hnin. rewrite bool_decide_eq_false_2 by done.
    eexists. split; [apply selectViewportIds_replaceTabThreadParam_eq|].
    rewrite length_orderHistoryIds, length_app. simpl.
    destruct (Z.ltb_spec (Z.of_nat (length viewportIds)) MESSAGE_LIST_VIEWPORT_LIMIT)
      as [Hlt|Hge].
    + split; [lia|]. intros ?. lia.
    + rewrite jsSliceFrom_tail by lia. rewrite length_drop.
      split; [lia|]. intros _. split; [lia|].
      unfold orderHistoryIds. apply merge_sort_Permutation.
Qed.

(** ** Selection *)

Lemma filter_none {A} (P : A → Prop) `{∀ x, Decision (P x)} (l : list A) :
  (∀ x, x ∈ l → ¬ P x) → filter P l = [].
Proof.
  intros Hall. destruct (filter P l) as [|x r] eqn:Hf; [done|].
  assert (x ∈ filter P l) as Hx by (rewrite Hf; apply list_elem_of_here).
  apply list_elem_of_filter in Hx as [HP Hin]. by destruct (Hall x Hin).
Qed.

Lemma selected_updateTabState global s tabId :
  tab_selectedMessages (selectTabState (updateTabState global (selection s) tabId) tabId)
  = Some s.
Proof. by rewrite selectTabState_updateTabState_eq. Qed.

Lemma selected_exitMessageSelectMode global tabId :
  tab_selectedMessages (selectTabState (exitMessageSelectMode global tabId) tabId)
  = None.
Proof.
  unfold exitMessageSelectMode. by rewrite selectTabState_updateTabState_eq.
Qed.

Lemma elem_of_unique id ids : id ∈ unique ids ↔ id ∈ ids.
Proof. unfold unique. by rewrite elem_of_reverse, elem_of_remove_dups, elem_of_reverse. Qed.

(** C8, as the code has it: [enterMessageSelectMode] always leaves a
    selection record with the ids it was given, an empty list for zero ids;
    [toggleMessageSelection] on a tab without a record enters with the
    toggled ids; on a tab with a record it leaves no record or one with a
    non-empty list, and it removes the record when the toggled ids are
    exactly the selected ones. *)
Theorem selection_record_after global chatId tabId :
  (∀ messageId,
     tab_selectedMessages
       (selectTabState (enterMessageSelectMode global chatId messageId tabId) tabId)
     = Some {| sel_chatId := chatId;
               sel_messageIds :=
                 match messageId with
                 | Some (inl n) => if bool_decide (n = 0) then [] else [n]
                 | Some (inr ids) => ids
                 | None => []
                 end |})
  ∧ (∀ threadId type messageId groupedId childMessageIds withShift,
       tab_selectedMessages (selectTabState global tabId) = None →
       ∃ global',
         toggleMessageSelection global chatId threadId type messageId groupedId
           childMessageIds withShift tabId = Some global'
         ∧ tab_selectedMessages (selectTabState global' tabId)
           = Some {| sel_chatId := chatId;
                     sel_messageIds :=
                       toggledIds global chatId messageId groupedId childMessageIds |})
  ∧ (∀ threadId type messageId groupedId childMessageIds withShift old global',
       tab_selectedMessages (selectTabState global tabId) = Some old →
       toggleMessageSelection global chatId threadId type messageId groupedId
         childMessageIds withShift tabId = Some global' →
       tab_selectedMessages (selectTabState global' tabId) = None
       ∨ ∃ s, tab_selectedMessages (selectTabState global' tabId) = Some s
              ∧ sel_messageIds s ≠ [])
  ∧ (∀ threadId type messageId groupedId childMessageIds withShift old,
       tab_selectedMessages (selectTabState global tabId) = Some old →
       (∀ id, id ∈ sel_messageIds old ↔
              id ∈ toggledIds global chatId messageId groupedId childMessageIds) →
       ∃ global',
         toggleMessageSelection global chatId threadId type messageId groupedId
           childMessageIds withShift tabId = Some global'
         ∧ tab_selectedMessages (selectTabState global' tabId) = None)
  ∧ (∀ threadId type messageId groupedId childMessageIds withShift,
       is_Some (selectCurrentMessageIds global chatId threadId type tabId)
       ∨ withShift = false →
       is_Some (toggleMessageSelection global chatId threadId type messageId
                  groupedId childMessageIds withShift tabId)).
Proof.
  split; [|split; [|split; [|split]]].
  - intros messageId. unfold enterMessageSelectMode.
    apply selected_updateTabState.
  - intros threadId type messageId groupedId childMessageIds withShift Hold.
    unfold toggleMessageSelection. rewrite Hold. eexists. split; [done|].
    unfold enterMessageSelectMode. apply selected_updateTabState.
  - intros threadId type messageId groupedId childMessageIds withShift old global'
      Hold. unfold toggleMessageSelection. rewrite Hold.
    fold (toggledIds global chatId messageId groupedId childMessageIds).
    set (ids := toggledIds _ _ _ _ _).
    match goal with
    | |- mbind _ ?o = _ → _ => destruct o as [newMessageIds|] eqn:Hnew
    end; simpl; [|done].
    destruct newMessageIds as [|id newMessageIds]; intros [= <-].
    + left. apply selected_exitMessageSelectMode.
    + right. eexists. split; [apply selected_updateTabState|done].
  - intros threadId type messageId groupedId childMessageIds withShift old Hold Hsame.
    unfold toggleMessageSelection. rewrite Hold.
    fold (toggledIds global chatId messageId groupedId childMessageIds).
    set (ids := toggledIds _ _ _ _ _) in *.
    assert (filter (λ id, includes (sel_messageIds old) id = false) ids = []) as ->.
    { apply filter_none. intros id Hid. unfold includes.
      rewrite bool_decide_eq_false. intros Hn. apply Hn. by apply Hsame. }
    simpl.
    assert (filter (λ id, includes ids id = false) (sel_messageIds old) = []) as ->.
    { apply filter_none. intros id Hid. unfold includes.
      rewrite bool_decide_eq_false. intros Hn. apply Hn. by apply Hsame. }
    eexists. split; [done|]. apply selected_exitMessageSelectMode.
  - intros threadId type messageId groupedId childMessageIds withShift Hok.
    unfold toggleMessageSelection.
    destruct (tab_selectedMessages (selectTabState global tabId)) as [old|]; [|done].
    destruct (filter _ _) as [|id0 ids0]; simpl.
    + by destruct (filter _ _).
    + destruct Hok as [[viewportIds ->]| ->]; simpl.
      * destruct withShift; [destruct (lastElem _)|]; simpl;
          by match goal with |- is_Some (match ?l with _ => _ end) => destruct l end.
      * by match goal with |- is_Some (match ?l with _ => _ end) => destruct l end.
Qed.

(** ** Thread info *)

Lemma updateThreadInfo_unfold global chatId threadId update doNotUpdateLinked :
  updateThreadInfo global chatId threadId update doNotUpdateLinked
  = updateThreadInfoBody updateThreadInfo global chatId threadId update
      doNotUpdateLinked.
Proof.
  unfold updateThreadInfo. destruct doNotUpdateLinked; [done|].
  unfold updateThreadInfoBody. simpl. by repeat case_match.
Qed.

Lemma updateThreadInfo_suppressed global chatId threadId update :
  updateThreadInfo global chatId threadId update true
  = replaceThreadParam global chatId threadId
      (P_threadInfo (Some (mergedThreadInfo global chatId threadId update))).
Proof. done. Qed.

Lemma updateThreadInfo_linked global chatId threadId update :
  updateThreadInfo global chatId threadId update false
  = let newThreadInfo := mergedThreadInfo global chatId threadId update in
    replaceThreadParam
      match linkedThread newThreadInfo with
      | Some (linkedChatId, linkedThreadId) =>
          updateThreadInfo global linkedChatId linkedThreadId
            (Some (pick newThreadInfo)) true
      | None => global
      end
      chatId threadId (P_threadInfo (Some newThreadInfo)).
Proof.
  rewrite updateThreadInfo_unfold. unfold updateThreadInfoBody, linkedThread.
  fold (mergedThreadInfo global chatId threadId update). simpl.
  by repeat case_match.
Qed.

Lemma selectThread_replaceThreadParam_threadInfo global chatId threadId info :
  selectThread (replaceThreadParam global chatId threadId (P_threadInfo (Some info)))
               chatId threadId
  = Some (withThreadInfo (default emptyThread (selectThread global chatId threadId))
                         info).
Proof.
  unfold replaceThreadParam. rewrite selectThread_updateThread_eq.
  unfold spreadThread, withThreadInfo, objSpread. simpl.
  by rewrite (left_id_L ∅ (∪)).
Qed.

Lemma g_byTabId_updateThread global chatId threadId update :
  g_byTabId (updateThread global chatId threadId update) = g_byTabId global.
Proof. by destruct update. Qed.

Lemma g_scheduledMessages_updateThread global chatId threadId update :
  g_scheduledMessages (updateThread global chatId threadId update)
  = g_scheduledMessages global.
Proof. by destruct update. Qed.

Lemma g_other_updateThread global chatId threadId update :
  g_other (updateThread global chatId threadId update) = g_other global.
Proof. by destruct update. Qed.

(** What [updateThreadInfo] leaves alone in every case: the messages, the
    tabs, the scheduled messages and the rest of the tree. *)
Lemma updateThreadInfo_frame global chatId threadId update doNotUpdateLinked :
  let global' := updateThreadInfo global chatId threadId update doNotUpdateLinked in
  (∀ c m, selectChatMessage global' c m = selectChatMessage global c m)
  ∧ g_byTabId global' = g_byTabId global
  ∧ g_scheduledMessages global' = g_scheduledMessages global
  ∧ g_other global' = g_other global.
Proof.
  destruct doNotUpdateLinked; cbv zeta.
  - rewrite updateThreadInfo_suppressed. unfold replaceThreadParam.
    split; [intros; apply selectChatMessage_updateThread|done].
  - rewrite updateThreadInfo_linked. cbv zeta.
    destruct (linkedThread _) as [[lc lt]|].
    + rewrite updateThreadInfo_suppressed. unfold replaceThreadParam.
      split; [|done]. intros. by rewrite !selectChatMessage_updateThread.
    + unfold replaceThreadParam.
      split; [intros; apply selectChatMessage_updateThread|done].
Qed.

(** C4: for an info that is linked to a thread, [updateThreadInfo] without
    [doNotUpdateLinked] gives the linked thread's info the [messagesCount],
    [lastMessageId] and [lastReadInboxMessageId] of the merged info; it
    changes the info of the thread and of the linked thread and no other
    thread.  With [doNotUpdateLinked] it changes the info of the thread
    only. *)
Theorem updateThreadInfo_cascade global chatId threadId update :
  let newThreadInfo := mergedThreadInfo global chatId threadId update in
  (∀ linkedChatId linkedThreadId,
     linkedThread newThreadInfo = Some (linkedChatId, linkedThreadId) →
     let global' := updateThreadInfo global chatId threadId update false in
     (∃ linkedInfo,
        selectThreadInfo global' linkedChatId linkedThreadId = Some linkedInfo
        ∧ ti_messagesCount linkedInfo = ti_messagesCount newThreadInfo
        ∧ ti_lastMessageId linkedInfo = ti_lastMessageId newThreadInfo
        ∧ ti_lastReadInboxMessageId linkedInfo
          = ti_lastReadInboxMessageId newThreadInfo)
     ∧ ((linkedChatId, linkedThreadId) ≠ (chatId, threadId) →
        selectThread global' linkedChatId linkedThreadId
        = Some (withThreadInfo
                  (default emptyThread
                     (selectThread global linkedChatId linkedThreadId))
                  (spreadThreadInfo
                     (default emptyThreadInfo
                        (selectThreadInfo global linkedChatId linkedThreadId))
                     (pick newThreadInfo))))
     ∧ selectThread global' chatId threadId
       = Some (withThreadInfo
                 (default emptyThread (selectThread global chatId threadId))
                 newThreadInfo)
     ∧ (∀ chatId' threadId',
          (chatId', threadId') ≠ (chatId, threadId) →
          (chatId', threadId') ≠ (linkedChatId, linkedThreadId) →
          selectThread global' chatId' threadId'
          = selectThread global chatId' threadId'))
  ∧ (let global' := updateThreadInfo global chatId threadId update true in
     selectThread global' chatId threadId
     = Some (withThreadInfo
               (default emptyThread (selectThread global chatId threadId))
               newThreadInfo)
     ∧ (∀ chatId' threadId',
          (chatId', threadId') ≠ (chatId, threadId) →
          selectThread global' chatId' threadId'
          = selectThread global chatId' threadId'))
  ∧ (∀ doNotUpdateLinked,
       let global' :=
         updateThreadInfo global chatId threadId update doNotUpdateLinked in
       (∀ c m, selectChatMessage global' c m = selectChatMessage global c m)
       ∧ g_byTabId global' = g_byTabId global
       ∧ g_scheduledMessages global' = g_scheduledMessages global
       ∧ g_other global' = g_other global).
Proof.
  intros newThreadInfo. split; [|split].
  - intros lc lt Hlinked global'. subst global'.
    rewrite updateThreadInfo_linked. cbv zeta. fold newThreadInfo. rewrite Hlinked.
    rewrite updateThreadInfo_suppressed.
    set (linkedInfo := mergedThreadInfo global lc lt (Some (pick newThreadInfo))).
    set (global1 := replaceThreadParam global lc lt (P_threadInfo (Some linkedInfo))).
    assert (selectThread global1 lc lt
            = Some (withThreadInfo (default emptyThread (selectThread global lc lt))
                                   linkedInfo)) as Hlinked1
      by apply selectThread_replaceThreadParam_threadInfo.
    destruct (decide ((lc, lt) = (chatId, threadId))) as [Heq|Hne].
    + injection Heq as -> ->.
      assert (selectThread
                (replaceThreadParam global1 chatId threadId
                   (P_threadInfo (Some newThreadInfo))) chatId threadId
              = Some (withThreadInfo
                        (default emptyThread (selectThread global chatId threadId))
                        newThreadInfo)) as Hlocal.
      { rewrite selectThread_replaceThreadParam_threadInfo, Hlinked1. done. }
      split; [|split; [done|split; [done|]]].
      * exists newThreadInfo. unfold selectThreadInfo. by rewrite Hlocal.
      * intros c' t' Hne _. unfold replaceThreadParam, global1, replaceThreadParam.
        by rewrite !selectThread_updateThread_ne.
    + assert (selectThread
                (replaceThreadParam global1 chatId threadId
                   (P_threadInfo (Some newThreadInfo))) lc lt
              = Some (withThreadInfo (default emptyThread (selectThread global lc lt))
                                     linkedInfo)) as Hlinked2.
      { unfold replaceThreadParam at 1.
        by rewrite selectThread_updateThread_ne. }
      split; [|split; [done|split]].
      * exists linkedInfo. unfold selectThreadInfo at 1. rewrite Hlinked2. done.
      * rewrite selectThread_replaceThreadParam_threadInfo. do 2 f_equal.
        unfold global1, replaceThreadParam.
        rewrite selectThread_updateThread_ne; [done|congruence].
      * intros c' t' Hne1 Hne2. unfold replaceThreadParam, global1, replaceThreadParam.
        by rewrite !selectThread_updateThread_ne.
  - cbv zeta. rewrite updateThreadInfo_suppressed. fold newThreadInfo. split.
    + apply selectThread_replaceThreadParam_threadInfo.
    + intros c' t' Hne. unfold replaceThreadParam.
      by rewrite selectThread_updateThread_ne.
  - intros d. apply updateThreadInfo_frame.
Qed.

(** ** Deleting scheduled messages *)

Lemma filter_all {A} (P : A → Prop) `{∀ x, Decision (P x)} (l : list A) :
  (∀ x, x ∈ l → P x) → filter P l = l.
Proof.
  induction l as [|x l IH]; [done|]. intros Hall.
  rewrite filter_cons_True by (apply Hall, list_elem_of_here).
  f_equal. apply IH. intros y Hy. apply Hall. by apply list_elem_of_further.
Qed.

Lemma remove_each_filter (messageIds scheduledIds : list Z) :
  foldl (λ scheduledIds messageId,
           if includes scheduledIds messageId
           then filter (λ id, id ≠ messageId) scheduledIds
           else scheduledIds)
        scheduledIds messageIds
  = filter (λ id, id ∉ messageIds) scheduledIds.
Proof. clear_unused.
  revert scheduledIds.
  induction messageIds as [|messageId messageIds IH]; intros scheduledIds; simpl.
  - symmetry. apply filter_all. intros x _. apply not_elem_of_nil.
  - rewrite IH.
    assert ((if includes scheduledIds messageId
             then filter (λ id, id ≠ messageId) scheduledIds
             else scheduledIds)
            = filter (λ id, id ≠ messageId) scheduledIds) as ->.
    { unfold includes. case_bool_decide as Hin; [done|].
      symmetry. apply filter_all. intros x Hx ->. done. }
    rewrite list_filter_filter. apply list_filter_iff.
    intros id. rewrite not_elem_of_cons. tauto.
Qed.

Lemma filter_includes_false (messageIds ids : list Z) :
  filter (λ id, includes messageIds id = false) ids
  = filter (λ id, id ∉ messageIds) ids.
Proof.
  apply list_filter_iff. intros id. unfold includes.
  by rewrite bool_decide_eq_false.
Qed.

Lemma spreadThread_scheduledIds thread ids :
  spreadThread thread (threadParam (P_scheduledIds (Some ids)))
  = withScheduledIds thread ids.
Proof.
  unfold spreadThread, withScheduledIds, objSpread. simpl.
  by rewrite (left_id_L ∅ (∪)).
Qed.

Lemma deleteScheduledFromThread_eq global chatId messageIds threadId thread :
  selectThread global chatId threadId = Some thread →
  selectThread (deleteScheduledFromThread chatId messageIds global (threadId, thread))
               chatId threadId
  = Some (stripScheduled messageIds thread).
Proof.
  intros Hsel. unfold deleteScheduledFromThread, stripScheduled. simpl.
  destruct (th_scheduledIds thread) as [ids|]; [|done].
  unfold replaceThreadParam. rewrite selectThread_updateThread_eq, Hsel.
  cbn [default]. by rewrite spreadThread_scheduledIds, filter_includes_false.
Qed.

Lemma deleteScheduledFromThread_ne global chatId messageIds entry chatId' threadId' :
  (chatId', threadId') ≠ (chatId, entry.1) →
  selectThread (deleteScheduledFromThread chatId messageIds global entry)
               chatId' threadId'
  = selectThread global chatId' threadId'.
Proof.
  intros Hne. unfold deleteScheduledFromThread.
  destruct (th_scheduledIds entry.2); [|done].
  unfold replaceThreadParam. by rewrite selectThread_updateThread_ne.
Qed.

Lemma deleteScheduledFromThread_frame global chatId messageIds entry :
  let global' := deleteScheduledFromThread chatId messageIds global entry in
  g_byTabId global' = g_byTabId global
  ∧ g_scheduledMessages global' = g_scheduledMessages global
  ∧ g_other global' = g_other global.
Proof.
  unfold deleteScheduledFromThread. by destruct (th_scheduledIds entry.2).
Qed.

Lemma deleteScheduledFromThreads global chatId messageIds
    (entries : list (Z * Thread)) :
  NoDup entries.*1 →
  (∀ threadId thread,
     (threadId, thread) ∈ entries →
     selectThread global chatId threadId = Some thread) →
  let global' := foldl (deleteScheduledFromThread chatId messageIds) global entries in
  (∀ threadId,
     selectThread global' chatId threadId
     = if decide (threadId ∈ entries.*1)
       then stripScheduled messageIds <$> selectThread global chatId threadId
       else selectThread global chatId threadId)
  ∧ (∀ chatId' threadId,
       chatId' ≠ chatId →
       selectThread global' chatId' threadId = selectThread global chatId' threadId)
  ∧ g_byTabId global' = g_byTabId global
  ∧ g_scheduledMessages global' = g_scheduledMessages global
  ∧ g_other global' = g_other global.
Proof.
  revert global.
  induction entries as [|[threadId0 thread0] entries IH]; intros global Hnodup Hsel.
  - cbv zeta. csimpl. split; [|done]. by intros threadId.
  - csimpl in Hnodup. apply NoDup_cons in Hnodup as [Hnotin Hnodup].
    set (global0 :=
           deleteScheduledFromThread chatId messageIds global (threadId0, thread0)).
    assert (selectThread global chatId threadId0 = Some thread0) as Hsel0
      by apply Hsel, list_elem_of_here.
    destruct (IH global0 Hnodup) as (Hthreads & Hchats & Htabs & Hsched & Hother).
    { intros threadId thread Hin.
      unfold global0. rewrite deleteScheduledFromThread_ne.
      - apply Hsel. by apply list_elem_of_further.
      - simpl. intros [= ->]. apply Hnotin.
        apply list_elem_of_fmap. by exists (threadId0, thread).  }
    destruct (deleteScheduledFromThread_frame global chatId messageIds
                (threadId0, thread0)) as (Htabs0 & Hsched0 & Hother0).
    simpl. fold global0. split; [|split; [|split; [|split]]].
    + intros threadId. rewrite Hthreads. csimpl.
      destruct (decide (threadId = threadId0)) as [->|Hne].
      * rewrite decide_False by done. rewrite decide_True by apply list_elem_of_here.
        unfold global0. rewrite (deleteScheduledFromThread_eq _ _ _ _ _ Hsel0).
        by rewrite Hsel0.
      * unfold global0 at 1 2.
        rewrite deleteScheduledFromThread_ne by (simpl; congruence).
        destruct (decide (threadId ∈ entries.*1)) as [Hin|Hnin].
        -- by rewrite decide_True by (by apply list_elem_of_further).
        -- rewrite decide_False; [done|]. rewrite not_elem_of_cons. done.
    + intros chatId' threadId Hne. rewrite Hchats by done.
      unfold global0. apply deleteScheduledFromThread_ne. simpl. congruence.
    + by rewrite Htabs.
    + by rewrite Hsched.
    + by rewrite Hother.
Qed.

Lemma threads_lookup_selectThread global chatId threadId :
  default ∅ (threadsById <$> g_messages global !! chatId) !! threadId
  = selectThread global chatId threadId.
Proof. unfold selectThread. by destruct (g_messages global !! chatId). Qed.

Lemma th_scheduledIds_stripScheduled messageIds thread :
  th_scheduledIds (stripScheduled messageIds thread)
  = filter (λ id, id ∉ messageIds) <$> th_scheduledIds thread.
Proof. unfold stripScheduled. by destruct (th_scheduledIds thread) eqn:E; simpl; rewrite ?E. Qed.

Lemma th_threadInfo_stripScheduled messageIds thread :
  th_threadInfo (stripScheduled messageIds thread) = th_threadInfo thread.
Proof. unfold stripScheduled. by destruct (th_scheduledIds thread). Qed.

(** The threads of the chat after the two loops of
    [deleteChatScheduledMessages], when the main thread has a [scheduledIds]
    list. *)
Lemma deleteScheduled_threads global chatId messageIds scheduledIds :
  selectScheduledIds global chatId MAIN_THREAD_ID = Some scheduledIds →
  let global1 :=
    replaceThreadParam global chatId MAIN_THREAD_ID
      (P_scheduledIds (Some (filter (λ id, id ∉ messageIds) scheduledIds))) in
  let global2 :=
    foldl (deleteScheduledFromThread chatId messageIds) global1
          (map_to_list (default ∅ (threadsById <$> g_messages global1 !! chatId))) in
  (∀ threadId,
     selectScheduledIds global2 chatId threadId
     = filter (λ id, id ∉ messageIds) <$> selectScheduledIds global chatId threadId)
  ∧ (∀ chatId' threadId,
       selectThreadInfo global2 chatId' threadId
       = selectThreadInfo global chatId' threadId)
  ∧ g_byTabId global2 = g_byTabId global
  ∧ g_scheduledMessages global2 = g_scheduledMessages global
  ∧ g_other global2 = g_other global.
Proof. clear_unused.
  intros Hmain global1 global2.
  unfold selectScheduledIds in Hmain.
  destruct (selectThread global chatId MAIN_THREAD_ID) as [main|] eqn:Hthread;
    [|done]. simpl in Hmain.
  assert (selectThread global1 chatId MAIN_THREAD_ID
          = Some (withScheduledIds main
                    (filter (λ id, id ∉ messageIds) scheduledIds))) as Hmain1.
  { unfold global1, replaceThreadParam.
    rewrite selectThread_updateThread_eq, Hthread. cbn [default].
    by rewrite spreadThread_scheduledIds. }
  assert (∀ chatId' threadId,
            (chatId', threadId) ≠ (chatId, MAIN_THREAD_ID) →
            selectThread global1 chatId' threadId
            = selectThread global chatId' threadId) as Hother1.
  { intros chatId' threadId Hne. unfold global1, replaceThreadParam.
    by rewrite selectThread_updateThread_ne. }
  destruct (deleteScheduledFromThreads global1 chatId messageIds
              (map_to_list (default ∅ (threadsById <$> g_messages global1 !! chatId))))
    as (Hthreads & Hchats & Htabs & Hsched & Hrest).
  { apply NoDup_fst_map_to_list. }
  { intros threadId thread Hin. apply elem_of_map_to_list in Hin.
    by rewrite threads_lookup_selectThread in Hin. }
  fold global2 in Hthreads, Hchats, Htabs, Hsched, Hrest.
  assert (∀ threadId,
            selectThread global2 chatId threadId
            = stripScheduled messageIds <$> selectThread global1 chatId threadId)
    as Hthreads'.
  { intros threadId. rewrite Hthreads. case_decide as Hin; [done|].
    destruct (selectThread global1 chatId threadId) as [thread|] eqn:Hsel; [|done].
    destruct Hin. apply list_elem_of_fmap. exists (threadId, thread).
    split; [done|]. apply elem_of_map_to_list.
    by rewrite threads_lookup_selectThread. }
  split; [|split; [|done]].
  - intros threadId. unfold selectScheduledIds. rewrite Hthreads'.
    destruct (decide (threadId = MAIN_THREAD_ID)) as [->|Hne].
    + rewrite Hmain1, Hthread. simpl.
      rewrite ?th_scheduledIds_stripScheduled, Hmain. simpl. f_equal.
      rewrite list_filter_filter. apply list_filter_iff. tauto.
    + rewrite Hother1 by congruence.
      destruct (selectThread global chatId threadId) as [thread|]; [|done].
      simpl. apply th_scheduledIds_stripScheduled.
  - intros chatId' threadId. unfold selectThreadInfo.
    destruct (decide (chatId' = chatId)) as [->|Hc].
    + rewrite Hthreads'.
      destruct (decide (threadId = MAIN_THREAD_ID)) as [->|Hne].
      * rewrite Hmain1, Hthread. simpl. by rewrite ?th_threadInfo_stripScheduled.
      * rewrite Hother1 by congruence.
        destruct (selectThread global chatId threadId) as [thread|]; [|done].
        simpl. apply th_threadInfo_stripScheduled.
    + rewrite Hchats by done. rewrite Hother1 by congruence. done.
Qed.

(** Without a [scheduledIds] list of the main thread the reducer does not
    look at the threads. *)
Lemma deleteChatScheduledMessages_unlisted global chatId messageIds :
  selectScheduledIds global chatId MAIN_THREAD_ID = None →
  g_messages (deleteChatScheduledMessages global chatId messageIds)
  = g_messages global.
Proof.
  intros Hmain. unfold deleteChatScheduledMessages.
  destruct (selectChatScheduledMessages global chatId); [|done].
  by rewrite Hmain.
Qed.

(** C7, as the code has it: the scheduled table loses the given ids; when
    the main thread has a [scheduledIds] list, every thread of the chat
    loses the given ids from its [scheduledIds].  Tabs and thread infos are
    not touched. *)
Theorem deleteChatScheduledMessages_strips global chatId messageIds byId :
  selectChatScheduledMessages global chatId = Some byId →
  let global' := deleteChatScheduledMessages global chatId messageIds in
  selectChatScheduledMessages global' chatId = Some (omit byId messageIds)
  ∧ (∀ id, id ∈ messageIds → selectScheduledMessage global' chatId id = None)
  ∧ (is_Some (selectScheduledIds global chatId MAIN_THREAD_ID) →
     ∀ threadId,
       selectScheduledIds global' chatId threadId
       = filter (λ id, id ∉ messageIds) <$> selectScheduledIds global chatId threadId)
  ∧ g_byTabId global' = g_byTabId global
  ∧ (∀ chatId' threadId,
       selectThreadInfo global' chatId' threadId
       = selectThreadInfo global chatId' threadId).
Proof. clear_unused.
  intros Hsel global'. subst global'. unfold deleteChatScheduledMessages.
  rewrite Hsel.
  assert (∀ global2,
            selectChatScheduledMessages
              (set_scheduledMessages global2
                 (<[chatId := {| sch_byId := omit byId messageIds; sch_hash := None |}]>
                    (g_scheduledMessages global2))) chatId
            = Some (omit byId messageIds)) as Htable.
  { intros global2. unfold selectChatScheduledMessages. simpl.
    by rewrite lookup_insert_eq. }
  split; [apply Htable|]. split.
  { intros id Hid. unfold selectScheduledMessage. rewrite Htable. simpl.
    unfold omit. apply map_lookup_filter_None. right. intros message _. simpl.
    tauto. }
  destruct (selectScheduledIds global chatId MAIN_THREAD_ID) as [scheduledIds|]
    eqn:Hmain.
  - rewrite remove_each_filter.
    destruct (deleteScheduled_threads global chatId messageIds scheduledIds Hmain)
      as (Hids & Hinfo & Htabs & _).
    split; [intros _; apply Hids|]. split; [apply Htabs|apply Hinfo].
  - split; [by intros [? ?]|done].
Qed.

(** ** Deleting messages *)

(** *** Steps that shrink or keep the indices *)

Lemma optSubset_refl o : optSubset o o.
Proof. intros l ->. by exists l. Qed.

Lemma optSubset_trans a b c : optSubset a b → optSubset b c → optSubset a c.
Proof. clear_unused.
  intros Hab Hbc l Hc. destruct (Hbc l Hc) as (lb & Hb & Hsub).
  destruct (Hab lb Hb) as (la & Ha & Hsub'). exists la. split; [done|set_solver].
Qed.

Lemma optSubsets_refl o : optSubsets o o.
Proof. intros ls l -> Hl. by exists ls, l. Qed.

Lemma optSubsets_trans a b c : optSubsets a b → optSubsets b c → optSubsets a c.
Proof. clear_unused.
  intros Hab Hbc ls l Hc Hl. destruct (Hbc ls l Hc Hl) as (lsb & lb & Hb & Hlb & Hsub).
  destruct (Hab lsb lb Hb Hlb) as (lsa & la & Ha & Hla & Hsub').
  exists lsa, la. split; [done|]. split; [done|set_solver].
Qed.

Lemma avoids_optSubset ids old new :
  optSubset old new → avoids ids old → avoids ids new.
Proof.
  intros Hsub Hold l Hl id Hid Hin. destruct (Hsub l Hl) as (l0 & Hl0 & Hincl).
  eapply Hold; [done|done|]. by apply Hincl.
Qed.

Lemma allAvoid_optSubsets ids old new :
  optSubsets old new → allAvoid ids old → allAvoid ids new.
Proof.
  intros Hsub Hold ls l Hls Hl id Hid Hin.
  destruct (Hsub ls l Hls Hl) as (ls0 & l0 & Hls0 & Hl0 & Hincl).
  eapply Hold; [done|done|done|]. by apply Hincl.
Qed.

#[local] Instance shrinks_refl : Reflexive shrinks.
Proof.
  intros g. split; intros; apply optSubset_refl || apply optSubsets_refl.
Qed.

#[local] Instance shrinks_trans : Transitive shrinks.
Proof.
  intros g1 g2 g3 [] []. split; intros;
    eauto using optSubset_trans, optSubsets_trans.
Qed.

#[local] Instance sameIndex_refl : Reflexive sameIndex.
Proof. by intros g. Qed.

#[local] Instance sameIndex_trans : Transitive sameIndex.
Proof. intros g1 g2 g3 [] []. split; intros; congruence. Qed.

#[local] Instance stable_refl : Reflexive stable.
Proof. by intros g. Qed.

#[local] Instance stable_trans : Transitive stable.
Proof.
  intros g1 g2 g3 [H1 H2 H3] [H1' H2' H3']. split; intros.
  - by rewrite H1', H1.
  - by rewrite H2', H2.
  - by rewrite H3', H3.
Qed.

Lemma sameIndex_shrinks global global' : sameIndex global global' → shrinks global global'.
Proof.
  intros [H1 H2 H3 H4]. split; intros.
  - rewrite H1. apply optSubset_refl.
  - rewrite H2. apply optSubsets_refl.
  - rewrite H3. apply optSubset_refl.
  - rewrite H4. apply optSubset_refl.
Qed.

Lemma threadListsAvoid_shrinks global global' chatId threadId ids :
  shrinks global global' →
  threadListsAvoid global chatId threadId ids →
  threadListsAvoid global' chatId threadId ids.
Proof.
  intros [H1 H2 H3 _] (Hl & Ho & Hp). split; [|split].
  - eapply avoids_optSubset; [apply H1|done].
  - eapply allAvoid_optSubsets; [apply H2|done].
  - eapply avoids_optSubset; [apply H3|done].
Qed.

Lemma viewportsAvoid_shrinks global global' chatId threadId ids :
  shrinks global global' →
  viewportsAvoid global chatId threadId ids →
  viewportsAvoid global' chatId threadId ids.
Proof.
  intros [_ _ _ H4] Hv tabId. eapply avoids_optSubset; [apply H4|apply Hv].
Qed.

Lemma selectThread_replaceThreadParam_eq global chatId threadId param :
  selectThread (replaceThreadParam global chatId threadId param) chatId threadId
  = Some (spreadThread (default emptyThread (selectThread global chatId threadId))
                       (threadParam param)).
Proof. apply selectThread_updateThread_eq. Qed.

Lemma selectThread_replaceThreadParam_ne global chatId threadId param chatId' threadId' :
  (chatId', threadId') ≠ (chatId, threadId) →
  selectThread (replaceThreadParam global chatId threadId param) chatId' threadId'
  = selectThread global chatId' threadId'.
Proof. apply selectThread_updateThread_ne. Qed.

Lemma selectListedIds_replaceThreadParam global chatId threadId param :
  selectListedIds (replaceThreadParam global chatId threadId param) chatId threadId
  = match param with
    | P_listedIds v => v
    | _ => selectListedIds global chatId threadId
    end.
Proof.
  unfold selectListedIds. rewrite selectThread_replaceThreadParam_eq.
  by destruct param, (selectThread global chatId threadId).
Qed.

Lemma selectOutlyingLists_replaceThreadParam global chatId threadId param :
  selectOutlyingLists (replaceThreadParam global chatId threadId param) chatId threadId
  = match param with
    | P_outlyingLists v => v
    | _ => selectOutlyingLists global chatId threadId
    end.
Proof.
  unfold selectOutlyingLists. rewrite selectThread_replaceThreadParam_eq.
  by destruct param, (selectThread global chatId threadId).
Qed.

Lemma selectPinnedIds_replaceThreadParam global chatId threadId param :
  selectPinnedIds (replaceThreadParam global chatId threadId param) chatId threadId
  = match param with
    | P_pinnedIds v => v
    | _ => selectPinnedIds global chatId threadId
    end.
Proof.
  unfold selectPinnedIds. rewrite selectThread_replaceThreadParam_eq.
  by destruct param, (selectThread global chatId threadId).
Qed.


Lemma selectViewportIds_replaceThreadParam global chatId threadId param c t tabId :
  selectViewportIds (replaceThreadParam global chatId threadId param) c t tabId
  = selectViewportIds global c t tabId.
Proof. done. Qed.

Lemma stable_updateThread global chatId threadId update :
  stable global (updateThread global chatId threadId update).
Proof.
  split; intros.
  - apply selectChatMessage_updateThread.
  - by rewrite selectTabState_updateThread.
  - unfold tabIds. by rewrite g_byTabId_updateThread.
Qed.

Lemma stable_replaceThreadParam global chatId threadId param :
  stable global (replaceThreadParam global chatId threadId param).
Proof. apply stable_updateThread. Qed.

(** Writing a key of a thread changes the id lists of that thread only, and
    those as the key says. *)
Lemma shrinks_replaceThreadParam global chatId threadId param :
  match param with
  | P_listedIds v => optSubset (selectListedIds global chatId threadId) v
  | P_outlyingLists v => optSubsets (selectOutlyingLists global chatId threadId) v
  | P_pinnedIds v => optSubset (selectPinnedIds global chatId threadId) v
  | _ => True
  end →
  shrinks global (replaceThreadParam global chatId threadId param).
Proof.
  intros Hparam. split; intros c t; try (intros tabId; apply optSubset_refl).
  - destruct (decide ((c, t) = (chatId, threadId))) as [[= -> ->]|Hne].
    + rewrite selectListedIds_replaceThreadParam.
      destruct param; done || apply optSubset_refl.
    + unfold selectListedIds. rewrite selectThread_replaceThreadParam_ne by done.
      apply optSubset_refl.
  - destruct (decide ((c, t) = (chatId, threadId))) as [[= -> ->]|Hne].
    + rewrite selectOutlyingLists_replaceThreadParam.
      destruct param; done || apply optSubsets_refl.
    + unfold selectOutlyingLists. rewrite selectThread_replaceThreadParam_ne by done.
      apply optSubsets_refl.
  - destruct (decide ((c, t) = (chatId, threadId))) as [[= -> ->]|Hne].
    + rewrite selectPinnedIds_replaceThreadParam.
      destruct param; done || apply optSubset_refl.
    + unfold selectPinnedIds. rewrite selectThread_replaceThreadParam_ne by done.
      apply optSubset_refl.
Qed.

Lemma sameIndex_replaceThreadParam global chatId threadId param :
  match param with
  | P_listedIds _ | P_outlyingLists _ | P_pinnedIds _ => False
  | _ => True
  end →
  sameIndex global (replaceThreadParam global chatId threadId param).
Proof.
  intros Hparam. split; intros c t; try done.
  - destruct (decide ((c, t) = (chatId, threadId))) as [[= -> ->]|Hne].
    + rewrite selectListedIds_replaceThreadParam. by destruct param.
    + unfold selectListedIds. by rewrite selectThread_replaceThreadParam_ne.
  - destruct (decide ((c, t) = (chatId, threadId))) as [[= -> ->]|Hne].
    + rewrite selectOutlyingLists_replaceThreadParam. by destruct param.
    + unfold selectOutlyingLists. by rewrite selectThread_replaceThreadParam_ne.
  - destruct (decide ((c, t) = (chatId, threadId))) as [[= -> ->]|Hne].
    + rewrite selectPinnedIds_replaceThreadParam. by destruct param.
    + unfold selectPinnedIds. by rewrite selectThread_replaceThreadParam_ne.
Qed.

Lemma shrinks_updateThread_None global chatId threadId :
  shrinks global (updateThread global chatId threadId None).
Proof.
  split; intros c t; try (intros tabId; apply optSubset_refl).
  - destruct (decide ((c, t) = (chatId, threadId))) as [[= -> ->]|Hne].
    + unfold selectListedIds at 2. rewrite selectThread_updateThread_None.
      by intros l.
    + unfold selectListedIds. rewrite selectThread_updateThread_ne by done.
      apply optSubset_refl.
  - destruct (decide ((c, t) = (chatId, threadId))) as [[= -> ->]|Hne].
    + unfold selectOutlyingLists at 2. rewrite selectThread_updateThread_None.
      by intros ls l.
    + unfold selectOutlyingLists. rewrite selectThread_updateThread_ne by done.
      apply optSubsets_refl.
  - destruct (decide ((c, t) = (chatId, threadId))) as [[= -> ->]|Hne].
    + unfold selectPinnedIds at 2. rewrite selectThread_updateThread_None.
      by intros l.
    + unfold selectPinnedIds. rewrite selectThread_updateThread_ne by done.
      apply optSubset_refl.
Qed.

Lemma sameIndex_replaceChatMessages global chatId newById :
  sameIndex global (replaceChatMessages global chatId newById).
Proof.
  split; intros; try done;
    unfold selectListedIds, selectOutlyingLists, selectPinnedIds;
    by rewrite selectThread_replaceChatMessages.
Qed.

Lemma sameIndex_clearMessageTranslation global chatId messageId :
  sameIndex global (clearMessageTranslation global chatId messageId).
Proof. done. Qed.

Lemma stable_clearMessageTranslation global chatId messageId :
  stable global (clearMessageTranslation global chatId messageId).
Proof. done. Qed.

Lemma sameIndex_updateThreadInfo global chatId threadId update doNotUpdateLinked :
  sameIndex global (updateThreadInfo global chatId threadId update doNotUpdateLinked).
Proof.
  destruct doNotUpdateLinked.
  - rewrite updateThreadInfo_suppressed. by apply sameIndex_replaceThreadParam.
  - rewrite updateThreadInfo_linked. cbv zeta.
    destruct (linkedThread _) as [[lc lt]|].
    + rewrite updateThreadInfo_suppressed.
      etrans; by apply sameIndex_replaceThreadParam.
    + by apply sameIndex_replaceThreadParam.
Qed.

Lemma stable_updateThreadInfo global chatId threadId update doNotUpdateLinked :
  stable global (updateThreadInfo global chatId threadId update doNotUpdateLinked).
Proof.
  destruct (updateThreadInfo_frame global chatId threadId update doNotUpdateLinked)
    as (Hm & Ht & _).
  split; intros; [apply Hm| |].
  - unfold selectTabState. by rewrite Ht.
  - unfold tabIds. by rewrite Ht.
Qed.

Lemma sameLists_refl global : sameLists global global.
Proof. by intros c t. Qed.

Lemma sameLists_trans g1 g2 g3 : sameLists g1 g2 → sameLists g2 g3 → sameLists g1 g3.
Proof.
  intros H12 H23 c t. destruct (H12 c t) as (? & ? & ?), (H23 c t) as (? & ? & ?).
  repeat split; congruence.
Qed.

Lemma sameIndex_sameLists global global' : sameIndex global global' → sameLists global global'.
Proof. intros [H1 H2 H3 _] c t. by rewrite H1, H2, H3. Qed.

Lemma selectThread_updateTabThread global chatId threadId update tabId c t :
  selectThread (updateTabThread global chatId threadId update tabId) c t
  = selectThread global c t.
Proof. done. Qed.

Lemma selectChatMessage_updateTabState global update tabId c m :
  selectChatMessage (updateTabState global update tabId) c m
  = selectChatMessage global c m.
Proof. done. Qed.

Lemma selectViewportIds_replaceTabThreadParam_ne global chatId threadId param tabId
    chatId' threadId' tabId' :
  (chatId', threadId', tabId') ≠ (chatId, threadId, tabId) →
  selectViewportIds (replaceTabThreadParam global chatId threadId param tabId)
                    chatId' threadId' tabId'
  = selectViewportIds global chatId' threadId' tabId'.
Proof.
  intros Hne. unfold selectViewportIds, replaceTabThreadParam.
  rewrite selectTabThread_updateTabThread_ne by done. by destruct param.
Qed.

Lemma sameLists_replaceTabThreadParam global chatId threadId newValue tabId :
  sameLists global
    (replaceTabThreadParam global chatId threadId (TP_viewportIds newValue) tabId).
Proof.
  unfold replaceTabThreadParam.
  pose proof (sameIndex_sameLists _ _
    (sameIndex_replaceThreadParam global chatId threadId
       (P_lastViewportIds newValue) I)) as Hsame.
  intros c t. destruct (Hsame c t) as (H1 & H2 & H3).
  unfold selectListedIds, selectOutlyingLists, selectPinnedIds in *.
  by rewrite !selectThread_updateTabThread.
Qed.

Lemma selectViewportIds_tabIds global chatId threadId tabId viewportIds :
  selectViewportIds global chatId threadId tabId = Some viewportIds →
  tabId ∈ tabIds global.
Proof.
  unfold selectViewportIds, selectTabThread, selectTabState, tabIds.
  intros Hsel. apply elem_of_ownKeys, alookup_is_Some.
  destruct (alookup tabId (g_byTabId global)); [eauto|]. simpl in Hsel.
  by rewrite lookup_empty in Hsel.
Qed.

Lemma stable_updateTabThread global chatId threadId update tabId :
  tabId ∈ tabIds global →
  stable global (updateTabThread global chatId threadId update tabId).
Proof. clear_unused.
  intros Htab. split.
  - done.
  - intros tabId'. unfold updateTabThread.
    destruct (decide (tabId = tabId')) as [<-|Hne].
    + by rewrite selectTabState_updateTabState_eq.
    + by rewrite selectTabState_updateTabState_ne.
  - intros tabId'. unfold updateTabThread. rewrite tabIds_updateTabState.
    naive_solver.
Qed.

Lemma stable_replaceTabThreadParam global chatId threadId param tabId :
  tabId ∈ tabIds global →
  stable global (replaceTabThreadParam global chatId threadId param tabId).
Proof.
  intros Htab. unfold replaceTabThreadParam. destruct param.
  - etrans; [apply stable_replaceThreadParam|].
    apply stable_updateTabThread.
    by apply (stable_tabIds _ _ (stable_replaceThreadParam _ _ _ _)).
  - by apply stable_updateTabThread.
Qed.

Lemma shrinks_replaceTabThreadParam global chatId threadId newValue tabId :
  optSubset (selectViewportIds global chatId threadId tabId) newValue →
  shrinks global
    (replaceTabThreadParam global chatId threadId (TP_viewportIds newValue) tabId).
Proof.
  intros Hsub.
  pose proof (sameLists_replaceTabThreadParam global chatId threadId newValue tabId)
    as Hsame.
  split; intros c t; try (destruct (Hsame c t) as (H1 & H2 & H3);
    rewrite ?H1, ?H2, ?H3; apply optSubset_refl || apply optSubsets_refl).
  intros tabId'.
  destruct (decide ((c, t, tabId') = (chatId, threadId, tabId))) as [[= -> -> ->]|Hne].
  - by rewrite selectViewportIds_replaceTabThreadParam_eq.
  - rewrite selectViewportIds_replaceTabThreadParam_ne by done. apply optSubset_refl.
Qed.

(** *** The loop over the tabs *)

Lemma elem_of_excludeSortedArray id base toExclude :
  id ∈ excludeSortedArray base toExclude ↔ id ∈ base ∧ id ∉ toExclude.
Proof. clear_unused. unfold excludeSortedArray. rewrite list_elem_of_filter. tauto. Qed.

Lemma excludeSortedArray_subseteq base toExclude :
  excludeSortedArray base toExclude ⊆ base.
Proof. clear_unused. intros id. rewrite elem_of_excludeSortedArray. tauto. Qed.

Lemma deleteFromViewport_step global chatId threadId messageIds tabId :
  let global' := deleteFromViewport chatId threadId messageIds global tabId in
  shrinks global global' ∧ sameLists global global' ∧ stable global global'
  ∧ avoids messageIds (selectViewportIds global' chatId threadId tabId).
Proof. clear_unused.
  unfold deleteFromViewport.
  destruct (selectViewportIds global chatId threadId tabId) as [viewportIds|] eqn:Hsel.
  - cbv zeta. split; [|split; [|split]].
    + apply shrinks_replaceTabThreadParam. rewrite Hsel. intros l' Hl'.
      exists viewportIds. split; [done|].
      case_bool_decide; [done|]. injection Hl' as <-.
      apply excludeSortedArray_subseteq.
    + apply sameLists_replaceTabThreadParam.
    + apply stable_replaceTabThreadParam.
      by eapply selectViewportIds_tabIds.
    + rewrite selectViewportIds_replaceTabThreadParam_eq.
      intros l Hl id Hid. case_bool_decide; [done|]. injection Hl as <-.
      rewrite elem_of_excludeSortedArray. tauto.
  - cbv zeta. split; [done|]. split; [apply sameLists_refl|]. split; [done|].
    rewrite Hsel. by intros l.
Qed.

Lemma deleteFromViewports global chatId threadId messageIds (tabs : list Z) :
  let global' := foldl (deleteFromViewport chatId threadId messageIds) global tabs in
  shrinks global global' ∧ sameLists global global' ∧ stable global global'
  ∧ (∀ tabId, tabId ∈ tabs →
       avoids messageIds (selectViewportIds global' chatId threadId tabId)).
Proof.
  revert global. induction tabs as [|tabId tabs IH]; intros global.
  - cbv zeta. simpl. split; [done|]. split; [apply sameLists_refl|]. split; [done|].
    by intros tabId' ?%not_elem_of_nil.
  - cbv zeta. simpl.
    destruct (deleteFromViewport_step global chatId threadId messageIds tabId)
      as (Hshr & Hsame & Hstab & Havoid).
    destruct (IH (deleteFromViewport chatId threadId messageIds global tabId))
      as (Hshr' & Hsame' & Hstab' & Havoid').
    split; [by etrans|]. split; [by eapply sameLists_trans|]. split; [by etrans|].
    intros tabId' [->|Hin]%elem_of_cons; [|by apply Havoid'].
    eapply avoids_optSubset; [|exact Havoid]. apply Hshr'.
Qed.

(** *** One thread of [updatedThreads] *)

Lemma avoids_equiv ids ids' list :
  (∀ id, id ∈ ids' → id ∈ ids) → avoids ids list → avoids ids' list.
Proof. intros Hsub Havoid l Hl id Hid. eapply Havoid; eauto. Qed.

Lemma avoids_excludeSortedArray ids toExclude list :
  (∀ id, id ∈ ids → id ∈ toExclude) →
  avoids ids ((λ l, excludeSortedArray l toExclude) <$> list).
Proof. clear_unused.
  intros Hsub l Hl id Hid. destruct list as [l0|]; [|done].
  injection Hl as <-. rewrite elem_of_excludeSortedArray. naive_solver.
Qed.

Lemma allAvoid_excludeSortedArray ids toExclude lists :
  (∀ id, id ∈ ids → id ∈ toExclude) →
  allAvoid ids ((λ ls : list (list Z),
                   (λ l, excludeSortedArray l toExclude) <$> ls) <$> lists).
Proof. clear_unused.
  intros Hsub ls l Hls Hl id Hid. destruct lists as [ls0|]; [|done].
  injection Hls as <-. apply list_elem_of_fmap in Hl as (l0 & -> & Hl0).
  rewrite elem_of_excludeSortedArray. naive_solver.
Qed.

Lemma optSubset_excludeSortedArray toExclude list :
  optSubset list ((λ l, excludeSortedArray l toExclude) <$> list).
Proof.
  intros l' Hl'. destruct list as [l0|]; [|done]. injection Hl' as <-.
  exists l0. split; [done|]. apply excludeSortedArray_subseteq.
Qed.

Lemma optSubsets_excludeSortedArray toExclude lists :
  optSubsets lists ((λ ls : list (list Z),
                       (λ l, excludeSortedArray l toExclude) <$> ls) <$> lists).
Proof.
  intros ls' l' Hls' Hl'. destruct lists as [ls0|]; [|done]. injection Hls' as <-.
  apply list_elem_of_fmap in Hl' as (l0 & -> & Hl0).
  exists ls0, l0. split; [done|]. split; [done|]. apply excludeSortedArray_subseteq.
Qed.

Lemma elem_of_orderPinnedIds id ids : id ∈ orderPinnedIds ids ↔ id ∈ ids.
Proof. unfold orderPinnedIds. by rewrite merge_sort_Permutation. Qed.

Lemma elem_of_orderHistoryIds id ids : id ∈ orderHistoryIds ids ↔ id ∈ ids.
Proof. unfold orderHistoryIds. by rewrite merge_sort_Permutation. Qed.

Lemma deleteFromThread_step chatId global messageIds entry :
  let result := deleteFromThread chatId (global, messageIds) entry in
  let threadMessageIds :=
    if bool_decide (entry.1 = MAIN_THREAD_ID) then messageIds else entry.2 in
  shrinks global result.1 ∧ stable global result.1
  ∧ (∀ id, id ∈ result.2 ↔ id ∈ messageIds)
  ∧ threadListsAvoid result.1 chatId entry.1 threadMessageIds
  ∧ viewportsAvoid result.1 chatId entry.1 messageIds.
Proof.
  destruct entry as [threadId ids]. unfold deleteFromThread. cbn [fst snd].
  set (T0 := if bool_decide (threadId = MAIN_THREAD_ID) then messageIds else ids).
  set (T1 := match selectPinnedIds global chatId threadId with
             | Some _ => orderPinnedIds T0 | None => T0 end).
  set (M1 := if bool_decide (threadId = MAIN_THREAD_ID) then T1 else messageIds).
  cbv zeta.
  set (ga := foldl (deleteFromViewport chatId threadId M1) global (tabIds global)).
  set (L' := (λ l, excludeSortedArray l T0) <$> selectListedIds global chatId threadId).
  set (O' := (λ lists : list (list Z), (λ l, excludeSortedArray l T0) <$> lists)
               <$> selectOutlyingLists global chatId threadId).
  set (P' := (λ l, excludeSortedArray l T1) <$> selectPinnedIds global chatId threadId).
  set (g1 := replaceThreadParam ga chatId threadId (P_listedIds L')).
  set (g2 := replaceThreadParam g1 chatId threadId (P_outlyingLists O')).
  set (gb := replaceThreadParam g2 chatId threadId (P_pinnedIds P')).
  match goal with |- shrinks _ ?g ∧ _ => set (g' := g) end.
  assert (∀ id, id ∈ T1 ↔ id ∈ T0) as HT1.
  { intros id. unfold T1. destruct (selectPinnedIds _ _ _); [|done].
    apply elem_of_orderPinnedIds. }
  assert (∀ id, id ∈ M1 ↔ id ∈ messageIds) as HM1.
  { intros id. unfold M1, T0 in *. case_bool_decide; [apply HT1|done]. }
  destruct (deleteFromViewports global chatId threadId M1 (tabIds global))
    as (Hshr_a & Hsame_a & Hstab_a & Havoid_a). fold ga in Hshr_a, Hsame_a, Hstab_a, Havoid_a.
  destruct (Hsame_a chatId threadId) as (HL_a & HO_a & HP_a).
  assert (shrinks ga g1) as Hshr1.
  { apply shrinks_replaceThreadParam. rewrite HL_a.
    apply optSubset_excludeSortedArray. }
  assert (shrinks g1 g2) as Hshr2.
  { apply shrinks_replaceThreadParam. unfold g1.
    rewrite selectOutlyingLists_replaceThreadParam, HO_a.
    apply optSubsets_excludeSortedArray. }
  assert (shrinks g2 gb) as Hshr3.
  { apply shrinks_replaceThreadParam. unfold g2, g1.
    rewrite !selectPinnedIds_replaceThreadParam, HP_a.
    apply optSubset_excludeSortedArray. }
  assert (sameIndex gb g' ∧ stable gb g') as [Hsame' Hstab'].
  { unfold g'. destruct (selectThreadInfo global chatId threadId);
      [|by split].
    match goal with |- context [match ?o with _ => _ end] => destruct o end;
      [|by split].
    split; [apply sameIndex_updateThreadInfo|apply stable_updateThreadInfo]. }
  split; [|split; [|split; [|split]]].
  - etrans; [exact Hshr_a|]. etrans; [exact Hshr1|]. etrans; [exact Hshr2|].
    etrans; [exact Hshr3|]. by apply sameIndex_shrinks.
  - etrans; [exact Hstab_a|]. etrans; [apply stable_replaceThreadParam|].
    etrans; [apply stable_replaceThreadParam|].
    etrans; [apply stable_replaceThreadParam|]. exact Hstab'.
  - exact HM1.
  - destruct Hsame' as [HL' HO' HP' _]. split; [|split].
    + rewrite HL'. unfold gb, g2, g1. rewrite !selectListedIds_replaceThreadParam.
      by apply avoids_excludeSortedArray.
    + rewrite HO'. unfold gb, g2. rewrite !selectOutlyingLists_replaceThreadParam.
      by apply allAvoid_excludeSortedArray.
    + rewrite HP'. unfold gb. rewrite !selectPinnedIds_replaceThreadParam.
      apply avoids_excludeSortedArray. intros id. by rewrite HT1.
  - intros tabId. rewrite (same_viewportIds _ _ Hsame').
    change (avoids messageIds (selectViewportIds ga chatId threadId tabId)).
    destruct (decide (tabId ∈ tabIds global)) as [Hin|Hnin].
    + eapply avoids_equiv; [|by apply Havoid_a]. intros id. by rewrite HM1.
    + intros l Hl. destruct (shrinks_viewportIds _ _ Hshr_a chatId threadId tabId l Hl)
        as (l0 & Hl0 & _).
      destruct Hnin. by eapply selectViewportIds_tabIds.
Qed.

Lemma threadListsAvoid_equiv global chatId threadId ids ids' :
  (∀ id, id ∈ ids' → id ∈ ids) →
  threadListsAvoid global chatId threadId ids →
  threadListsAvoid global chatId threadId ids'.
Proof.
  intros Hsub (Hl & Ho & Hp). split; [|split].
  - by eapply avoids_equiv.
  - intros ls l Hls Hl' id Hid. eapply Ho; eauto.
  - by eapply avoids_equiv.
Qed.

Lemma viewportsAvoid_equiv global chatId threadId ids ids' :
  (∀ id, id ∈ ids' → id ∈ ids) →
  viewportsAvoid global chatId threadId ids →
  viewportsAvoid global chatId threadId ids'.
Proof. intros Hsub Hv tabId. eapply avoids_equiv; [done|apply Hv]. Qed.

(** *** The loop over [updatedThreads] *)

Lemma deleteFromThreads chatId messageIds (entries : list (Z * list Z)) global ids :
  (∀ id, id ∈ ids ↔ id ∈ messageIds) →
  let result := foldl (deleteFromThread chatId) (global, ids) entries in
  shrinks global result.1 ∧ stable global result.1
  ∧ (∀ id, id ∈ result.2 ↔ id ∈ messageIds)
  ∧ (∀ entry, entry ∈ entries →
       threadListsAvoid result.1 chatId entry.1
         (if bool_decide (entry.1 = MAIN_THREAD_ID) then messageIds else entry.2)
       ∧ viewportsAvoid result.1 chatId entry.1 messageIds).
Proof.
  revert global ids. induction entries as [|entry entries IH]; intros global ids Hids.
  - cbv zeta. simpl. split; [done|]. split; [done|]. split; [done|].
    by intros entry ?%not_elem_of_nil.
  - cbv zeta. cbn [foldl].
    destruct (deleteFromThread_step chatId global ids entry)
      as (Hshr & Hstab & Hids1 & Hlists & Hview).
    destruct (deleteFromThread chatId (global, ids) entry) as [global1 ids1] eqn:Hstep.
    simpl in Hshr, Hstab, Hids1, Hlists, Hview.
    destruct (IH global1 ids1) as (Hshr' & Hstab' & Hids' & Hrest).
    { intros id. by rewrite Hids1. }
    split; [by etrans|]. split; [by etrans|]. split; [done|].
    intros entry' [->|Hin]%elem_of_cons; [|by apply Hrest]. split.
    + eapply threadListsAvoid_shrinks; [exact Hshr'|].
      eapply threadListsAvoid_equiv; [|exact Hlists].
      intros id. case_bool_decide; [apply Hids|done].
    + eapply viewportsAvoid_shrinks; [exact Hshr'|].
      eapply viewportsAvoid_equiv; [|exact Hview]. intros id. apply Hids.
Qed.

(** *** Building [updatedThreads] *)

Lemma collectThread_step chatId byId global threads messageId :
  let result := collectThread chatId byId (global, threads) messageId in
  g_messages result.1 = g_messages global
  ∧ g_byTabId result.1 = g_byTabId global
  ∧ g_scheduledMessages result.1 = g_scheduledMessages global
  ∧ ((∀ g c m message,
        selectThreadIdFromMessage (clearMessageTranslation g c m) message
        = selectThreadIdFromMessage g message) →
     ∀ message, selectThreadIdFromMessage result.1 message
                = selectThreadIdFromMessage global message)
  ∧ (∀ threadId ids, alookup threadId threads = Some ids →
       ∃ ids', alookup threadId result.2 = Some ids' ∧ ids ⊆ ids')
  ∧ alookup MAIN_THREAD_ID result.2 = alookup MAIN_THREAD_ID threads
  ∧ (∀ message threadId,
       byId !! messageId = Some message →
       truthyNumber (selectThreadIdFromMessage global message) = Some threadId →
       threadId ≠ MAIN_THREAD_ID →
       ∃ ids', alookup threadId result.2 = Some ids' ∧ messageId ∈ ids').
Proof. clear_unused.
  unfold collectThread.
  assert (∀ threadId ids, alookup threadId threads = Some ids →
            ∃ ids', alookup threadId threads = Some ids' ∧ ids ⊆ ids') as Hrefl
    by (intros; eauto).
  destruct (byId !! messageId) as [message|] eqn:Hmsg;
    [|cbv zeta; simpl; repeat split; auto; by intros].
  destruct (truthyNumber _) as [threadId|] eqn:Hthread;
    [|cbv zeta; simpl; repeat split; auto; intros ?? [= <-]; congruence].
  case_bool_decide as Hmain;
    [cbv zeta; simpl; repeat split; auto; intros ?? [= <-]; congruence|].
  cbv zeta. simpl. repeat split; auto.
  - intros threadId' ids Hlook.
    destruct (decide (threadId = threadId')) as [<-|Hne].
    + rewrite alookup_aset_eq, Hlook. simpl. eexists. split; [done|].
      set_solver.
    + rewrite alookup_aset_ne by done. eauto.
  - by rewrite alookup_aset_ne.
  - intros message' threadId' [= <-] Hthread' _.
    rewrite Hthread in Hthread'. injection Hthread' as <-.
    rewrite alookup_aset_eq. eexists. split; [done|]. set_solver.
Qed.

Lemma collectThreads chatId byId (messageIds : list Z) global threads :
  (∀ g c m message,
     selectThreadIdFromMessage (clearMessageTranslation g c m) message
     = selectThreadIdFromMessage g message) →
  let result := foldl (collectThread chatId byId) (global, threads) messageIds in
  g_messages result.1 = g_messages global
  ∧ g_byTabId result.1 = g_byTabId global
  ∧ g_scheduledMessages result.1 = g_scheduledMessages global
  ∧ (∀ message, selectThreadIdFromMessage result.1 message
                = selectThreadIdFromMessage global message)
  ∧ (∀ threadId ids, alookup threadId threads = Some ids →
       ∃ ids', alookup threadId result.2 = Some ids' ∧ ids ⊆ ids')
  ∧ alookup MAIN_THREAD_ID result.2 = alookup MAIN_THREAD_ID threads
  ∧ (∀ messageId message threadId,
       messageId ∈ messageIds →
       byId !! messageId = Some message →
       truthyNumber (selectThreadIdFromMessage global message) = Some threadId →
       threadId ≠ MAIN_THREAD_ID →
       ∃ ids', alookup threadId result.2 = Some ids' ∧ messageId ∈ ids').
Proof. clear_unused.
  intros Hsel. revert global threads.
  induction messageIds as [|messageId messageIds IH]; intros global threads.
  - cbv zeta. simpl. repeat split; auto.
    + intros; eauto.
    + by intros ??? ?%not_elem_of_nil.
  - cbv zeta. cbn [foldl].
    destruct (collectThread_step chatId byId global threads messageId)
      as (Hm & Ht & Hs & Hsel1 & Hmono & Hmain & Hnew).
    destruct (collectThread chatId byId (global, threads) messageId)
      as [global1 threads1] eqn:Hstep. simpl in Hm, Ht, Hs, Hsel1, Hmono, Hmain, Hnew.
    destruct (IH global1 threads1) as (Hm' & Ht' & Hs' & Hsel' & Hmono' & Hmain' & Hnew').
    split; [congruence|]. split; [congruence|]. split; [congruence|].
    split; [|split; [|split]].
    + intros message. by rewrite Hsel', Hsel1.
    + intros threadId ids Hlook. destruct (Hmono _ _ Hlook) as (ids1 & Hlook1 & Hsub1).
      destruct (Hmono' _ _ Hlook1) as (ids2 & Hlook2 & Hsub2).
      exists ids2. split; [done|set_solver].
    + congruence.
    + intros messageId' message threadId [->|Hin]%elem_of_cons Hmsg Hthread Hne.
      * destruct (Hnew _ _ Hmsg Hthread Hne) as (ids1 & Hlook1 & Hin1).
        destruct (Hmono' _ _ Hlook1) as (ids2 & Hlook2 & Hsub2).
        exists ids2. split; [done|]. by apply Hsub2.
      * apply (Hnew' messageId' message threadId Hin Hmsg); [|done].
        by rewrite Hsel1.
Qed.

(** *** The deleted channel posts *)

Lemma foldl_rel {A B} (R : relation A) `{!Reflexive R, !Transitive R}
    (f : A → B → A) (l : list B) (a : A) :
  (∀ a b, R a (f a b)) → R a (foldl f a l).
Proof.
  intros Hstep. revert a. induction l as [|b l IH]; intros a; simpl; [done|].
  etrans; [apply Hstep|apply IH].
Qed.

Lemma selectTabState_updateCurrentMessageList_ne global chatId threadId type
    shouldReplaceHistory shouldReplaceLast tabId tabId' :
  tabId ≠ tabId' →
  selectTabState
    (updateCurrentMessageList global chatId threadId type shouldReplaceHistory
       shouldReplaceLast tabId) tabId'
  = selectTabState global tabId'.
Proof. intros Hne. unfold updateCurrentMessageList. by apply selectTabState_updateTabState_ne. Qed.

Lemma sameIndex_updateCurrentMessageList global chatId threadId type
    shouldReplaceHistory shouldReplaceLast tabId :
  sameIndex global
    (updateCurrentMessageList global chatId threadId type shouldReplaceHistory
       shouldReplaceLast tabId).
Proof.
  split; intros c t; try done. intros tabId'.
  unfold selectViewportIds, selectTabThread.
  destruct (decide (tabId = tabId')) as [<-|Hne].
  - unfold updateCurrentMessageList. by rewrite selectTabState_updateTabState_eq.
  - by rewrite selectTabState_updateCurrentMessageList_ne.
Qed.

Lemma shrinks_deleteForwardedPost chatId tabId canDeleteCurrentThread
    currentThreadId global message :
  shrinks global
    (deleteForwardedPost chatId tabId canDeleteCurrentThread currentThreadId
       global message).
Proof.
  unfold deleteForwardedPost. cbv zeta.
  set (global1 := if _ && _ then _ else _).
  assert (shrinks global global1) as Hreset.
  { unfold global1. case_match; [|done].
    apply sameIndex_shrinks, sameIndex_updateCurrentMessageList. }
  destruct (_ ≫= _); [|done]. destruct (toNumberKey _); [|done].
  etrans; [exact Hreset|apply shrinks_updateThread_None].
Qed.

Lemma shrinks_deleteForwardedPosts chatId deletedForwardedPosts global tabId :
  shrinks global (deleteForwardedPosts chatId deletedForwardedPosts global tabId).
Proof.
  unfold deleteForwardedPosts. cbv zeta. apply (foldl_rel shrinks).
  intros. apply shrinks_deleteForwardedPost.
Qed.

Lemma selectChatMessage_omit global chatId byId messageIds id :
  id ∈ messageIds →
  selectChatMessage (replaceChatMessages global chatId (omit byId messageIds)) chatId id
  = None.
Proof. clear_unused.
  intros Hid. rewrite selectChatMessage_replaceChatMessages_eq.
  unfold omit. apply map_lookup_filter_None. right. intros message _. simpl. tauto.
Qed.

(** The state after the loops of [deleteChatMessages] over [updatedThreads]
    and over the tabs, and the [messageIds] array after them. *)
Lemma deleteChatMessages_unfold global chatId messageIds byId :
  selectChatMessages global chatId = Some byId →
  ∃ global1 global5 ids5,
    foldl (collectThread chatId byId)
          (global, [(MAIN_THREAD_ID, orderHistoryIds messageIds)])
          (orderHistoryIds messageIds)
    = (global1, updatedThreads global chatId byId messageIds)
    ∧ foldl (deleteFromThread chatId) (global1, orderHistoryIds messageIds)
            (updatedThreads global chatId byId messageIds)
      = (global5, ids5)
    ∧ deleteChatMessages global chatId messageIds
      = replaceChatMessages
          match filter (λ message, isLinkedChannelPost message = true)
                  (objectValues (pickTruthy byId (orderHistoryIds messageIds))) with
          | [] => global5
          | _ :: _ =>
              foldl (deleteForwardedPosts chatId
                       (filter (λ message, isLinkedChannelPost message = true)
                          (objectValues
                             (pickTruthy byId (orderHistoryIds messageIds)))))
                    global5 (tabIds global5)
          end
          chatId (omit byId ids5).
Proof.
  intros Hsel. unfold deleteChatMessages, updatedThreads. rewrite Hsel.
  destruct (foldl (collectThread chatId byId) _ _) as [global1 threads] eqn:H1.
  destruct (foldl (deleteFromThread chatId) _ _) as [global5 ids5] eqn:H5.
  exists global1, global5, ids5. simpl. split; [done|]. split; [done|].
  by destruct (filter _ _).
Qed.

(** C1, as the code has it: after [deleteChatMessages] the chat's message
    table holds none of the ids; the main thread has none of them in its
    [listedIds], [outlyingLists] and [pinnedIds]; the thread a deleted
    stored message resolves to has not that message's id in these lists;
    and no tab has any of the ids in its viewport of the main thread and of
    such a thread.  The thread of a message must not depend on the
    translations the reducer clears on its way. *)
Theorem deleteChatMessages_removes global chatId messageIds byId :
  selectChatMessages global chatId = Some byId →
  (∀ g c m message,
     selectThreadIdFromMessage (clearMessageTranslation g c m) message
     = selectThreadIdFromMessage g message) →
  let global' := deleteChatMessages global chatId messageIds in
  (∀ id, id ∈ messageIds → selectChatMessage global' chatId id = None)
  ∧ threadListsAvoid global' chatId MAIN_THREAD_ID messageIds
  ∧ viewportsAvoid global' chatId MAIN_THREAD_ID messageIds
  ∧ (∀ id message threadId,
       id ∈ messageIds →
       byId !! id = Some message →
       truthyNumber (selectThreadIdFromMessage global message) = Some threadId →
       threadListsAvoid global' chatId threadId [id]
       ∧ viewportsAvoid global' chatId threadId messageIds).
Proof.
  intros Hsel Hthread global'. subst global'.
  destruct (deleteChatMessages_unfold global chatId messageIds byId Hsel)
    as (global1 & global5 & ids5 & H1 & H5 & ->).
  set (sorted := orderHistoryIds messageIds) in *.
  set (threads := updatedThreads global chatId byId messageIds) in *.
  set (posts := filter _ _).
  match goal with
  | |- context [replaceChatMessages ?g _ _] => set (global6 := g)
  end.
  pose proof (collectThreads chatId byId sorted global [(MAIN_THREAD_ID, sorted)] Hthread)
    as Hcollect. cbv zeta in Hcollect. rewrite H1 in Hcollect.
  destruct Hcollect as (_ & _ & _ & _ & _ & Hmain & Hnew). cbn [fst snd] in Hmain, Hnew.
  pose proof (deleteFromThreads chatId messageIds threads global1 sorted) as Hloop.
  cbv zeta in Hloop. rewrite H5 in Hloop. cbn [fst snd] in Hloop.
  destruct Hloop as (_ & _ & Hids5 & Hentries).
  { intros id. apply elem_of_orderHistoryIds. }
  assert (shrinks global5 (replaceChatMessages global6 chatId (omit byId ids5)))
    as Hshr.
  { etrans; [|apply sameIndex_shrinks, sameIndex_replaceChatMessages].
    unfold global6. destruct posts; [done|].
    apply (foldl_rel shrinks). intros. apply shrinks_deleteForwardedPosts. }
  assert ((MAIN_THREAD_ID, sorted) ∈ threads) as Hmain_in.
  { apply alookup_Some_elem. rewrite Hmain. simpl.
    by rewrite bool_decide_eq_true_2. }
  destruct (Hentries _ Hmain_in) as [Hmain_lists Hmain_view]. cbn [fst snd] in *.
  rewrite bool_decide_eq_true_2 in Hmain_lists by done.
  split; [|split; [|split]].
  - intros id Hid. apply selectChatMessage_omit. by apply Hids5.
  - by eapply threadListsAvoid_shrinks.
  - by eapply viewportsAvoid_shrinks.
  - intros id message threadId Hid Hmsg Hresolved.
    destruct (decide (threadId = MAIN_THREAD_ID)) as [->|Hne].
    + split; [|by eapply viewportsAvoid_shrinks].
      eapply threadListsAvoid_shrinks; [exact Hshr|].
      eapply threadListsAvoid_equiv; [|exact Hmain_lists].
      by intros id' ->%list_elem_of_singleton.
    + destruct (Hnew id message threadId) as (ids & Hlook & Hin); try done.
      { by apply elem_of_orderHistoryIds. }
      destruct (Hentries _ (alookup_Some_elem _ _ _ Hlook)) as [Hlists Hview].
      cbn [fst snd] in *. rewrite bool_decide_eq_false_2 in Hlists by done.
      split; [|by eapply viewportsAvoid_shrinks].
      eapply threadListsAvoid_shrinks; [exact Hshr|].
      eapply threadListsAvoid_equiv; [|exact Hlists].
      by intros id' ->%list_elem_of_singleton.
Qed.

Lemma foldl_establish {A B} (f : A → B → A) (I P : A → Prop) (l : list B)
    (b0 : B) (a : A) :
  b0 ∈ l → I a →
  (∀ a b, I a → I (f a b)) →
  (∀ a, I a → P (f a b0)) →
  (∀ a b, I a → P a → P (f a b)) →
  P (foldl f a l).
Proof.
  intros Hin Ha HI Hest Hpres.
  apply list_elem_of_split in Hin as (l1 & l2 & ->).
  rewrite foldl_app. cbn [foldl].
  assert (∀ l a, I a → I (foldl f a l)) as HIfold.
  { clear -HI. induction l as [|b l IH]; intros a Ha; simpl; auto. }
  assert (∀ l a, I a → P a → P (foldl f a l)) as HPfold.
  { clear -HI Hpres. induction l as [|b l IH]; intros a Ha HP; simpl; auto. }
  apply HPfold; auto.
Qed.

Lemma foldl_preserved {A B C} (obs : A → C) (f : A → B → A) (l : list B) (a : A) :
  (∀ a b, obs (f a b) = obs a) → obs (foldl f a l) = obs a.
Proof.
  intros Hstep. revert a. induction l as [|b l IH]; intros a; simpl; [done|].
  by rewrite IH.
Qed.

Lemma updateCurrentMessageList_reset global chatId tabId :
  chatId ≠ "" →
  showsMainThread
    (updateCurrentMessageList global (Some chatId) None None false false tabId)
    chatId tabId.
Proof.
  intros Hne. unfold showsMainThread, selectCurrentMessageList,
    updateCurrentMessageList.
  rewrite selectTabState_updateTabState_eq. cbn [spreadTabState tab_messageLists
    tsu_messageLists default truthyString orb].
  rewrite bool_decide_eq_false_2 by done. unfold lastElem.
  destruct (IS_TEST && negb IS_MOCKED_CLIENT); [done|].
  destruct (last (tab_messageLists (selectTabState global tabId)))
    as [[c t ty]|] eqn:Hlast; [|apply last_snoc].
  cbn [ml_chatId ml_threadId ml_type].
  repeat case_bool_decide; subst; cbn [negb orb]; try apply last_snoc;
    exact Hlast.
Qed.

Lemma selectTabState_deleteForwardedPost chatId tabId canDeleteCurrentThread
    currentThreadId global message tabId' :
  tabId' ≠ tabId →
  selectTabState
    (deleteForwardedPost chatId tabId canDeleteCurrentThread currentThreadId
       global message) tabId'
  = selectTabState global tabId'.
Proof.
  intros Hne. unfold deleteForwardedPost. cbv zeta.
  set (global1 := if _ && _ then _ else _).
  assert (selectTabState global1 tabId' = selectTabState global tabId') as Hreset.
  { unfold global1. case_match; [|done].
    by apply selectTabState_updateCurrentMessageList_ne. }
  destruct (_ ≫= _); [|done]. destruct (toNumberKey _); [|done].
  by rewrite selectTabState_updateThread.
Qed.

Lemma showsMainThread_updateThread global chatId' threadId update chatId tabId :
  showsMainThread (updateThread global chatId' threadId update) chatId tabId
  ↔ showsMainThread global chatId tabId.
Proof.
  unfold showsMainThread, selectCurrentMessageList.
  by rewrite selectTabState_updateThread.
Qed.

Lemma showsMainThread_deleteForwardedPost chatId tabId canDeleteCurrentThread
    currentThreadId global message tabId' :
  chatId ≠ "" →
  showsMainThread global chatId tabId' →
  showsMainThread
    (deleteForwardedPost chatId tabId canDeleteCurrentThread currentThreadId
       global message) chatId tabId'.
Proof.
  intros Hne Hshows.
  destruct (decide (tabId' = tabId)) as [->|Htab].
  - unfold deleteForwardedPost. cbv zeta.
    set (global1 := if _ && _ then _ else _).
    assert (showsMainThread global1 chatId tabId) as Hreset.
    { unfold global1. case_match; [|done].
      by apply updateCurrentMessageList_reset. }
    destruct (_ ≫= _); [|done]. destruct (toNumberKey _); [|done].
    by apply showsMainThread_updateThread.
  - unfold showsMainThread, selectCurrentMessageList.
    by rewrite selectTabState_deleteForwardedPost.
Qed.

Lemma deleteForwardedPost_resets chatId tabId currentThreadId global message :
  chatId ≠ "" →
  getProp message "id" = JNum currentThreadId →
  showsMainThread
    (deleteForwardedPost chatId tabId true (Some currentThreadId) global message)
    chatId tabId.
Proof.
  intros Hne Hid. unfold deleteForwardedPost. cbv zeta. rewrite Hid.
  cbn [andb numEq]. rewrite bool_decide_eq_true_2 by done.
  pose proof (updateCurrentMessageList_reset global chatId tabId Hne) as Hreset.
  destruct (_ ≫= _); [|done]. destruct (toNumberKey _); [|done].
  by apply showsMainThread_updateThread.
Qed.

Lemma selectChatMessage_deleteForwardedPost chatId tabId canDeleteCurrentThread
    currentThreadId global message c m :
  selectChatMessage
    (deleteForwardedPost chatId tabId canDeleteCurrentThread currentThreadId
       global message) c m
  = selectChatMessage global c m.
Proof.
  unfold deleteForwardedPost. cbv zeta.
  set (global1 := if _ && _ then _ else _).
  assert (selectChatMessage global1 c m = selectChatMessage global c m) as Hreset.
  { unfold global1. by case_match. }
  destruct (_ ≫= _); [|done]. destruct (toNumberKey _); [|done].
  by rewrite selectChatMessage_updateThread.
Qed.

Lemma selectThread_deleteForwardedPost_None chatId tabId canDeleteCurrentThread
    currentThreadId global message c t :
  selectThread global c t = None →
  selectThread
    (deleteForwardedPost chatId tabId canDeleteCurrentThread currentThreadId
       global message) c t
  = None.
Proof.
  intros Hnone. unfold deleteForwardedPost. cbv zeta.
  set (global1 := if _ && _ then _ else _).
  assert (selectThread global1 c t = None) as Hreset.
  { unfold global1. by case_match. }
  destruct (_ ≫= _); [|done]. destruct (toNumberKey _) as [fromMessageId|]; [|done].
  set (fromChatId := toPropertyKey _).
  destruct (decide ((c, t) = (fromChatId, fromMessageId))) as [[= -> ->]|Hne].
  - apply selectThread_updateThread_None.
  - by rewrite selectThread_updateThread_ne.
Qed.

Lemma deleteForwardedPost_removes chatId tabId canDeleteCurrentThread
    currentThreadId global message fromMessageId :
  originMessageId message = Some fromMessageId →
  is_Some (selectChatMessage global (originChatId message) fromMessageId) →
  selectThread
    (deleteForwardedPost chatId tabId canDeleteCurrentThread currentThreadId
       global message) (originChatId message) fromMessageId
  = None.
Proof.
  unfold originMessageId, originChatId. intros Hfrom [post Hpost].
  unfold deleteForwardedPost. cbv zeta. rewrite Hfrom. cbn [mbind option_bind].
  rewrite Hpost. apply selectThread_updateThread_None.
Qed.

(** *** The loop over the deleted channel posts, for one tab *)

Lemma selectTabState_deleteForwardedPosts chatId posts global tabId tabId' :
  tabId' ≠ tabId →
  selectTabState (deleteForwardedPosts chatId posts global tabId) tabId'
  = selectTabState global tabId'.
Proof.
  intros Hne. unfold deleteForwardedPosts. cbv zeta.
  apply (foldl_preserved (λ g, selectTabState g tabId')).
  intros g message. by apply selectTabState_deleteForwardedPost.
Qed.

Lemma showsMainThread_deleteForwardedPosts chatId posts global tabId tabId' :
  chatId ≠ "" →
  showsMainThread global chatId tabId' →
  showsMainThread (deleteForwardedPosts chatId posts global tabId) chatId tabId'.
Proof.
  intros Hne. unfold deleteForwardedPosts. cbv zeta.
  generalize (match selectCurrentMessageList global tabId with
              | Some currentMessageList =>
                  bool_decide (ml_chatId currentMessageList = chatId)
                  && bool_decide (ml_type currentMessageList = ListThread)
              | None => false
              end) as canDeleteCurrentThread.
  generalize (ml_threadId <$> selectCurrentMessageList global tabId)
    as currentThreadId.
  intros currentThreadId canDeleteCurrentThread. revert global.
  induction posts as [|message posts IH]; intros global Hshows; cbn [foldl];
    [done|].
  apply IH. by apply showsMainThread_deleteForwardedPost.
Qed.

Lemma deleteForwardedPosts_resets chatId posts global tabId message postId :
  chatId ≠ "" →
  message ∈ posts →
  getProp message "id" = JNum postId →
  selectCurrentMessageList global tabId
  = Some {| ml_chatId := chatId; ml_threadId := postId; ml_type := ListThread |} →
  showsMainThread (deleteForwardedPosts chatId posts global tabId) chatId tabId.
Proof.
  intros Hne Hin Hid Hcurrent. unfold deleteForwardedPosts. cbv zeta.
  rewrite Hcurrent. cbn [ml_chatId ml_type ml_threadId fmap option_fmap option_map].
  rewrite !bool_decide_eq_true_2 by done. cbn [andb].
  apply (foldl_establish _ (λ _, True) (λ g, showsMainThread g chatId tabId)
           posts message); auto.
  - intros g _. by apply deleteForwardedPost_resets.
  - intros g message' _. by apply showsMainThread_deleteForwardedPost.
Qed.

Lemma selectChatMessage_deleteForwardedPosts chatId posts global tabId c m :
  selectChatMessage (deleteForwardedPosts chatId posts global tabId) c m
  = selectChatMessage global c m.
Proof.
  unfold deleteForwardedPosts. cbv zeta.
  apply (foldl_preserved (λ g, selectChatMessage g c m)).
  intros g message. apply selectChatMessage_deleteForwardedPost.
Qed.

Lemma selectThread_deleteForwardedPosts_None chatId posts global tabId c t :
  selectThread global c t = None →
  selectThread (deleteForwardedPosts chatId posts global tabId) c t = None.
Proof.
  unfold deleteForwardedPosts. cbv zeta.
  generalize (match selectCurrentMessageList global tabId with
              | Some currentMessageList =>
                  bool_decide (ml_chatId currentMessageList = chatId)
                  && bool_decide (ml_type currentMessageList = ListThread)
              | None => false
              end) as canDeleteCurrentThread.
  generalize (ml_threadId <$> selectCurrentMessageList global tabId)
    as currentThreadId.
  intros currentThreadId canDeleteCurrentThread. revert global.
  induction posts as [|message posts IH]; intros global Hnone; cbn [foldl];
    [done|].
  apply IH. by apply selectThread_deleteForwardedPost_None.
Qed.

Lemma deleteForwardedPosts_removes chatId posts global tabId message fromMessageId :
  message ∈ posts →
  originMessageId message = Some fromMessageId →
  is_Some (selectChatMessage global (originChatId message) fromMessageId) →
  selectThread (deleteForwardedPosts chatId posts global tabId)
               (originChatId message) fromMessageId
  = None.
Proof.
  intros Hin Hfrom Hpost. unfold deleteForwardedPosts. cbv zeta.
  apply (foldl_establish _
           (λ g, ∀ c m, selectChatMessage g c m = selectChatMessage global c m)
           (λ g, selectThread g (originChatId message) fromMessageId = None)
           posts message); auto.
  - intros g message' Hg c m. by rewrite selectChatMessage_deleteForwardedPost.
  - intros g Hg. apply deleteForwardedPost_removes; [done|]. by rewrite Hg.
  - intros g message' _ Hnone. by apply selectThread_deleteForwardedPost_None.
Qed.

(** *** The deleted channel posts among the deleted messages *)

Lemma alookup_pickTruthy_acc (byId : gmap Z JsObj) (keys : list Z)
    (acc : list (Z * JsObj)) k v :
  byId !! k = Some v →
  k ∈ keys ∨ alookup k acc = Some v →
  alookup k
    (foldl (λ result key,
              match byId !! key with
              | Some v => aset key v result
              | None => result
              end) acc keys)
  = Some v.
Proof.
  intros Hk. revert acc. induction keys as [|key keys IH]; intros acc Hor.
  - destruct Hor as [?%not_elem_of_nil|?]; done.
  - cbn [foldl]. apply IH.
    destruct (decide (key = k)) as [->|Hne].
    + right. rewrite Hk. apply alookup_aset_eq.
    + destruct Hor as [[?|?]%elem_of_cons|Hacc]; [congruence|by left|].
      right. destruct (byId !! key); [|done]. by rewrite alookup_aset_ne.
Qed.

Lemma elem_of_deletedForwardedPosts (byId : gmap Z JsObj) messageIds messageId message :
  messageId ∈ messageIds →
  byId !! messageId = Some message →
  isLinkedChannelPost message = true →
  message ∈ filter (λ message, isLinkedChannelPost message = true)
             (objectValues (pickTruthy byId messageIds)).
Proof.
  intros Hin Hmsg Hlinked. apply list_elem_of_filter. split; [done|].
  apply elem_of_objectValues. exists messageId.
  unfold pickTruthy. apply alookup_pickTruthy_acc; auto.
Qed.

Lemma collectThreads_frame chatId byId (messageIds : list Z) global threads :
  let result := foldl (collectThread chatId byId) (global, threads) messageIds in
  g_messages result.1 = g_messages global ∧ g_byTabId result.1 = g_byTabId global.
Proof.
  cbv zeta.
  assert ((λ acc : GlobalState * list (Z * list Z),
             (g_messages acc.1, g_byTabId acc.1))
            (foldl (collectThread chatId byId) (global, threads) messageIds)
          = (g_messages global, g_byTabId global)) as Hfold.
  { apply (foldl_preserved
             (λ acc : GlobalState * list (Z * list Z),
                (g_messages acc.1, g_byTabId acc.1))).
    intros [g ts] messageId.
    destruct (collectThread_step chatId byId g ts messageId) as (Hm & Ht & _).
    cbn [fst] in *. by rewrite Hm, Ht. }
  cbn beta in Hfold. by injection Hfold as -> ->.
Qed.

Lemma stable_of_eq global global' :
  g_messages global' = g_messages global →
  g_byTabId global' = g_byTabId global →
  stable global global'.
Proof.
  intros Hm Ht. split; intros.
  - unfold selectChatMessage, selectChatMessages. by rewrite Hm.
  - unfold selectTabState. by rewrite Ht.
  - unfold tabIds. by rewrite Ht.
Qed.

Lemma selectCurrentMessageList_tabIds global tabId list :
  selectCurrentMessageList global tabId = Some list → tabId ∈ tabIds global.
Proof.
  unfold selectCurrentMessageList, selectTabState, tabIds.
  intros Hsel. apply elem_of_ownKeys, alookup_is_Some.
  destruct (alookup tabId (g_byTabId global)); [eauto|done].
Qed.

(** C6, as the code has it: when a stored message of the batch is a linked
    forwarded channel post, every tab whose current message list is the
    thread of the chat under the post's id, of type 'thread', shows the
    chat's main thread afterwards; and when at least one tab exists and the
    post's origin message is in the message table of its origin chat, the
    thread entry under the origin chat and origin message id is gone. *)
Theorem deleteChatMessages_linked_post global chatId messageIds byId messageId message :
  selectChatMessages global chatId = Some byId →
  messageId ∈ messageIds →
  byId !! messageId = Some message →
  isLinkedChannelPost message = true →
  let global' := deleteChatMessages global chatId messageIds in
  (chatId ≠ "" →
   ∀ tabId postId,
     getProp message "id" = JNum postId →
     selectCurrentMessageList global tabId
     = Some {| ml_chatId := chatId; ml_threadId := postId; ml_type := ListThread |} →
     showsMainThread global' chatId tabId)
  ∧ (tabIds global ≠ [] →
     ∀ fromMessageId,
       originMessageId message = Some fromMessageId →
       is_Some (selectChatMessage global (originChatId message) fromMessageId) →
       selectThread global' (originChatId message) fromMessageId = None).
Proof.
  intros Hsel Hin Hmsg Hlinked global'. subst global'.
  destruct (deleteChatMessages_unfold global chatId messageIds byId Hsel)
    as (global1 & global5 & ids5 & H1 & H5 & ->).
  set (sorted := orderHistoryIds messageIds) in *.
  set (threads := updatedThreads global chatId byId messageIds) in *.
  set (posts := filter _ _).
  assert (message ∈ posts) as Hpost.
  { apply (elem_of_deletedForwardedPosts byId sorted messageId message);
      [|done|done].
    by apply elem_of_orderHistoryIds. }
  assert (stable global global5) as Hstable.
  { etrans.
    - pose proof (collectThreads_frame chatId byId sorted global
                    [(MAIN_THREAD_ID, sorted)]) as Hframe.
      cbv zeta in Hframe. rewrite H1 in Hframe. destruct Hframe as [Hm Ht].
      apply (stable_of_eq global global1); [exact Hm|exact Ht].
    - pose proof (deleteFromThreads chatId messageIds threads global1 sorted) as Hloop.
      cbv zeta in Hloop. rewrite H5 in Hloop.
      destruct Hloop as (_ & Hst & _); [|exact Hst].
      intros id. apply elem_of_orderHistoryIds. }
  destruct posts as [|post posts'] eqn:Hposts;
    [by apply not_elem_of_nil in Hpost|]. rewrite <- Hposts in *. clear Hposts.
  split.
  - intros Hne tabId postId Hid Hcurrent.
    assert (showsMainThread
              (foldl (deleteForwardedPosts chatId posts) global5 (tabIds global5))
              chatId tabId) as Hshows; [|exact Hshows].
    apply (foldl_establish _
             (λ g, selectCurrentMessageList g tabId
                   = Some {| ml_chatId := chatId; ml_threadId := postId;
                             ml_type := ListThread |}
                   ∨ showsMainThread g chatId tabId)
             (λ g, showsMainThread g chatId tabId) (tabIds global5) tabId).
    + apply (stable_tabIds _ _ Hstable).
      by eapply selectCurrentMessageList_tabIds.
    + left. unfold selectCurrentMessageList.
      by rewrite (stable_messageLists _ _ Hstable).
    + intros g tabId' Hg. destruct (decide (tabId = tabId')) as [<-|Htab].
      * right. destruct Hg as [Hg|Hg].
        -- by eapply deleteForwardedPosts_resets.
        -- by apply showsMainThread_deleteForwardedPosts.
      * unfold showsMainThread, selectCurrentMessageList in *.
        by rewrite selectTabState_deleteForwardedPosts.
    + intros g [Hg|Hg].
      * by eapply deleteForwardedPosts_resets.
      * by apply showsMainThread_deleteForwardedPosts.
    + intros g tabId' _ Hg. by apply showsMainThread_deleteForwardedPosts.
  - intros Htabs fromMessageId Hfrom Horigin.
    rewrite selectThread_replaceChatMessages.
    destruct (tabIds global5) as [|tabId tabs] eqn:Htabs5.
    { destruct (tabIds global) as [|tabId tabs] eqn:Htabs0; [done|].
      assert (tabId ∈ tabIds global5) as Hbad.
      { apply (stable_tabIds _ _ Hstable). rewrite Htabs0. apply list_elem_of_here. }
      rewrite Htabs5 in Hbad. by apply not_elem_of_nil in Hbad. }
    apply (foldl_establish _
             (λ g, ∀ c m, selectChatMessage g c m = selectChatMessage global c m)
             (λ g, selectThread g (originChatId message) fromMessageId = None)
             (tabId :: tabs) tabId).
    + apply list_elem_of_here.
    + apply (stable_messages _ _ Hstable).
    + intros g tabId' Hg c m. by rewrite selectChatMessage_deleteForwardedPosts.
    + intros g Hg. apply deleteForwardedPosts_removes; [done|done|].
      by rewrite Hg.
    + intros g tabId' _ Hnone. by apply selectThread_deleteForwardedPosts_None.
Qed.

(** ** What deletion keeps *)

Lemma sameSelections_refl global : sameSelections global global.
Proof. by split. Qed.

Lemma sameSelections_trans g1 g2 g3 :
  sameSelections g1 g2 → sameSelections g2 g3 → sameSelections g1 g3.
Proof.
  intros [H1 H2] [H3 H4]. split; [congruence|].
  intros tabId. by rewrite H4, H2.
Qed.

#[local] Instance sameSelections_Reflexive : Reflexive sameSelections :=
  sameSelections_refl.
#[local] Instance sameSelections_Transitive : Transitive sameSelections :=
  sameSelections_trans.

Lemma sameSelections_of_eq global global' :
  g_scheduledMessages global' = g_scheduledMessages global →
  g_byTabId global' = g_byTabId global →
  sameSelections global global'.
Proof.
  intros Hs Ht. split; [done|]. intros tabId. unfold selectTabState. by rewrite Ht.
Qed.

Lemma sameSelections_updateThread global chatId threadId update :
  sameSelections global (updateThread global chatId threadId update).
Proof.
  apply sameSelections_of_eq.
  - apply g_scheduledMessages_updateThread.
  - apply g_byTabId_updateThread.
Qed.

Lemma sameSelections_updateTabState global update tabId :
  tsu_selectedMessages update = None →
  sameSelections global (updateTabState global update tabId).
Proof.
  intros Hu. split; [done|]. intros tabId'.
  destruct (decide (tabId = tabId')) as [<-|Hne].
  - rewrite selectTabState_updateTabState_eq. simpl. by rewrite Hu.
  - by rewrite selectTabState_updateTabState_ne.
Qed.

Lemma sameSelections_replaceTabThreadParam global chatId threadId param tabId :
  sameSelections global (replaceTabThreadParam global chatId threadId param tabId).
Proof.
  unfold replaceTabThreadParam. cbv zeta.
  etrans; [|by apply sameSelections_updateTabState].
  destruct param; [apply sameSelections_updateThread|done].
Qed.

Lemma sameSelections_updateThreadInfo global chatId threadId update doNotUpdateLinked :
  sameSelections global
    (updateThreadInfo global chatId threadId update doNotUpdateLinked).
Proof.
  destruct (updateThreadInfo_frame global chatId threadId update doNotUpdateLinked)
    as (_ & Ht & Hs & _).
  by apply sameSelections_of_eq.
Qed.

Lemma sameSelections_updateCurrentMessageList global chatId threadId type
    shouldReplaceHistory shouldReplaceLast tabId :
  sameSelections global
    (updateCurrentMessageList global chatId threadId type shouldReplaceHistory
       shouldReplaceLast tabId).
Proof. by apply sameSelections_updateTabState. Qed.

Lemma sameSelections_deleteFromThread chatId global messageIds entry :
  sameSelections global (deleteFromThread chatId (global, messageIds) entry).1.
Proof.
  destruct entry as [threadId ids]. unfold deleteFromThread. cbn [fst snd].
  cbv zeta.
  match goal with
  | |- context [replaceThreadParam ?g _ _ (P_pinnedIds ?p)] =>
      set (gb := replaceThreadParam g chatId threadId (P_pinnedIds p))
  end.
  assert (sameSelections global gb) as Hgb.
  { unfold gb.
    etrans; [|apply sameSelections_updateThread].
    etrans; [|apply sameSelections_updateThread].
    etrans; [|apply sameSelections_updateThread].
    apply (foldl_rel sameSelections). intros g tabId.
    unfold deleteFromViewport. case_match; [|done].
    apply sameSelections_replaceTabThreadParam. }
  etrans; [exact Hgb|].
  destruct (selectThreadInfo global chatId threadId); [|done].
  match goal with |- context [match ?o with _ => _ end] => destruct o end;
    [|done].
  apply sameSelections_updateThreadInfo.
Qed.

Lemma sameSelections_deleteFromThreads chatId (entries : list (Z * list Z))
    global messageIds :
  sameSelections global (foldl (deleteFromThread chatId) (global, messageIds) entries).1.
Proof.
  revert global messageIds. induction entries as [|entry entries IH];
    intros global messageIds; [done|].
  cbn [foldl].
  destruct (deleteFromThread chatId (global, messageIds) entry) as [g ids] eqn:Hstep.
  etrans; [|apply IH].
  pose proof (sameSelections_deleteFromThread chatId global messageIds entry) as H.
  by rewrite Hstep in H.
Qed.

Lemma sameSelections_collectThreads chatId byId (messageIds : list Z) global threads :
  sameSelections global
    (foldl (collectThread chatId byId) (global, threads) messageIds).1.
Proof.
  revert global threads. induction messageIds as [|messageId messageIds IH];
    intros global threads; [done|].
  cbn [foldl].
  destruct (collectThread chatId byId (global, threads) messageId)
    as [g ts] eqn:Hstep.
  etrans; [|apply IH].
  destruct (collectThread_step chatId byId global threads messageId)
    as (_ & Ht & Hs & _).
  rewrite Hstep in Ht, Hs. by apply sameSelections_of_eq.
Qed.

Lemma sameSelections_deleteForwardedPosts chatId posts global tabId :
  sameSelections global (deleteForwardedPosts chatId posts global tabId).
Proof.
  unfold deleteForwardedPosts. cbv zeta. apply (foldl_rel sameSelections).
  intros g message. unfold deleteForwardedPost. cbv zeta.
  set (g1 := if _ && _ then _ else _).
  assert (sameSelections g g1) as H1.
  { unfold g1. case_match; [|done]. apply sameSelections_updateCurrentMessageList. }
  etrans; [exact H1|].
  repeat case_match; try done; apply sameSelections_updateThread.
Qed.

Lemma sameIndex_of_eq global global' :
  g_messages global' = g_messages global →
  g_byTabId global' = g_byTabId global →
  sameIndex global global'.
Proof.
  intros Hm Ht.
  split; intros;
    unfold selectListedIds, selectOutlyingLists, selectPinnedIds, selectViewportIds,
      selectTabThread, selectThread, selectTabState;
    by rewrite ?Hm, ?Ht.
Qed.

Lemma stable_deleteForwardedPosts chatId posts global (tabs : list Z) c m :
  selectChatMessage (foldl (deleteForwardedPosts chatId posts) global tabs) c m
  = selectChatMessage global c m.
Proof.
  revert global. induction tabs as [|tabId tabs IH]; intros global; [done|].
  cbn [foldl]. rewrite IH. apply selectChatMessage_deleteForwardedPosts.
Qed.

Lemma omit_ext {V} (object : gmap Z V) (keys keys' : list Z) :
  (∀ id, id ∈ keys ↔ id ∈ keys') → omit object keys = omit object keys'.
Proof.
  intros Hkeys. unfold omit. apply map_filter_ext. intros id v _. simpl.
  by rewrite Hkeys.
Qed.

Lemma lookup_omit {V} (object : gmap Z V) (keys : list Z) id :
  omit object keys !! id = if bool_decide (id ∈ keys) then None else object !! id.
Proof. clear_unused.
  unfold omit. case_bool_decide as Hid.
  - apply map_lookup_filter_None. right. intros v _. simpl. tauto.
  - destruct (object !! id) as [v|] eqn:Hv.
    + by apply map_lookup_filter_Some.
    + apply map_lookup_filter_None. by left.
Qed.

(** [deleteChatMessages] for a chat that has a message table: the state
    before the table is replaced. *)
Lemma deleteChatMessages_stages global chatId messageIds byId :
  selectChatMessages global chatId = Some byId →
  ∃ global6,
    deleteChatMessages global chatId messageIds
    = replaceChatMessages global6 chatId (omit byId messageIds)
    ∧ shrinks global global6
    ∧ sameSelections global global6
    ∧ (∀ c m, selectChatMessage global6 c m = selectChatMessage global c m).
Proof.
  intros Hsel.
  destruct (deleteChatMessages_unfold global chatId messageIds byId Hsel)
    as (global1 & global5 & ids5 & H1 & H5 & ->).
  set (sorted := orderHistoryIds messageIds) in *.
  set (threads := updatedThreads global chatId byId messageIds) in *.
  set (posts := filter _ _).
  match goal with
  | |- context [replaceChatMessages ?g _ _] => set (global6 := g)
  end.
  pose proof (collectThreads_frame chatId byId sorted global
                [(MAIN_THREAD_ID, sorted)]) as Hcollect.
  cbv zeta in Hcollect. rewrite H1 in Hcollect. cbn [fst] in Hcollect.
  destruct Hcollect as [Hm1 Ht1].
  pose proof (sameSelections_collectThreads chatId byId sorted global
                [(MAIN_THREAD_ID, sorted)]) as Hsel1.
  rewrite H1 in Hsel1. cbn [fst] in Hsel1.
  pose proof (deleteFromThreads chatId messageIds threads global1 sorted) as Hloop.
  cbv zeta in Hloop. rewrite H5 in Hloop. cbn [fst snd] in Hloop.
  destruct Hloop as (Hshr5 & Hst5 & Hids5 & _).
  { intros id. apply elem_of_orderHistoryIds. }
  pose proof (sameSelections_deleteFromThreads chatId threads global1 sorted) as Hsel5.
  rewrite H5 in Hsel5. cbn [fst] in Hsel5.
  exists global6. split; [|split; [|split]].
  - f_equal. by apply omit_ext.
  - etrans; [apply sameIndex_shrinks, (sameIndex_of_eq _ _ Hm1 Ht1)|].
    etrans; [exact Hshr5|].
    unfold global6. destruct posts; [done|].
    apply (foldl_rel shrinks). intros. apply shrinks_deleteForwardedPosts.
  - etrans; [exact Hsel1|]. etrans; [exact Hsel5|].
    unfold global6. destruct posts; [done|].
    apply (foldl_rel sameSelections). intros.
    apply sameSelections_deleteForwardedPosts.
  - intros c m. transitivity (selectChatMessage global5 c m).
    + unfold global6. destruct posts; [done|]. apply stable_deleteForwardedPosts.
    + rewrite (stable_messages _ _ Hst5).
      unfold selectChatMessage, selectChatMessages. by rewrite Hm1.
Qed.

(** X1: [deleteChatMessages] takes exactly the given ids out of the chat's
    message table: an id of the batch is no longer stored, every other
    message of the chat is stored as before, and the tables of the other
    chats are as before. *)
Theorem deleteChatMessages_table global chatId messageIds :
  let global' := deleteChatMessages global chatId messageIds in
  (∀ id, selectChatMessage global' chatId id
         = if bool_decide (id ∈ messageIds) then None
           else selectChatMessage global chatId id)
  ∧ (∀ c id, c ≠ chatId →
       selectChatMessage global' c id = selectChatMessage global c id).
Proof.
  intros global'. subst global'.
  destruct (selectChatMessages global chatId) as [byId|] eqn:Hsel.
  - destruct (deleteChatMessages_stages global chatId messageIds byId Hsel)
      as (global6 & -> & _ & _ & Hmsg).
    split.
    + intros id. rewrite selectChatMessage_replaceChatMessages_eq, lookup_omit.
      case_bool_decide; [done|].
      unfold selectChatMessage. by rewrite Hsel.
    + intros c id Hne. rewrite <- Hmsg.
      unfold selectChatMessage.
      by rewrite selectChatMessages_replaceChatMessages_ne.
  - unfold deleteChatMessages. rewrite Hsel. split; [|done].
    intros id. unfold selectChatMessage. rewrite Hsel. by case_bool_decide.
Qed.

(** X2: [deleteChatMessages] adds no id to any list: in every chat and
    thread the listed ids, each outlying list, the pinned ids and the
    viewport of each tab are made of ids that were there before. *)
Theorem deleteChatMessages_shrinks global chatId messageIds :
  shrinks global (deleteChatMessages global chatId messageIds).
Proof.
  destruct (selectChatMessages global chatId) as [byId|] eqn:Hsel.
  - destruct (deleteChatMessages_stages global chatId messageIds byId Hsel)
      as (global6 & -> & Hshr & _).
    etrans; [exact Hshr|]. apply sameIndex_shrinks, sameIndex_replaceChatMessages.
  - unfold deleteChatMessages. by rewrite Hsel.
Qed.

(** X3: [deleteChatMessages] leaves the selection of every tab and the
    scheduled messages as they are: a selected id that is deleted stays in
    the selection. *)
Theorem deleteChatMessages_keeps_selection global chatId messageIds :
  let global' := deleteChatMessages global chatId messageIds in
  (∀ tabId, tab_selectedMessages (selectTabState global' tabId)
            = tab_selectedMessages (selectTabState global tabId))
  ∧ g_scheduledMessages global' = g_scheduledMessages global.
Proof.
  intros global'. subst global'.
  destruct (selectChatMessages global chatId) as [byId|] eqn:Hsel.
  - destruct (deleteChatMessages_stages global chatId messageIds byId Hsel)
      as (global6 & -> & _ & [Hs Ht] & _).
    split; [|done]. intros tabId. by rewrite <- Ht.
  - unfold deleteChatMessages. by rewrite Hsel.
Qed.

(** ** What deletion does to the main thread *)

Lemma excludeSortedArray_ext base ids ids' :
  (∀ id, id ∈ ids ↔ id ∈ ids') →
  excludeSortedArray base ids = excludeSortedArray base ids'.
Proof.
  intros Hids. unfold excludeSortedArray. apply list_filter_iff. intros id.
  by rewrite Hids.
Qed.

Lemma excludeSortedArray_idemp base ids :
  excludeSortedArray (excludeSortedArray base ids) ids = excludeSortedArray base ids.
Proof.
  unfold excludeSortedArray at 1. apply filter_all. intros id.
  by intros [_ ?]%elem_of_excludeSortedArray.
Qed.

Lemma withoutIds_ext ids ids' viewportIds :
  (∀ id, id ∈ ids ↔ id ∈ ids') →
  withoutIds ids viewportIds = withoutIds ids' viewportIds.
Proof.
  intros Hids. unfold withoutIds. destruct viewportIds as [v|]; [|done]. simpl.
  by rewrite (excludeSortedArray_ext v ids ids').
Qed.

Lemma withoutIds_idemp ids viewportIds :
  withoutIds ids (withoutIds ids viewportIds) = withoutIds ids viewportIds.
Proof.
  unfold withoutIds. destruct viewportIds as [v|]; [|done]. simpl.
  case_bool_decide as Hnil; [done|]. simpl.
  rewrite excludeSortedArray_idemp. by rewrite bool_decide_eq_false_2.
Qed.

Lemma deleteFromViewport_exact global chatId threadId messageIds tabId c t tab :
  selectViewportIds (deleteFromViewport chatId threadId messageIds global tabId) c t tab
  = if bool_decide ((c, t, tab) = (chatId, threadId, tabId))
    then withoutIds messageIds (selectViewportIds global c t tab)
    else selectViewportIds global c t tab.
Proof.
  unfold deleteFromViewport.
  destruct (decide ((c, t, tab) = (chatId, threadId, tabId))) as [Heq|Hne].
  - rewrite (bool_decide_eq_true_2 _ Heq). injection Heq as -> -> ->.
    destruct (selectViewportIds global chatId threadId tabId) as [v|] eqn:Hv.
    + by rewrite selectViewportIds_replaceTabThreadParam_eq.
    + done.
  - rewrite (bool_decide_eq_false_2 _ Hne).
    destruct (selectViewportIds global chatId threadId tabId) as [v|] eqn:Hv;
      [|done].
    by rewrite selectViewportIds_replaceTabThreadParam_ne.
Qed.

Lemma deleteFromViewports_exact chatId threadId messageIds (tabs : list Z)
    global c t tab :
  selectViewportIds (foldl (deleteFromViewport chatId threadId messageIds) global tabs)
                    c t tab
  = if bool_decide ((c, t) = (chatId, threadId) ∧ tab ∈ tabs)
    then withoutIds messageIds (selectViewportIds global c t tab)
    else selectViewportIds global c t tab.
Proof. clear_unused.
  revert global. induction tabs as [|tabId tabs IH]; intros global.
  - cbn [foldl]. rewrite bool_decide_eq_false_2; [done|].
    intros [_ []%elem_of_nil].
  - cbn [foldl]. rewrite IH, deleteFromViewport_exact.
    repeat case_bool_decide; try done; rewrite ?withoutIds_idemp; try done.
    all: exfalso; set_solver.
Qed.

Lemma selectLists_replaceThreadParam_ne global chatId threadId param c t :
  (c, t) ≠ (chatId, threadId) →
  selectListedIds (replaceThreadParam global chatId threadId param) c t
  = selectListedIds global c t
  ∧ selectOutlyingLists (replaceThreadParam global chatId threadId param) c t
    = selectOutlyingLists global c t
  ∧ selectPinnedIds (replaceThreadParam global chatId threadId param) c t
    = selectPinnedIds global c t
  ∧ selectThreadInfo (replaceThreadParam global chatId threadId param) c t
    = selectThreadInfo global c t.
Proof.
  intros Hne.
  unfold selectListedIds, selectOutlyingLists, selectPinnedIds, selectThreadInfo.
  by rewrite selectThread_replaceThreadParam_ne.
Qed.

(** One step of [updatedThreads.forEach], as the id lists and the viewports
    show it: the thread of the entry loses the ids, every other thread is as
    before. *)
Lemma deleteFromThread_exact chatId global messageIds entry :
  let result := deleteFromThread chatId (global, messageIds) entry in
  let threadMessageIds :=
    if bool_decide (entry.1 = MAIN_THREAD_ID) then messageIds else entry.2 in
  (∀ c t,
     selectListedIds result.1 c t
     = if bool_decide ((c, t) = (chatId, entry.1))
       then (λ l, excludeSortedArray l threadMessageIds) <$> selectListedIds global c t
       else selectListedIds global c t)
  ∧ (∀ c t,
       selectOutlyingLists result.1 c t
       = if bool_decide ((c, t) = (chatId, entry.1))
         then (λ lists : list (list Z),
                 (λ l, excludeSortedArray l threadMessageIds) <$> lists)
                <$> selectOutlyingLists global c t
         else selectOutlyingLists global c t)
  ∧ (∀ c t,
       selectPinnedIds result.1 c t
       = if bool_decide ((c, t) = (chatId, entry.1))
         then (λ l, excludeSortedArray l threadMessageIds) <$> selectPinnedIds global c t
         else selectPinnedIds global c t)
  ∧ (∀ c t tab,
       selectViewportIds result.1 c t tab
       = if bool_decide ((c, t) = (chatId, entry.1))
         then withoutIds messageIds (selectViewportIds global c t tab)
         else selectViewportIds global c t tab).
Proof. clear_unused.
  destruct entry as [threadId ids]. unfold deleteFromThread. cbn [fst snd].
  set (T0 := if bool_decide (threadId = MAIN_THREAD_ID) then messageIds else ids).
  set (T1 := match selectPinnedIds global chatId threadId with
             | Some _ => orderPinnedIds T0 | None => T0 end).
  set (M1 := if bool_decide (threadId = MAIN_THREAD_ID) then T1 else messageIds).
  cbv zeta.
  set (ga := foldl (deleteFromViewport chatId threadId M1) global (tabIds global)).
  set (L' := (λ l, excludeSortedArray l T0) <$> selectListedIds global chatId threadId).
  set (O' := (λ lists : list (list Z), (λ l, excludeSortedArray l T0) <$> lists)
               <$> selectOutlyingLists global chatId threadId).
  set (P' := (λ l, excludeSortedArray l T1) <$> selectPinnedIds global chatId threadId).
  set (g1 := replaceThreadParam ga chatId threadId (P_listedIds L')).
  set (g2 := replaceThreadParam g1 chatId threadId (P_outlyingLists O')).
  set (gb := replaceThreadParam g2 chatId threadId (P_pinnedIds P')).
  match goal with |- (∀ c t, selectListedIds ?g c t = _) ∧ _ => set (g' := g) end.
  assert (∀ id, id ∈ T1 ↔ id ∈ T0) as HT1.
  { intros id. unfold T1. destruct (selectPinnedIds _ _ _); [|done].
    apply elem_of_orderPinnedIds. }
  assert (∀ id, id ∈ M1 ↔ id ∈ messageIds) as HM1.
  { intros id. unfold M1, T0 in *. case_bool_decide; [apply HT1|done]. }
  destruct (deleteFromViewports global chatId threadId M1 (tabIds global))
    as (_ & Hsame_a & _). fold ga in Hsame_a.
  assert (sameIndex gb g') as [HL' HO' HP' HV'].
  { unfold g'. destruct (selectThreadInfo global chatId threadId); [|done].
    match goal with |- context [match ?o with _ => _ end] => destruct o end;
      [|done].
    apply sameIndex_updateThreadInfo. }
  split; [|split; [|split]].
  - intros c t. rewrite HL'. case_bool_decide as Heq.
    + injection Heq as -> ->. unfold gb, g2, g1.
      by rewrite !selectListedIds_replaceThreadParam.
    + unfold gb, g2, g1.
      rewrite !(proj1 (selectLists_replaceThreadParam_ne _ _ _ _ _ _ Heq)).
      apply Hsame_a.
  - intros c t. rewrite HO'. case_bool_decide as Heq.
    + injection Heq as -> ->. unfold gb, g2.
      by rewrite !selectOutlyingLists_replaceThreadParam.
    + unfold gb, g2, g1.
      rewrite !(proj1 (proj2 (selectLists_replaceThreadParam_ne _ _ _ _ _ _ Heq))).
      apply Hsame_a.
  - intros c t. rewrite HP'. case_bool_decide as Heq.
    + injection Heq as -> ->. unfold gb.
      rewrite !selectPinnedIds_replaceThreadParam. unfold P'.
      destruct (selectPinnedIds global chatId threadId) as [p|]; [|done]. simpl.
      by rewrite (excludeSortedArray_ext p T1 T0).
    + unfold gb, g2, g1.
      rewrite !(proj1 (proj2 (proj2
                 (selectLists_replaceThreadParam_ne _ _ _ _ _ _ Heq)))).
      apply Hsame_a.
  - intros c t tab. rewrite HV'. unfold gb, g2, g1.
    rewrite !selectViewportIds_replaceThreadParam. unfold ga.
    rewrite deleteFromViewports_exact.
    rewrite (withoutIds_ext M1 messageIds) by done.
    destruct (decide ((c, t) = (chatId, threadId))) as [Heq|Hne].
    + rewrite (bool_decide_eq_true_2 _ Heq).
      destruct (decide (tab ∈ tabIds global)) as [Hin|Hnin].
      * by rewrite bool_decide_eq_true_2.
      * rewrite bool_decide_eq_false_2 by tauto.
        destruct (selectViewportIds global c t tab) as [v|] eqn:Hv; [|done].
        destruct Hnin. by eapply selectViewportIds_tabIds.
    + rewrite (bool_decide_eq_false_2 _ Hne).
      by rewrite bool_decide_eq_false_2 by tauto.
Qed.

(** The entry of the main thread stays the first of [updatedThreads], and no
    other entry is under the key of the main thread. *)
Lemma collectThreads_head chatId byId (messageIds : list Z) global sorted rest :
  MAIN_THREAD_ID ∉ rest.*1 →
  ∃ rest',
    (foldl (collectThread chatId byId) (global, (MAIN_THREAD_ID, sorted) :: rest)
           messageIds).2
    = (MAIN_THREAD_ID, sorted) :: rest'
    ∧ MAIN_THREAD_ID ∉ rest'.*1.
Proof. clear_unused.
  revert global rest. induction messageIds as [|messageId messageIds IH];
    intros global rest Hrest; [by exists rest|].
  cbn [foldl]. unfold collectThread at 2.
  destruct (byId !! messageId) as [message|]; [|by apply IH].
  destruct (truthyNumber (selectThreadIdFromMessage global message))
    as [threadId|]; [|by apply IH].
  case_bool_decide as Hmain; [by apply IH|].
  cbn [aset alookup]. rewrite !bool_decide_eq_false_2 by done.
  apply IH. rewrite elem_of_aset_keys. naive_solver.
Qed.

Lemma deleteFromThreads_others chatId (entries : list (Z * list Z)) global
    messageIds c t :
  (c = chatId → t ∉ entries.*1) →
  let result := foldl (deleteFromThread chatId) (global, messageIds) entries in
  selectListedIds result.1 c t = selectListedIds global c t
  ∧ selectOutlyingLists result.1 c t = selectOutlyingLists global c t
  ∧ selectPinnedIds result.1 c t = selectPinnedIds global c t
  ∧ (∀ tab, selectViewportIds result.1 c t tab = selectViewportIds global c t tab).
Proof. clear_unused.
  revert global messageIds. induction entries as [|entry entries IH];
    intros global messageIds Hkeys; [done|].
  cbn [foldl]. cbv zeta.
  destruct (deleteFromThread chatId (global, messageIds) entry) as [g ids] eqn:Hstep.
  destruct (IH g ids) as (HL & HO & HP & HV).
  { intros Hc. specialize (Hkeys Hc). set_solver. }
  destruct (deleteFromThread_exact chatId global messageIds entry)
    as (HL1 & HO1 & HP1 & HV1).
  rewrite Hstep in HL1, HO1, HP1, HV1. cbn [fst] in *.
  assert ((c, t) ≠ (chatId, entry.1)) as Hne.
  { intros [= -> ->]. apply Hkeys; [done|]. set_solver. }
  rewrite HL, HO, HP, HL1, HO1, HP1.
  rewrite !bool_decide_eq_false_2 by done.
  split; [done|]. split; [done|]. split; [done|].
  intros tab. rewrite HV, HV1. by rewrite bool_decide_eq_false_2.
Qed.

Lemma alookup_pickTruthy_inv (byId : gmap Z JsObj) (keys : list Z)
    (acc : list (Z * JsObj)) k v :
  alookup k
    (foldl (λ result key,
              match byId !! key with
              | Some v => aset key v result
              | None => result
              end) acc keys)
  = Some v →
  (k ∈ keys ∧ byId !! k = Some v) ∨ alookup k acc = Some v.
Proof.
  revert acc. induction keys as [|key keys IH]; intros acc Hlook; [by right|].
  cbn [foldl] in Hlook. apply IH in Hlook as [[Hin Hv]|Hacc].
  - left. split; [by right|done].
  - destruct (byId !! key) as [v'|] eqn:Hkey; [|by right].
    destruct (decide (key = k)) as [->|Hne].
    + rewrite alookup_aset_eq in Hacc. left. split; [by left|congruence].
    + rewrite alookup_aset_ne in Hacc by done. by right.
Qed.

Lemma no_deletedForwardedPosts (byId : gmap Z JsObj) (messageIds : list Z) :
  (∀ id message,
     id ∈ messageIds → byId !! id = Some message →
     isLinkedChannelPost message = false) →
  filter (λ message, isLinkedChannelPost message = true)
         (objectValues (pickTruthy byId messageIds))
  = [].
Proof.
  intros Hnone. apply filter_none. intros message Hin Hpost.
  apply elem_of_objectValues in Hin as [k Hk].
  apply alookup_pickTruthy_inv in Hk as [[Hin Hv]|Hk]; [|done].
  by rewrite (Hnone k message) in Hpost.
Qed.

(** X4: when no stored message of the batch is a linked channel post,
    [deleteChatMessages] takes exactly the given ids out of the main thread
    of the chat: its listed ids, each of its outlying lists and its pinned
    ids keep every other id in its place, the viewport of each tab likewise
    (and is dropped when nothing is left of it), and the threads of the
    other chats keep their lists and viewports. *)
Theorem deleteChatMessages_main_thread global chatId messageIds byId :
  selectChatMessages global chatId = Some byId →
  (∀ id message,
     id ∈ messageIds → byId !! id = Some message →
     isLinkedChannelPost message = false) →
  let global' := deleteChatMessages global chatId messageIds in
  selectListedIds global' chatId MAIN_THREAD_ID
  = (λ l, excludeSortedArray l messageIds)
      <$> selectListedIds global chatId MAIN_THREAD_ID
  ∧ selectOutlyingLists global' chatId MAIN_THREAD_ID
    = (λ lists : list (list Z), (λ l, excludeSortedArray l messageIds) <$> lists)
        <$> selectOutlyingLists global chatId MAIN_THREAD_ID
  ∧ selectPinnedIds global' chatId MAIN_THREAD_ID
    = (λ l, excludeSortedArray l messageIds)
        <$> selectPinnedIds global chatId MAIN_THREAD_ID
  ∧ (∀ tabId,
       selectViewportIds global' chatId MAIN_THREAD_ID tabId
       = withoutIds messageIds (selectViewportIds global chatId MAIN_THREAD_ID tabId))
  ∧ (∀ c t,
       c ≠ chatId →
       selectListedIds global' c t = selectListedIds global c t
       ∧ selectOutlyingLists global' c t = selectOutlyingLists global c t
       ∧ selectPinnedIds global' c t = selectPinnedIds global c t
       ∧ ∀ tabId, selectViewportIds global' c t tabId
                  = selectViewportIds global c t tabId).
Proof.
  intros Hsel Hnone global'. subst global'.
  destruct (deleteChatMessages_unfold global chatId messageIds byId Hsel)
    as (global1 & global5 & ids5 & H1 & H5 & ->).
  set (sorted := orderHistoryIds messageIds) in *.
  assert (∀ id, id ∈ sorted ↔ id ∈ messageIds) as Hsorted.
  { intros id. apply elem_of_orderHistoryIds. }
  rewrite no_deletedForwardedPosts
    by (intros id message Hid; apply Hnone; by apply Hsorted).
  destruct (collectThreads_head chatId byId sorted global sorted [])
    as (rest & Hthreads & Hrest); [by intros ?%elem_of_nil|].
  rewrite H1 in Hthreads. cbn [snd] in Hthreads. rewrite Hthreads in H5.
  cbn [foldl] in H5.
  destruct (deleteFromThread chatId (global1, sorted) (MAIN_THREAD_ID, sorted))
    as [globalM idsM] eqn:HM.
  pose proof (collectThreads_frame chatId byId sorted global
                [(MAIN_THREAD_ID, sorted)]) as Hcollect.
  cbv zeta in Hcollect. rewrite H1 in Hcollect. cbn [fst] in Hcollect.
  destruct Hcollect as [Hm1 Ht1].
  destruct (sameIndex_of_eq _ _ Hm1 Ht1) as [HL1 HO1 HP1 HV1].
  destruct (deleteFromThread_exact chatId global1 sorted (MAIN_THREAD_ID, sorted))
    as (HLM & HOM & HPM & HVM).
  rewrite HM in HLM, HOM, HPM, HVM. cbn [fst snd] in HLM, HOM, HPM, HVM.
  rewrite (bool_decide_eq_true_2 (MAIN_THREAD_ID = MAIN_THREAD_ID)) in HLM, HOM, HPM
    by done.
  destruct (sameIndex_replaceChatMessages global5 chatId (omit byId ids5))
    as [HL6 HO6 HP6 HV6].
  split; [|split; [|split; [|split]]].
  - destruct (deleteFromThreads_others chatId rest globalM idsM chatId MAIN_THREAD_ID)
      as (HL & _); [done|]. rewrite H5 in HL. cbn [fst] in HL.
    rewrite HL6, HL, HLM, bool_decide_eq_true_2, HL1 by done.
    destruct (selectListedIds global chatId MAIN_THREAD_ID) as [l|]; [|done].
    simpl. by rewrite (excludeSortedArray_ext l sorted messageIds).
  - destruct (deleteFromThreads_others chatId rest globalM idsM chatId MAIN_THREAD_ID)
      as (_ & HO & _); [done|]. rewrite H5 in HO. cbn [fst] in HO.
    rewrite HO6, HO, HOM, bool_decide_eq_true_2, HO1 by done.
    destruct (selectOutlyingLists global chatId MAIN_THREAD_ID) as [ls|]; [|done].
    simpl. f_equal. apply list_fmap_ext. intros _ l _.
    by apply excludeSortedArray_ext.
  - destruct (deleteFromThreads_others chatId rest globalM idsM chatId MAIN_THREAD_ID)
      as (_ & _ & HP & _); [done|]. rewrite H5 in HP. cbn [fst] in HP.
    rewrite HP6, HP, HPM, bool_decide_eq_true_2, HP1 by done.
    destruct (selectPinnedIds global chatId MAIN_THREAD_ID) as [l|]; [|done].
    simpl. by rewrite (excludeSortedArray_ext l sorted messageIds).
  - intros tabId.
    destruct (deleteFromThreads_others chatId rest globalM idsM chatId MAIN_THREAD_ID)
      as (_ & _ & _ & HV); [done|]. rewrite H5 in HV. cbn [fst] in HV.
    rewrite HV6, HV, HVM, bool_decide_eq_true_2, HV1 by done.
    by apply withoutIds_ext.
  - intros c t Hne.
    destruct (deleteFromThreads_others chatId rest globalM idsM c t)
      as (HL & HO & HP & HV); [done|]. rewrite H5 in HL, HO, HP, HV.
    cbn [fst] in HL, HO, HP, HV.
    rewrite HL6, HO6, HP6, HL, HO, HP, HLM, HOM, HPM, HL1, HO1, HP1.
    rewrite !bool_decide_eq_false_2 by (intros [= ? ?]; done).
    split; [done|]. split; [done|]. split; [done|].
    intros tabId. rewrite HV6, HV, HVM, HV1.
    by rewrite bool_decide_eq_false_2 by (intros [= ? ?]; done).
Qed.

(** ** The message count of the main thread *)






(** ** Patching a stored message *)

Lemma replaceChatMessages_twice global chatId byId1 byId2 :
  replaceChatMessages (replaceChatMessages global chatId byId1) chatId byId2
  = replaceChatMessages global chatId byId2.
Proof. clear_unused.
  unfold replaceChatMessages, updateMessageStore, set_messages. simpl.
  rewrite lookup_insert_eq, insert_insert_eq. simpl. done.
Qed.

Lemma replaceChatMessages_frame global chatId newById :
  (∀ c t, selectThread (replaceChatMessages global chatId newById) c t
          = selectThread global c t)
  ∧ g_byTabId (replaceChatMessages global chatId newById) = g_byTabId global
  ∧ g_scheduledMessages (replaceChatMessages global chatId newById)
    = g_scheduledMessages global
  ∧ g_other (replaceChatMessages global chatId newById) = g_other global.
Proof. clear_unused.
  split; [|done]. intros c t. apply selectThread_replaceChatMessages.
Qed.

Lemma getProp_mergeMessage message messageUpdate k :
  getProp (mergeMessage (Some message) messageUpdate) k
  = if bool_decide (is_Some (messageUpdate !! k)) then getProp messageUpdate k
    else getProp message k.
Proof. clear_unused.
  unfold getProp, mergeMessage, objSpread. simpl. rewrite lookup_union.
  destruct (messageUpdate !! k) as [v|] eqn:Hk.
  - rewrite bool_decide_eq_true_2 by done. by destruct (message !! k).
  - rewrite bool_decide_eq_false_2 by (by intros [? ?]). by destruct (message !! k).
Qed.

Lemma mergeMessage_twice message messageUpdate :
  mergeMessage (Some (mergeMessage message messageUpdate)) messageUpdate
  = mergeMessage message messageUpdate.
Proof. clear_unused.
  unfold mergeMessage, objSpread. simpl.
  by rewrite (assoc_L (∪)), (idemp_L (∪)).
Qed.

Lemma updateChatMessage_stored global chatId messageId messageUpdate message :
  selectChatMessage global chatId messageId = Some message →
  isFalse (getProp messageUpdate "isMediaUnread") && hasMessageTtl message = false →
  truthy (getProp (mergeMessage (Some message) messageUpdate) "id") = true →
  updateChatMessage global chatId messageId messageUpdate
  = Some (replaceChatMessages global chatId
            (<[messageId := mergeMessage (Some message) messageUpdate]>
               (default ∅ (selectChatMessages global chatId)))).
Proof.
  intros Hmsg Hskip Hid. unfold updateChatMessage.
  rewrite byId_lookup_selectChatMessage, Hmsg. cbv zeta.
  unfold expireMedia. rewrite Hskip. simpl. by rewrite Hid.
Qed.

(** X6: a patch for a stored message that the media-expiry rule does not
    apply to, with a truthy id in the merge: the message is stored under the
    same id with the keys of the patch taken from the patch and every other
    key as it was; no other message, no thread and no tab changes; and
    applying the same patch again changes nothing. *)
Theorem updateChatMessage_patches global chatId messageId messageUpdate message :
  selectChatMessage global chatId messageId = Some message →
  isFalse (getProp messageUpdate "isMediaUnread") && hasMessageTtl message = false →
  truthy (getProp (mergeMessage (Some message) messageUpdate) "id") = true →
  ∃ global' stored,
    updateChatMessage global chatId messageId messageUpdate = Some global'
    ∧ selectChatMessage global' chatId messageId = Some stored
    ∧ (∀ k, getProp stored k
            = if bool_decide (is_Some (messageUpdate !! k))
              then getProp messageUpdate k else getProp message k)
    ∧ (∀ c m, (c, m) ≠ (chatId, messageId) →
         selectChatMessage global' c m = selectChatMessage global c m)
    ∧ (∀ c t, selectThread global' c t = selectThread global c t)
    ∧ g_byTabId global' = g_byTabId global
    ∧ g_scheduledMessages global' = g_scheduledMessages global
    ∧ (isFalse (getProp messageUpdate "isMediaUnread") && hasMessageTtl stored = false →
       updateChatMessage global' chatId messageId messageUpdate = Some global').
Proof.
  intros Hmsg Hskip Hid.
  rewrite (updateChatMessage_stored _ _ _ _ _ Hmsg Hskip Hid).
  set (stored := mergeMessage (Some message) messageUpdate) in *.
  set (byId := default ∅ (selectChatMessages global chatId)).
  exists (replaceChatMessages global chatId (<[messageId := stored]> byId)), stored.
  assert (selectChatMessage
            (replaceChatMessages global chatId (<[messageId := stored]> byId))
            chatId messageId = Some stored) as Hstored.
  { rewrite selectChatMessage_replaceChatMessages_eq. apply lookup_insert_eq. }
  destruct (replaceChatMessages_frame global chatId (<[messageId := stored]> byId))
    as (Hthreads & Htabs & Hsched & _).
  split; [done|]. split; [done|]. split; [apply getProp_mergeMessage|].
  split; [|split; [done|split; [done|split; [done|]]]].
  - intros c m Hne. destruct (decide (c = chatId)) as [->|Hc].
    + rewrite selectChatMessage_replaceChatMessages_eq.
      rewrite lookup_insert_ne by congruence.
      apply byId_lookup_selectChatMessage.
    + unfold selectChatMessage.
      by rewrite selectChatMessages_replaceChatMessages_ne.
  - intros Hskip'.
    rewrite (updateChatMessage_stored _ _ _ _ stored Hstored Hskip').
    + f_equal. rewrite selectChatMessages_replaceChatMessages_eq. cbn [default from_option].
      unfold id. unfold stored at 2. rewrite mergeMessage_twice.
      fold stored. by rewrite insert_insert_eq, replaceChatMessages_twice.
    + unfold stored. by rewrite mergeMessage_twice.
Qed.

(** X7: marking a stored message with a time to live as played.  If its
    content has a voice, the stored content becomes the content of the patch
    with [voice] undefined and [isExpiredVoice] set; if it has no voice but
    a round video, likewise with [video] and [isExpiredRoundVideo]; the keys
    of the old content are not kept.  The other keys are patched as usual.
    A stored message without content is a TypeError. *)
Theorem updateChatMessage_expires global chatId messageId messageUpdate message :
  selectChatMessage global chatId messageId = Some message →
  isFalse (getProp messageUpdate "isMediaUnread") = true →
  hasMessageTtl message = true →
  let content := getProp message "content" in
  let patched := mergeMessage (Some message) messageUpdate in
  let expired (media marker : string) global' :=
    ∃ stored,
      selectChatMessage global' chatId messageId = Some stored
      ∧ getProp stored "content"
        = JObj (<[marker := JBool true]>
                  (<[media := JUndefined]>
                     (spreadVal (getProp messageUpdate "content"))))
      ∧ ∀ k, k ≠ "content" → getProp stored k = getProp patched k in
  (content = JUndefined ∨ content = JNull →
   updateChatMessage global chatId messageId messageUpdate = None)
  ∧ (truthy (getProp patched "id") = true →
     truthy (optProp content "voice") = true →
     ∃ global',
       updateChatMessage global chatId messageId messageUpdate = Some global'
       ∧ expired "voice" "isExpiredVoice" global')
  ∧ (truthy (getProp patched "id") = true →
     content ≠ JUndefined → content ≠ JNull →
     truthy (optProp content "voice") = false →
     truthy (optProp (optProp content "video") "isRound") = true →
     ∃ global',
       updateChatMessage global chatId messageId messageUpdate = Some global'
       ∧ expired "video" "isExpiredRoundVideo" global').
Proof.
  intros Hmsg Hread Httl content patched expired.
  unfold updateChatMessage.
  rewrite byId_lookup_selectChatMessage, Hmsg. cbv zeta.
  unfold expireMedia. rewrite Hread, Httl. cbn [andb]. fold content.
  split; [|split].
  - by intros [-> | ->].
  - intros Hid Hvoice.
    assert (readProp content "voice" = Some (optProp content "voice")) as ->.
    { by destruct content. }
    cbn [mbind option_bind]. rewrite Hvoice. cbn [mbind option_bind].
    rewrite getProp_mergeMessage_content by done. fold patched. rewrite Hid.
    cbn [negb]. eexists. split; [done|].
    eexists. split; [|split].
    + rewrite selectChatMessage_replaceChatMessages_eq. apply lookup_insert_eq.
    + unfold getProp, mergeMessage, objSpread.
      rewrite lookup_union, lookup_insert_eq.
      by destruct (default ∅ (Some message) !! "content").
    + intros k Hk. by apply getProp_mergeMessage_content.
  - intros Hid Hundef Hnull Hvoice Hround.
    assert (readProp content "voice" = Some (optProp content "voice")) as ->.
    { by destruct content. }
    cbn [mbind option_bind]. rewrite Hvoice, Hround. cbn [mbind option_bind].
    rewrite getProp_mergeMessage_content by done. fold patched. rewrite Hid.
    cbn [negb]. eexists. split; [done|].
    eexists. split; [|split].
    + rewrite selectChatMessage_replaceChatMessages_eq. apply lookup_insert_eq.
    + unfold getProp, mergeMessage, objSpread.
      rewrite lookup_union, lookup_insert_eq.
      by destruct (default ∅ (Some message) !! "content").
    + intros k Hk. by apply getProp_mergeMessage_content.
Qed.

(** ** The listed ids *)

Lemma updateListedIds_unfold global chatId threadId idsUpdate :
  let listedIds := selectListedIds global chatId threadId in
  let newIds :=
    filter (λ id, includes (default [] listedIds) id = false) idsUpdate in
  updateListedIds global chatId threadId idsUpdate
  = if bool_decide (is_Some listedIds ∧ newIds = []) then global
    else replaceThreadParam global chatId threadId
           (P_listedIds (Some (orderHistoryIds (default [] listedIds ++ newIds)))).
Proof. clear_unused.
  cbv zeta. unfold updateListedIds.
  assert (filter (λ id, includes [] id = false) idsUpdate = idsUpdate) as Hall.
  { apply filter_all. intros id _. unfold includes.
    apply bool_decide_eq_false_2, not_elem_of_nil. }
  destruct (selectListedIds global chatId threadId) as [[|x l]|] eqn:Hold;
    cbn [default from_option]; unfold id.
  - rewrite Hall. destruct idsUpdate as [|y ys].
    + by rewrite bool_decide_eq_true_2.
    + by rewrite bool_decide_eq_false_2 by (by intros [_ ?]).
  - set (newIds := filter _ idsUpdate). clearbody newIds.
    destruct newIds as [|y ys].
    + by rewrite bool_decide_eq_true_2.
    + by rewrite bool_decide_eq_false_2 by (by intros [_ ?]).
  - rewrite Hall.
    rewrite bool_decide_eq_false_2 by (by intros [[? ?] _]).
    by destruct idsUpdate.
Qed.

Lemma Sorted_orderHistoryIds ids : Sorted Z.le (orderHistoryIds ids).
Proof. clear_unused. apply (Sorted_merge_sort Z.le). Qed.

Lemma orderHistoryIds_Permutation ids : orderHistoryIds ids ≡ₚ ids.
Proof. clear_unused. apply merge_sort_Permutation. Qed.

(** X8: after [updateListedIds] the thread has listed ids, and they are the
    ids listed before together with the ids of the update.  When the call
    changes the state the new list is in ascending order; no id is listed
    twice if none was before and the update names none twice.  No other
    thread, no message and no tab changes, and applying the same update
    again changes nothing. *)
Theorem updateListedIds_merges global chatId threadId idsUpdate :
  let listedIds := default [] (selectListedIds global chatId threadId) in
  let global' := updateListedIds global chatId threadId idsUpdate in
  (∃ listedIds',
     selectListedIds global' chatId threadId = Some listedIds'
     ∧ (∀ id, id ∈ listedIds' ↔ id ∈ listedIds ∨ id ∈ idsUpdate)
     ∧ (global' ≠ global → Sorted Z.le listedIds')
     ∧ (Sorted Z.le listedIds → Sorted Z.le listedIds')
     ∧ (NoDup listedIds → NoDup idsUpdate → NoDup listedIds'))
  ∧ (∀ c t, (c, t) ≠ (chatId, threadId) →
       selectThread global' c t = selectThread global c t)
  ∧ (∀ c m, selectChatMessage global' c m = selectChatMessage global c m)
  ∧ g_byTabId global' = g_byTabId global
  ∧ updateListedIds global' chatId threadId idsUpdate = global'.
Proof. clear_unused.
  intros listedIds global'. subst global'.
  pose proof (updateListedIds_unfold global chatId threadId idsUpdate) as Hunfold.
  cbv zeta in Hunfold. fold listedIds in Hunfold.
  set (newIds := filter (λ id, includes listedIds id = false) idsUpdate) in *.
  assert (∀ id, id ∈ newIds ↔ (id ∉ listedIds) ∧ id ∈ idsUpdate) as Hnew_mem.
  { intros id. unfold newIds, includes.
    by rewrite list_elem_of_filter, bool_decide_eq_false. }
  assert (∀ id, id ∈ listedIds ++ newIds ↔ id ∈ listedIds ∨ id ∈ idsUpdate) as Hmem.
  { intros id. rewrite elem_of_app, Hnew_mem.
    destruct (decide (id ∈ listedIds)); naive_solver. }
  assert (NoDup listedIds → NoDup idsUpdate → NoDup (listedIds ++ newIds)) as Hnodup.
  { intros Hold Hupd. apply NoDup_app. split; [done|]. split.
    - intros id Hin [Hnin _]%Hnew_mem. done.
    - by apply NoDup_filter. }
  case_bool_decide as Hsame.
  - destruct Hsame as [[l Hl] Hnil]. rewrite Hunfold.
    assert (listedIds = l) as Hlisted by (unfold listedIds; by rewrite Hl).
    split; [|split; [done|split; [done|split; [done|]]]].
    + exists l. split; [done|]. rewrite <- Hlisted. split; [|done].
      intros id. rewrite <- Hmem, Hnil. by rewrite (right_id_L [] (++)).
    + rewrite (updateListedIds_unfold global chatId threadId idsUpdate).
      cbv zeta. fold listedIds. fold newIds.
      rewrite bool_decide_eq_true_2; [done|]. split; [by exists l|done].
  - rewrite Hunfold.
    set (sorted := orderHistoryIds (listedIds ++ newIds)).
    assert (selectListedIds
              (replaceThreadParam global chatId threadId (P_listedIds (Some sorted)))
              chatId threadId = Some sorted) as Hnew.
    { by rewrite selectListedIds_replaceThreadParam. }
    split; [|split; [|split; [|split]]].
    + exists sorted. split; [done|]. split; [|split; [|split]].
      * intros id. unfold sorted. by rewrite elem_of_orderHistoryIds.
      * intros _. apply Sorted_orderHistoryIds.
      * intros _. apply Sorted_orderHistoryIds.
      * intros Hold Hupd. unfold sorted. rewrite orderHistoryIds_Permutation.
        by apply Hnodup.
    + intros c t Hne. by apply selectThread_replaceThreadParam_ne.
    + intros c m. apply selectChatMessage_updateThread.
    + apply g_byTabId_updateThread.
    + rewrite (updateListedIds_unfold _ chatId threadId idsUpdate).
      cbv zeta. rewrite Hnew. cbn [default from_option]. unfold id.
      rewrite bool_decide_eq_true_2; [done|]. split; [done|].
      apply filter_none. intros id Hid Hnin.
      unfold includes in Hnin. apply bool_decide_eq_false in Hnin. apply Hnin.
      unfold sorted. rewrite elem_of_orderHistoryIds, Hmem. by right.
Qed.

(** ** The message lists of a tab *)

Lemma aset_same {V} (k : Z) (v : V) (l : list (Z * V)) :
  alookup k l = Some v → aset k v l = l.
Proof. clear_unused.
  induction l as [|[k' v'] l IH]; [done|]. cbn [alookup aset].
  case_bool_decide as Hk; [by intros [= ->]; subst|].
  intros Hl. by rewrite IH.
Qed.

Lemma alookup_updateTabState global update tabId :
  alookup tabId (g_byTabId (updateTabState global update tabId))
  = Some (spreadTabState (selectTabState global tabId) update).
Proof. clear_unused. unfold updateTabState. simpl. apply alookup_aset_eq. Qed.

Lemma updateTabState_same global tabId tabState messageLists :
  alookup tabId (g_byTabId global) = Some tabState →
  tab_messageLists tabState = messageLists →
  updateTabState global
    {| tsu_messageLists := Some messageLists; tsu_tabThreads := None;
       tsu_selectedMessages := None; tsu_other := ∅ |} tabId
  = global.
Proof. clear_unused.
  intros Htab Hlists.
  assert (selectTabState global tabId = tabState) as Hsel.
  { unfold selectTabState. by rewrite Htab. }
  unfold updateTabState. rewrite Hsel.
  assert (spreadTabState tabState
            {| tsu_messageLists := Some messageLists; tsu_tabThreads := None;
               tsu_selectedMessages := None; tsu_other := ∅ |} = tabState) as ->.
  { destruct tabState. unfold spreadTabState, objSpread. simpl in *. subst.
    by rewrite (left_id_L ∅ (∪)). }
  rewrite aset_same by done. by destruct global.
Qed.

Lemma jsSlice_init {A} (l : list A) : jsSlice l 0 (-1) = take (length l - 1) l.
Proof. clear_unused.
  unfold jsSlice, relIndex. simpl.
  replace (Z.to_nat (0 `min` Z.of_nat (length l))) with 0%nat by lia.
  rewrite drop_0. f_equal. lia.
Qed.

Lemma jsSlice_init_snoc {A} (l : list A) x : jsSlice (l ++ [x]) 0 (-1) = l.
Proof. clear_unused.
  rewrite jsSlice_init, length_app. simpl.
  replace (length l + 1 - 1)%nat with (length l) by lia.
  by rewrite take_app_length.
Qed.

(** The message lists [updateCurrentMessageList] leaves in the tab. *)
Lemma messageLists_updateCurrentMessageList global chatId threadId type
    shouldReplaceHistory shouldReplaceLast tabId :
  ∃ newMessageLists,
    updateCurrentMessageList global chatId threadId type shouldReplaceHistory
      shouldReplaceLast tabId
    = updateTabState global
        {| tsu_messageLists := Some newMessageLists; tsu_tabThreads := None;
           tsu_selectedMessages := None; tsu_other := ∅ |} tabId
    ∧ tab_messageLists
        (selectTabState
           (updateCurrentMessageList global chatId threadId type
              shouldReplaceHistory shouldReplaceLast tabId) tabId)
      = newMessageLists.
Proof.
  unfold updateCurrentMessageList. cbv zeta. eexists. split; [done|].
  by rewrite selectTabState_updateTabState_eq.
Qed.

(** Opening the list a tab already shows changes nothing. *)
Lemma updateCurrentMessageList_current global chatId threadId type
    shouldReplaceHistory shouldReplaceLast tabId tabState :
  chatId ≠ "" →
  let entry :=
    {| ml_chatId := chatId; ml_threadId := default MAIN_THREAD_ID threadId;
       ml_type := default ListThread type |} in
  alookup tabId (g_byTabId global) = Some tabState →
  (if shouldReplaceHistory || (IS_TEST && negb IS_MOCKED_CLIENT)
   then tab_messageLists tabState = [entry]
   else lastElem (tab_messageLists tabState) = Some entry) →
  updateCurrentMessageList global (Some chatId) threadId type shouldReplaceHistory
    shouldReplaceLast tabId
  = global.
Proof.
  intros Hne entry Htab Hcurrent. unfold updateCurrentMessageList. cbv zeta.
  apply (updateTabState_same _ _ tabState); [done|].
  assert (selectTabState global tabId = tabState) as ->.
  { unfold selectTabState. by rewrite Htab. }
  cbn [truthyString]. rewrite bool_decide_eq_false_2 by done.
  destruct (shouldReplaceHistory || (IS_TEST && negb IS_MOCKED_CLIENT)); [done|].
  rewrite Hcurrent. unfold entry. cbn [ml_chatId ml_threadId ml_type].
  by repeat (rewrite bool_decide_eq_true_2 by done).
Qed.

Lemma lastElem_opened global chatId threadId type shouldReplaceHistory
    shouldReplaceLast tabId :
  chatId ≠ "" →
  let entry :=
    {| ml_chatId := chatId; ml_threadId := default MAIN_THREAD_ID threadId;
       ml_type := default ListThread type |} in
  let messageLists :=
    tab_messageLists
      (selectTabState
         (updateCurrentMessageList global (Some chatId) threadId type
            shouldReplaceHistory shouldReplaceLast tabId) tabId) in
  if shouldReplaceHistory || (IS_TEST && negb IS_MOCKED_CLIENT)
  then messageLists = [entry]
  else lastElem messageLists = Some entry.
Proof.
  intros Hne entry. cbv zeta. unfold updateCurrentMessageList.
  rewrite selectTabState_updateTabState_eq. cbv zeta.
  cbn [spreadTabState tab_messageLists tsu_messageLists truthyString].
  simpl (default _ (Some _)).
  rewrite bool_decide_eq_false_2 by done. fold entry.
  destruct (shouldReplaceHistory || (IS_TEST && negb IS_MOCKED_CLIENT)); [done|].
  unfold lastElem.
  destruct (last (tab_messageLists (selectTabState global tabId)))
    as [[c t ty]|] eqn:Hlast; [|apply last_snoc].
  cbn [ml_chatId ml_threadId ml_type].
  destruct (decide ({| ml_chatId := c; ml_threadId := t; ml_type := ty |} = entry))
    as [Heq|Hdiff].
  - injection Heq as -> -> ->. repeat (rewrite bool_decide_eq_true_2 by done).
    cbn [negb orb]. exact Hlast.
  - assert (negb (bool_decide (c = chatId))
            || negb (bool_decide (t = default MAIN_THREAD_ID threadId))
            || negb (bool_decide (ty = default ListThread type)) = true) as ->.
    { repeat case_bool_decide; try done. subst. by destruct Hdiff. }
    destruct (_ || shouldReplaceLast); apply last_snoc.
Qed.

(** X9: opening a message list.  For a chat id that is not empty, the tab
    then shows the list of the call, whatever the flags are; the other tabs,
    the tab threads and the selection of the tab and the message store are as
    before; and opening the same list again changes nothing. *)
Theorem updateCurrentMessageList_opens global chatId threadId type
    shouldReplaceHistory shouldReplaceLast tabId :
  chatId ≠ "" →
  let global' :=
    updateCurrentMessageList global (Some chatId) threadId type
      shouldReplaceHistory shouldReplaceLast tabId in
  selectCurrentMessageList global' tabId
  = Some {| ml_chatId := chatId; ml_threadId := default MAIN_THREAD_ID threadId;
            ml_type := default ListThread type |}
  ∧ updateCurrentMessageList global' (Some chatId) threadId type
      shouldReplaceHistory shouldReplaceLast tabId
    = global'
  ∧ (∀ tabId', tabId' ≠ tabId →
       selectTabState global' tabId' = selectTabState global tabId')
  ∧ tab_tabThreads (selectTabState global' tabId)
    = tab_tabThreads (selectTabState global tabId)
  ∧ tab_selectedMessages (selectTabState global' tabId)
    = tab_selectedMessages (selectTabState global tabId)
  ∧ g_messages global' = g_messages global
  ∧ g_scheduledMessages global' = g_scheduledMessages global.
Proof.
  intros Hne global'.
  pose proof (lastElem_opened global chatId threadId type shouldReplaceHistory
                shouldReplaceLast tabId Hne) as Hlast.
  cbv zeta in Hlast. fold global' in Hlast.
  split; [|split; [|split; [|split; [|split]]]].
  - unfold selectCurrentMessageList.
    destruct (shouldReplaceHistory || (IS_TEST && negb IS_MOCKED_CLIENT));
      [by rewrite Hlast|done].
  - eapply updateCurrentMessageList_current; [done| |].
    + unfold global', updateCurrentMessageList. cbv zeta.
      apply alookup_updateTabState.
    + unfold global', updateCurrentMessageList in Hlast. cbv zeta in Hlast.
      rewrite selectTabState_updateTabState_eq in Hlast. exact Hlast.
  - intros tabId' Hne'. by apply selectTabState_updateCurrentMessageList_ne.
  - unfold global', updateCurrentMessageList. cbv zeta.
    by rewrite selectTabState_updateTabState_eq.
  - unfold global', updateCurrentMessageList. cbv zeta.
    by rewrite selectTabState_updateTabState_eq.
  - done.
Qed.

(** X10: going back.  Outside the test mode, [updateCurrentMessageList]
    without a chat id drops the last message list of the tab.  After a list
    was opened that the tab did not show, without replacing the last one,
    going back restores the message lists of the tab; after the list the tab
    already showed was opened, going back leaves that list. *)
Theorem updateCurrentMessageList_back global chatId threadId type tabId :
  IS_TEST && negb IS_MOCKED_CLIENT = false →
  chatId ≠ "" →
  let messageLists := tab_messageLists (selectTabState global tabId) in
  let entry :=
    {| ml_chatId := chatId; ml_threadId := default MAIN_THREAD_ID threadId;
       ml_type := default ListThread type |} in
  let opened :=
    updateCurrentMessageList global (Some chatId) threadId type false false tabId in
  let back global :=
    updateCurrentMessageList global None None None false false tabId in
  tab_messageLists (selectTabState (back global) tabId)
  = take (length messageLists - 1) messageLists
  ∧ ((∀ last, lastElem messageLists = Some last →
        last ≠ entry ∧ ml_chatId last ≠ TMP_CHAT_ID) →
     tab_messageLists (selectTabState (back opened) tabId) = messageLists)
  ∧ (lastElem messageLists = Some entry →
     tab_messageLists (selectTabState (back opened) tabId)
     = take (length messageLists - 1) messageLists).
Proof.
  intros Hmode Hne messageLists entry opened back.
  assert (∀ g, tab_messageLists (selectTabState (back g) tabId)
               = take (length (tab_messageLists (selectTabState g tabId)) - 1)
                      (tab_messageLists (selectTabState g tabId))) as Hback.
  { intros g. unfold back, updateCurrentMessageList. cbv zeta.
    rewrite selectTabState_updateTabState_eq. rewrite Hmode.
    cbn [orb truthyString spreadTabState tab_messageLists tsu_messageLists].
    simpl (default _ (Some _)). apply jsSlice_init. }
  assert (tab_messageLists (selectTabState opened tabId)
          = match lastElem messageLists with
            | None => messageLists ++ [entry]
            | Some last =>
                if decide (last = entry) then messageLists
                else if bool_decide (ml_chatId last = TMP_CHAT_ID)
                     then jsSlice messageLists 0 (-1) ++ [entry]
                     else messageLists ++ [entry]
            end) as Hopened.
  { unfold opened, updateCurrentMessageList. cbv zeta.
    rewrite selectTabState_updateTabState_eq. rewrite Hmode.
    cbn [orb truthyString spreadTabState tab_messageLists tsu_messageLists].
    simpl (default _ (Some _)).
    rewrite bool_decide_eq_false_2 by done. fold messageLists. fold entry.
    destruct (lastElem messageLists) as [[c t ty]|]; [|done].
    cbn [ml_chatId ml_threadId ml_type].
    destruct (decide ({| ml_chatId := c; ml_threadId := t; ml_type := ty |} = entry))
      as [Heq|Hdiff].
    - injection Heq as -> -> ->. by repeat (rewrite bool_decide_eq_true_2 by done).
    - assert (negb (bool_decide (c = chatId))
              || negb (bool_decide (t = default MAIN_THREAD_ID threadId))
              || negb (bool_decide (ty = default ListThread type)) = true) as ->.
      { repeat case_bool_decide; try done. subst. by destruct Hdiff. }
      by rewrite orb_false_r. }
  split; [apply Hback|]. split.
  - intros Hlast. rewrite Hback, Hopened.
    destruct (lastElem messageLists) as [last|] eqn:Hl.
    + destruct (Hlast last eq_refl) as [Hdiff Htmp].
      rewrite decide_False by done. rewrite bool_decide_eq_false_2 by done.
      rewrite <- jsSlice_init. apply jsSlice_init_snoc.
    + rewrite <- jsSlice_init. apply jsSlice_init_snoc.
  - intros Hlast. rewrite Hback, Hopened, Hlast. by rewrite decide_True.
Qed.

(** ** Selecting and unselecting *)

Lemma aset_aset {V} (k : Z) (v v' : V) (l : list (Z * V)) :
  aset k v (aset k v' l) = aset k v l.
Proof. clear_unused.
  induction l as [|[k' w] l IH]; cbn [aset].
  - by rewrite bool_decide_eq_true_2.
  - case_bool_decide as Hk; cbn [aset].
    + by rewrite bool_decide_eq_true_2.
    + rewrite bool_decide_eq_false_2 by done. by rewrite IH.
Qed.

Lemma updateTabState_twice global update1 update2 tabId :
  updateTabState (updateTabState global update1 tabId) update2 tabId
  = set_byTabId global
      (aset tabId
         (spreadTabState (spreadTabState (selectTabState global tabId) update1)
                         update2)
         (g_byTabId global)).
Proof. clear_unused.
  unfold updateTabState at 1. rewrite selectTabState_updateTabState_eq.
  unfold updateTabState, set_byTabId. simpl. by rewrite aset_aset.
Qed.

Lemma selected_tab_exists global tabId old :
  tab_selectedMessages (selectTabState global tabId) = Some old →
  alookup tabId (g_byTabId global) = Some (selectTabState global tabId).
Proof. clear_unused.
  unfold selectTabState. by destruct (alookup tabId (g_byTabId global)).
Qed.

Lemma filter_includes_app_r (old ids : list Z) :
  (∀ id, id ∈ ids → id ∉ old) →
  filter (λ id, includes ids id = false) (old ++ ids) = old.
Proof. clear_unused.
  intros Hdisjoint. rewrite filter_app.
  rewrite (filter_all _ old), (filter_none _ ids).
  - by rewrite (right_id_L [] (++)).
  - intros id Hid. unfold includes. by rewrite bool_decide_eq_true_2.
  - intros id Hid. unfold includes. apply bool_decide_eq_false_2.
    intros Hin. by apply (Hdisjoint id).
Qed.

(** X11: toggling twice.  With a selection that is not empty, toggling ids
    that are not selected (a message id, or the ids of its children) without
    shift adds them at the end of the selection and keeps its chat id;
    toggling the same ids again, with or without shift, gives back the
    state before the first toggle. *)
Theorem toggleMessageSelection_twice global chatId threadId type messageId
    childMessageIds withShift tabId old :
  tab_selectedMessages (selectTabState global tabId) = Some old →
  sel_messageIds old ≠ [] →
  let ids := default [messageId] childMessageIds in
  (∀ id, id ∈ ids → id ∉ sel_messageIds old) →
  ∃ global1,
    toggleMessageSelection global chatId threadId type messageId None
      childMessageIds false tabId
    = Some global1
    ∧ tab_selectedMessages (selectTabState global1 tabId)
      = Some {| sel_chatId := sel_chatId old;
                sel_messageIds := sel_messageIds old ++ ids |}
    ∧ toggleMessageSelection global1 chatId threadId type messageId None
        childMessageIds withShift tabId
      = Some global.
Proof.
  intros Hold Hnonempty ids Hdisjoint.
  assert (filter (λ id, includes (sel_messageIds old) id = false) ids = ids) as Hnew.
  { apply filter_all. intros id Hid. unfold includes.
    apply bool_decide_eq_false_2. by apply Hdisjoint. }
  assert (toggleMessageSelection global chatId threadId type messageId None
            childMessageIds false tabId
          = Some (updateTabState global
                    (selection {| sel_chatId := sel_chatId old;
                                  sel_messageIds := sel_messageIds old ++ ids |})
                    tabId)) as Hfirst.
  { unfold toggleMessageSelection. rewrite Hold. cbn [truthyString]. cbv zeta.
    fold ids. rewrite Hnew.
    destruct ids as [|id ids'] eqn:Hids.
    - cbn [mbind option_bind]. rewrite (right_id_L [] (++)).
      rewrite (filter_all _ (sel_messageIds old))
        by (intros ? _; unfold includes; apply bool_decide_eq_false_2,
              not_elem_of_nil).
      by destruct (sel_messageIds old).
    - cbn [mbind option_bind].
      by destruct (sel_messageIds old ++ id :: ids') eqn:Happ;
        [destruct (sel_messageIds old)|]. }
  eexists. split; [exact Hfirst|]. split; [apply selected_updateTabState|].
  unfold toggleMessageSelection. rewrite selected_updateTabState.
  cbn [truthyString sel_messageIds sel_chatId]. cbv zeta. fold ids.
  rewrite (filter_none _ ids).
  2: { intros id Hid. unfold includes.
       rewrite bool_decide_eq_true_2; [done|]. apply elem_of_app. by right. }
  cbn [mbind option_bind]. rewrite filter_includes_app_r by done.
  destruct (sel_messageIds old) as [|id0 rest] eqn:Hids0; [done|].
  f_equal. rewrite updateTabState_twice.
  pose proof (selected_tab_exists global tabId old Hold) as Htab.
  set (tabState := selectTabState global tabId) in *.
  assert (spreadTabState
            (spreadTabState tabState
               (selection {| sel_chatId := sel_chatId old;
                             sel_messageIds := (id0 :: rest) ++ ids |}))
            (selection {| sel_chatId := sel_chatId old;
                          sel_messageIds := id0 :: rest |})
          = tabState) as ->.
  { destruct tabState, old. unfold spreadTabState, selection, objSpread.
    simpl in *. rewrite !(left_id_L ∅ (∪)). by subst. }
  rewrite aset_same by done. by destruct global.
Qed.

(** ** The unread count of a comments thread *)




(** [updateThreadUnreadFromForwardedMessage] changes nothing when the
    message has no truthy [channelPostId] or no truthy [fromChatId] in its
    forward info (a message that was not forwarded among them), and when
    the thread of the post has no info in the chat. *)
Lemma updateThreadUnreadFromForwardedMessage_skips global originMessage chatId
    lastMessageId isDeleting :
  let forwardInfo := getProp originMessage "forwardInfo" in
  truthy (optProp forwardInfo "channelPostId") = false
  ∨ truthy (optProp forwardInfo "fromChatId") = false
  ∨ (∀ postId, optProp forwardInfo "channelPostId" = JNum postId →
       selectThreadInfo global chatId postId = None) →
  updateThreadUnreadFromForwardedMessage global originMessage chatId
    lastMessageId isDeleting
  = global.
Proof. clear_unused.
  intros forwardInfo Hskip. unfold updateThreadUnreadFromForwardedMessage.
  cbv zeta. fold forwardInfo.
  destruct Hskip as [-> | [-> | Hnone]]; [done|by rewrite andb_false_r|].
  destruct (_ && _); [|done].
  destruct (optProp forwardInfo "channelPostId") as [| | |postId| |]; try done.
  cbn [toNumberKey]. by rewrite (Hnone postId eq_refl).
Qed.

(** ** Adding messages *)

Lemma selectChatMessages_addChatMessagesById global chatId newById c :
  selectChatMessages (addChatMessagesById global chatId newById) c
  = if bool_decide (c = chatId)
    then Some (default ∅ (selectChatMessages global chatId) ∪ newById)
    else selectChatMessages global c.
Proof. clear_unused.
  destruct (addChatMessagesById_cases global chatId newById)
    as [(-> & byId & Hsel & Hpresent) | ->].
  - case_bool_decide as Hc; [subst c|done]. rewrite Hsel. f_equal. simpl.
    apply map_eq. intros id. rewrite lookup_union.
    destruct (byId !! id) as [m|] eqn:Hm.
    + by destruct (newById !! id).
    + destruct (newById !! id) as [m|] eqn:Hnew; [|done].
      destruct (Hpresent id) as [m' Hm']; [by eexists|]. congruence.
  - case_bool_decide as Hc; [subst c|].
    + by rewrite selectChatMessages_replaceChatMessages_eq.
    + by rewrite selectChatMessages_replaceChatMessages_ne.
Qed.

Lemma addChatMessagesById_frame global chatId newById :
  (∀ c t, selectThread (addChatMessagesById global chatId newById) c t
          = selectThread global c t)
  ∧ g_byTabId (addChatMessagesById global chatId newById) = g_byTabId global
  ∧ g_scheduledMessages (addChatMessagesById global chatId newById)
    = g_scheduledMessages global
  ∧ g_other (addChatMessagesById global chatId newById) = g_other global.
Proof. clear_unused.
  destruct (addChatMessagesById_cases global chatId newById)
    as [(-> & _) | ->]; [done|].
  apply replaceChatMessages_frame.
Qed.

Lemma addChatMessages_fold (entries : list (string * gmap Z JsObj)) global c :
  NoDup entries.*1 →
  selectChatMessages
    (foldl (λ global entry, addChatMessagesById global entry.1 entry.2)
           global entries) c
  = match (list_to_map entries : gmap string (gmap Z JsObj)) !! c with
    | Some newById => Some (default ∅ (selectChatMessages global c) ∪ newById)
    | None => selectChatMessages global c
    end.
Proof. clear_unused.
  revert global. induction entries as [|[k v] entries IH]; intros global Hnodup;
    [done|].
  apply NoDup_cons in Hnodup as [Hk Hnodup]. cbn [foldl fst snd].
  rewrite IH by done. rewrite list_to_map_cons.
  rewrite selectChatMessages_addChatMessagesById.
  destruct (decide (c = k)) as [->|Hne].
  - rewrite bool_decide_eq_true_2 by done. rewrite lookup_insert_eq.
    by rewrite (not_elem_of_list_to_map_1 _ _ Hk).
  - rewrite bool_decide_eq_false_2 by done. by rewrite lookup_insert_ne.
Qed.

Lemma addChatMessages_fold_frame (entries : list (string * gmap Z JsObj)) global :
  let global' :=
    foldl (λ global entry, addChatMessagesById global entry.1 entry.2)
          global entries in
  (∀ c t, selectThread global' c t = selectThread global c t)
  ∧ g_byTabId global' = g_byTabId global
  ∧ g_scheduledMessages global' = g_scheduledMessages global
  ∧ g_other global' = g_other global.
Proof. clear_unused.
  revert global. induction entries as [|[k v] entries IH]; intros global; [done|].
  cbn [foldl fst snd]. cbv zeta.
  destruct (IH (addChatMessagesById global k v)) as (H1 & H2 & H3 & H4).
  destruct (addChatMessagesById_frame global k v) as (H1' & H2' & H3' & H4').
  split; [intros c t; by rewrite H1|]. split; [congruence|].
  split; congruence.
Qed.

Lemma lookup_groupMessages (messages : list JsObj) acc c id :
  foldl groupMessage acc messages !! c ≫= (λ chatMessages, chatMessages !! id)
  = match lastOf c id messages with
    | Some message => Some message
    | None => acc !! c ≫= (λ chatMessages, chatMessages !! id)
    end.
Proof. clear_unused.
  revert acc. induction messages as [|message messages IH]; intros acc; [done|].
  cbn [foldl]. rewrite IH. unfold lastOf. rewrite filter_cons.
  set (rest := filter _ messages).
  assert (groupMessage acc message !! c ≫= (λ chatMessages, chatMessages !! id)
          = if decide (messageChatId message = c ∧ messageKey message = Some id)
            then Some message
            else acc !! c ≫= (λ chatMessages, chatMessages !! id)) as ->.
  { unfold groupMessage. cbv zeta.
    destruct (decide (messageChatId message = c)) as [Hc|Hc].
    - rewrite Hc, lookup_insert_eq. cbn [mbind option_bind].
      destruct (messageKey message) as [key|] eqn:Hkey.
      + destruct (decide (key = id)) as [->|Hid].
        * rewrite decide_True by done. apply lookup_insert_eq.
        * rewrite decide_False by (intros [_ [= ?]]; done).
          rewrite lookup_insert_ne by done. by destruct (acc !! c).
      + rewrite decide_False by (by intros [_ ?]). by destruct (acc !! c).
    - rewrite decide_False by (by intros [? _]).
      by rewrite lookup_insert_ne. }
  destruct (decide (messageChatId message = c ∧ messageKey message = Some id));
    [|done].
  destruct rest as [|m rest'] eqn:Hrest; [done|].
  change (last (message :: m :: rest')) with (last (m :: rest')).
  by destruct (last (m :: rest')) eqn:Hlast;
    [|apply last_None in Hlast].
Qed.

(** The chats of a batch can be visited in any order: what the selectors
    show of the result is the same. *)
Lemma addMessages_any_order global messages
    (entries : list (string * gmap Z JsObj)) :
  entries ≡ₚ map_to_list (foldl groupMessage ∅ messages) →
  let global' :=
    foldl (λ global entry, addChatMessagesById global entry.1 entry.2)
          global entries in
  (∀ c, selectChatMessages global' c
        = selectChatMessages (addMessages global messages) c)
  ∧ (∀ c t, selectThread global' c t
            = selectThread (addMessages global messages) c t)
  ∧ g_byTabId global' = g_byTabId (addMessages global messages)
  ∧ g_scheduledMessages global' = g_scheduledMessages (addMessages global messages)
  ∧ g_other global' = g_other (addMessages global messages).
Proof. clear_unused.
  intros Hperm. cbv zeta. unfold addMessages. cbv zeta.
  set (addedByChatId := foldl groupMessage ∅ messages) in *.
  assert (NoDup entries.*1) as Hnodup.
  { rewrite Hperm. apply NoDup_fst_map_to_list. }
  destruct (addChatMessages_fold_frame entries global) as (H1 & H2 & H3 & H4).
  destruct (addChatMessages_fold_frame (map_to_list addedByChatId) global)
    as (H1' & H2' & H3' & H4').
  split; [|split; [|split; [|split]]]; [| |congruence..].
  - intros c. rewrite !addChatMessages_fold
      by (done || apply NoDup_fst_map_to_list).
    by rewrite (list_to_map_proper entries (map_to_list addedByChatId)).
  - intros c t. by rewrite H1, H1'.
Qed.

(** X13: [addMessages], for messages whose ids are numbers.  A message that
    is stored stays as it is; an id the chat does not hold gets the last
    message of the batch with that chat id and id; every other id stays
    free.  Threads, tabs and scheduled messages are as before. *)
Theorem addMessages_stores global messages :
  Forall (λ message, is_Some (messageKey message)) messages →
  let global' := addMessages global messages in
  (∀ c id,
     selectChatMessage global' c id
     = match selectChatMessage global c id with
       | Some stored => Some stored
       | None => lastOf c id messages
       end)
  ∧ (∀ c t, selectThread global' c t = selectThread global c t)
  ∧ g_byTabId global' = g_byTabId global
  ∧ g_scheduledMessages global' = g_scheduledMessages global.
Proof. clear_unused.
  intros _ global'. subst global'. unfold addMessages. cbv zeta.
  set (addedByChatId := foldl groupMessage ∅ messages).
  destruct (addChatMessages_fold_frame (map_to_list addedByChatId) global)
    as (Hthreads & Htabs & Hsched & _).
  split; [|done].
  intros c id. unfold selectChatMessage.
  rewrite addChatMessages_fold by apply NoDup_fst_map_to_list.
  rewrite list_to_map_to_list.
  pose proof (lookup_groupMessages messages ∅ c id) as Hgroup.
  fold addedByChatId in Hgroup. rewrite lookup_empty in Hgroup.
  cbn [mbind option_bind] in Hgroup.
  destruct (addedByChatId !! c) as [newById|] eqn:Hnew;
    cbn [mbind option_bind] in *.
  - rewrite lookup_union, Hgroup.
    destruct (selectChatMessages global c) as [byId|]; simpl.
    + destruct (byId !! id); by destruct (lastOf c id messages).
    + rewrite lookup_empty. by destruct (lastOf c id messages).
  - destruct (lastOf c id messages); [done|].
    by destruct (selectChatMessages global c ≫= _).
Qed.

(** ** Replacing a viewport and the pinned ids *)


(** Writing the viewport of a tab: the tab shows the ids, the thread
    remembers them as its last viewport, and nothing else of the lists, the
    other viewports and the messages changes. *)
Lemma replaceTabThreadParam_viewportIds global chatId threadId newValue tabId :
  let global' :=
    replaceTabThreadParam global chatId threadId (TP_viewportIds newValue) tabId in
  selectViewportIds global' chatId threadId tabId = newValue
  ∧ selectThread global' chatId threadId ≫= th_lastViewportIds = newValue
  ∧ (∀ c t tab, (c, t, tab) ≠ (chatId, threadId, tabId) →
       selectViewportIds global' c t tab = selectViewportIds global c t tab)
  ∧ sameLists global global'
  ∧ (∀ c m, selectChatMessage global' c m = selectChatMessage global c m).
Proof. clear_unused.
  cbv zeta.
  split; [apply selectViewportIds_replaceTabThreadParam_eq|].
  split; [|split; [|split]].
  - unfold replaceTabThreadParam. rewrite selectThread_updateTabThread.
    by rewrite selectThread_replaceThreadParam_eq.
  - intros c t tab Hne. by apply selectViewportIds_replaceTabThreadParam_ne.
  - apply sameLists_replaceTabThreadParam.
  - intros c m. unfold replaceTabThreadParam, updateTabThread.
    rewrite selectChatMessage_updateTabState. apply selectChatMessage_updateThread.
Qed.


(** X15: below the viewport limit [addViewportId] evicts nothing: an id that
    is not in the viewport is added to it, the viewport is put in history
    order, and the thread remembers it as its last viewport; the other
    viewports, the id lists and the messages are as before. *)
Theorem addViewportId_below_limit global chatId threadId newId tabId :
  let viewportIds := default [] (selectViewportIds global chatId threadId tabId) in
  newId ∉ viewportIds →
  Z.of_nat (length viewportIds) < MESSAGE_LIST_VIEWPORT_LIMIT →
  let global' := addViewportId global chatId threadId newId tabId in
  ∃ newIds,
    selectViewportIds global' chatId threadId tabId = Some newIds
    ∧ newIds ≡ₚ viewportIds ++ [newId]
    ∧ Sorted Z.le newIds
    ∧ selectThread global' chatId threadId ≫= th_lastViewportIds = Some newIds
    ∧ (∀ c t tab, (c, t, tab) ≠ (chatId, threadId, tabId) →
         selectViewportIds global' c t tab = selectViewportIds global c t tab)
    ∧ sameLists global global'
    ∧ (∀ c m, selectChatMessage global' c m = selectChatMessage global c m).
Proof.
  intros viewportIds Hnin Hlimit global'. subst global'.
  unfold addViewportId. fold viewportIds. unfold includes.
  rewrite bool_decide_eq_false_2 by done.
  rewrite (proj2 (Z.ltb_lt _ _) Hlimit).
  exists (orderHistoryIds (viewportIds ++ [newId])).
  destruct (replaceTabThreadParam_viewportIds global chatId threadId
              (Some (orderHistoryIds (viewportIds ++ [newId]))) tabId)
    as (H1 & H2 & H3 & H4 & H5).
  split; [done|]. split; [apply orderHistoryIds_Permutation|].
  split; [apply Sorted_orderHistoryIds|]. done.
Qed.



(** ** Scheduled messages *)

(** X17: [updateScheduledMessage] changes nothing when the merge of the
    stored scheduled message (if any) and the patch has no truthy id;
    otherwise it stores the merge under the message id, keeps every other
    scheduled message, keeps the hash of the chat (0 for a chat without
    scheduled messages so far), and leaves the message store and the tabs
    as they are. *)
Theorem updateScheduledMessage_stores global chatId messageId messageUpdate :
  let updatedMessage :=
    mergeMessage (selectScheduledMessage global chatId messageId) messageUpdate in
  let global' := updateScheduledMessage global chatId messageId messageUpdate in
  (truthy (getProp updatedMessage "id") = false → global' = global)
  ∧ (truthy (getProp updatedMessage "id") = true →
     selectScheduledMessage global' chatId messageId = Some updatedMessage
     ∧ (∀ c m, (c, m) ≠ (chatId, messageId) →
          selectScheduledMessage global' c m = selectScheduledMessage global c m)
     ∧ sch_hash <$> g_scheduledMessages global' !! chatId
       = Some (match g_scheduledMessages global !! chatId with
               | Some scheduled => sch_hash scheduled
               | None => Some 0
               end)
     ∧ g_messages global' = g_messages global
     ∧ g_byTabId global' = g_byTabId global).
Proof. clear_unused.
  intros updatedMessage global'. subst global'. unfold updateScheduledMessage.
  cbv zeta. fold updatedMessage. split.
  - by intros ->.
  - intros ->. cbn [negb]. unfold updateScheduledMessages. cbv zeta.
    split; [|split; [|split; [|done]]].
    + unfold selectScheduledMessage, selectChatScheduledMessages. simpl.
      rewrite lookup_insert_eq. simpl. rewrite lookup_union.
      rewrite lookup_singleton_eq. by destruct (_ !! messageId).
    + intros c m Hne. unfold selectScheduledMessage, selectChatScheduledMessages.
      simpl. destruct (decide (c = chatId)) as [->|Hc].
      * rewrite lookup_insert_eq. simpl. rewrite lookup_union.
        rewrite lookup_singleton_ne by congruence.
        destruct (g_scheduledMessages global !! chatId) as [s|]; simpl.
        -- by destruct (sch_byId s !! m).
        -- by rewrite lookup_empty.
      * by rewrite lookup_insert_ne.
    + simpl. rewrite lookup_insert_eq. simpl.
      by destruct (g_scheduledMessages global !! chatId).
Qed.

Lemma deleteScheduledFromThread_same global chatId messageIds entry :
  let global' := deleteScheduledFromThread chatId messageIds global entry in
  sameIndex global global'
  ∧ (∀ c m, selectChatMessage global' c m = selectChatMessage global c m).
Proof. clear_unused.
  cbv zeta. unfold deleteScheduledFromThread.
  destruct (th_scheduledIds entry.2); [|done].
  split; [by apply sameIndex_replaceThreadParam|].
  intros c m. apply selectChatMessage_updateThread.
Qed.

Lemma deleteScheduledFromThreads_same chatId messageIds
    (entries : list (Z * Thread)) global :
  let global' := foldl (deleteScheduledFromThread chatId messageIds) global entries in
  sameIndex global global'
  ∧ (∀ c m, selectChatMessage global' c m = selectChatMessage global c m).
Proof. clear_unused.
  revert global. induction entries as [|entry entries IH]; intros global; [done|].
  cbn [foldl]. cbv zeta.
  destruct (IH (deleteScheduledFromThread chatId messageIds global entry))
    as [Hindex Hmsg].
  destruct (deleteScheduledFromThread_same global chatId messageIds entry)
    as [Hindex1 Hmsg1].
  split; [by etrans|]. intros c m. by rewrite Hmsg.
Qed.

(** The loop over the threads in [deleteChatScheduledMessages]. *)
Lemma deleteChatScheduledMessages_threads global chatId messageIds :
  let global2 :=
    match selectScheduledIds global chatId MAIN_THREAD_ID with
    | Some scheduledIds =>
        let scheduledIds :=
          foldl (λ scheduledIds messageId,
                   if includes scheduledIds messageId
                   then filter (λ id, id ≠ messageId) scheduledIds
                   else scheduledIds)
                scheduledIds messageIds in
        let global :=
          replaceThreadParam global chatId MAIN_THREAD_ID
            (P_scheduledIds (Some scheduledIds)) in
        foldl (deleteScheduledFromThread chatId messageIds) global
              (map_to_list
                 (default ∅ (threadsById <$> g_messages global !! chatId)))
    | None => global
    end in
  sameIndex global global2
  ∧ (∀ c m, selectChatMessage global2 c m = selectChatMessage global c m)
  ∧ g_scheduledMessages global2 = g_scheduledMessages global.
Proof. clear_unused.
  cbv zeta.
  destruct (selectScheduledIds global chatId MAIN_THREAD_ID) as [scheduledIds|]
    eqn:Hmain; [|done].
  rewrite remove_each_filter.
  destruct (deleteScheduled_threads global chatId messageIds scheduledIds Hmain)
    as (_ & _ & _ & Hs & _). cbv zeta in Hs.
  match goal with
  | |- context [foldl ?f ?g ?l] =>
      destruct (deleteScheduledFromThreads_same chatId messageIds l g)
        as [Hindex Hmsg]
  end.
  split; [|split; [|exact Hs]].
  - etrans; [|exact Hindex]. by apply sameIndex_replaceThreadParam.
  - intros c m. rewrite Hmsg. apply selectChatMessage_updateThread.
Qed.

(** X18: [deleteChatScheduledMessages] takes exactly the given ids out of
    the scheduled messages of the chat and forgets the hash of the chat; the
    scheduled messages of the other chats, the stored messages, the listed,
    outlying and pinned ids of every thread and the viewports are as
    before. *)
Theorem deleteChatScheduledMessages_exact global chatId messageIds :
  let global' := deleteChatScheduledMessages global chatId messageIds in
  (∀ m, selectScheduledMessage global' chatId m
        = if bool_decide (m ∈ messageIds) then None
          else selectScheduledMessage global chatId m)
  ∧ (∀ c, c ≠ chatId →
       g_scheduledMessages global' !! c = g_scheduledMessages global !! c)
  ∧ (is_Some (g_scheduledMessages global !! chatId) →
     sch_hash <$> g_scheduledMessages global' !! chatId = Some None)
  ∧ (∀ c m, selectChatMessage global' c m = selectChatMessage global c m)
  ∧ sameIndex global global'.
Proof. clear_unused.
  intros global'. subst global'. unfold deleteChatScheduledMessages.
  destruct (selectChatScheduledMessages global chatId) as [byId|] eqn:Hsel.
  - pose proof (deleteChatScheduledMessages_threads global chatId messageIds)
      as (Hindex & Hmsg & Hsched).
    cbv zeta.
    match goal with
    | |- context [set_scheduledMessages ?g _] => set (global2 := g) in *
    end.
    split; [|split; [|split; [|split]]].
    + intros m. unfold selectScheduledMessage, selectChatScheduledMessages in *.
      simpl. rewrite lookup_insert_eq. simpl. rewrite lookup_omit.
      case_bool_decide; [done|]. by rewrite Hsel.
    + intros c Hne. simpl. rewrite lookup_insert_ne by done. by rewrite Hsched.
    + intros _. simpl. by rewrite lookup_insert_eq.
    + done.
    + destruct Hindex. by split.
  - split; [|split; [done|split; [|done]]].
    + intros m. unfold selectScheduledMessage. rewrite Hsel. by case_bool_decide.
    + unfold selectChatScheduledMessages in Hsel.
      intros [s Hs]. by rewrite Hs in Hsel.
Qed.

(** ** The focused message *)

Lemma focusedMessage_updateTabState global value tabId :
  focusedMessage
    (updateTabState global
       {| tsu_messageLists := None; tsu_tabThreads := None;
          tsu_selectedMessages := None;
          tsu_other := {[ "focusedMessage" := JObj value ]} |} tabId) tabId
  = value.
Proof. clear_unused.
  unfold focusedMessage. rewrite selectTabState_updateTabState_eq.
  unfold spreadTabState, objSpread, getProp. simpl.
  rewrite lookup_union, lookup_singleton_eq.
  by destruct (tab_other (selectTabState global tabId) !! "focusedMessage").
Qed.

Lemma updateTabState_other_frame global other tabId :
  let global' :=
    updateTabState global
      {| tsu_messageLists := None; tsu_tabThreads := None;
         tsu_selectedMessages := None; tsu_other := other |} tabId in
  (∀ tabId', tabId' ≠ tabId →
     selectTabState global' tabId' = selectTabState global tabId')
  ∧ tab_messageLists (selectTabState global' tabId)
    = tab_messageLists (selectTabState global tabId)
  ∧ tab_tabThreads (selectTabState global' tabId)
    = tab_tabThreads (selectTabState global tabId)
  ∧ tab_selectedMessages (selectTabState global' tabId)
    = tab_selectedMessages (selectTabState global tabId)
  ∧ g_messages global' = g_messages global
  ∧ g_scheduledMessages global' = g_scheduledMessages global.
Proof. clear_unused.
  cbv zeta. split.
  - intros tabId' Hne. by apply selectTabState_updateTabState_ne.
  - by rewrite selectTabState_updateTabState_eq.
Qed.

(** X19: the focus of a tab.  [updateFocusedMessage] writes the six keys of
    its arguments, each one also when the argument is missing (the thread id
    is then the main thread, the flags are false, the others undefined), and
    keeps every other key of the focused message, the direction among
    them; [updateFocusDirection] writes the direction and keeps every other
    key.  So a direction survives a new focus and a focus survives a new
    direction.  Neither changes the message lists, the tab threads or the
    selection of the tab, another tab, or the message store. *)
Theorem updateFocusedMessage_keeps_direction global chatId messageId threadId
    noHighlight isResizingContainer quote direction tabId :
  let focus global :=
    updateFocusedMessage global chatId messageId threadId noHighlight
      isResizingContainer quote tabId in
  let written : JsObj :=
    <["quote" := optString quote]>
      (<["isResizingContainer" := JBool (default false isResizingContainer)]>
         (<["noHighlight" := JBool (default false noHighlight)]>
            (<["messageId" := optNumber messageId]>
               (<["threadId" := JNum (default MAIN_THREAD_ID threadId)]>
                  {[ "chatId" := optString chatId ]})))) in
  (∀ k, focusedMessage (focus global) tabId !! k
        = match written !! k with
          | Some v => Some v
          | None => focusedMessage global tabId !! k
          end)
  ∧ (∀ k, focusedMessage (updateFocusDirection global direction tabId) tabId !! k
          = if bool_decide (k = "direction") then Some direction
            else focusedMessage global tabId !! k)
  ∧ focusedMessage (focus (updateFocusDirection global direction tabId)) tabId
      !! "direction"
    = Some direction
  ∧ (∀ k, is_Some (written !! k) →
       focusedMessage (updateFocusDirection (focus global) direction tabId) tabId !! k
       = written !! k)
  ∧ (∀ global',
       global' = focus global ∨ global' = updateFocusDirection global direction tabId →
       (∀ tabId', tabId' ≠ tabId →
          selectTabState global' tabId' = selectTabState global tabId')
       ∧ tab_messageLists (selectTabState global' tabId)
         = tab_messageLists (selectTabState global tabId)
       ∧ tab_tabThreads (selectTabState global' tabId)
         = tab_tabThreads (selectTabState global tabId)
       ∧ tab_selectedMessages (selectTabState global' tabId)
         = tab_selectedMessages (selectTabState global tabId)
       ∧ g_messages global' = g_messages global
       ∧ g_scheduledMessages global' = g_scheduledMessages global).
Proof.
  intros focus written.
  assert (∀ g k, focusedMessage (focus g) tabId !! k
                 = match written !! k with
                   | Some v => Some v
                   | None => focusedMessage g tabId !! k
                   end) as Hfocus.
  { intros g k. unfold focus, updateFocusedMessage. cbv zeta.
    rewrite focusedMessage_updateTabState. unfold written.
    fold (focusedMessage g tabId).
    rewrite (insert_union_singleton_l (focusedMessage g tabId)).
    rewrite !insert_union_l. rewrite lookup_union.
    destruct (_ !! k) as [v|]; [|by destruct (focusedMessage g tabId !! k)].
    by destruct (focusedMessage g tabId !! k). }
  assert (∀ g k, focusedMessage (updateFocusDirection g direction tabId) tabId !! k
                 = if bool_decide (k = "direction") then Some direction
                   else focusedMessage g tabId !! k) as Hdirection.
  { intros g k. unfold updateFocusDirection.
    rewrite focusedMessage_updateTabState. fold (focusedMessage g tabId).
    case_bool_decide as Hk; [subst; apply lookup_insert_eq|].
    by rewrite lookup_insert_ne. }
  split; [apply Hfocus|]. split; [apply Hdirection|]. split; [|split].
  - rewrite Hfocus, Hdirection. by vm_compute.
  - intros k Hk. rewrite Hdirection, Hfocus.
    case_bool_decide as Hdir; [|by destruct Hk as [v ->]].
    subst k. destruct Hk as [v Hv]. by vm_compute in Hv.
  - intros global' [-> | ->].
    + unfold focus, updateFocusedMessage. apply updateTabState_other_frame.
    + unfold updateFocusDirection. apply updateTabState_other_frame.
Qed.

(** ** Selecting a range *)

Lemma indexOf_bounds (l : list Z) x : -1 ≤ indexOf l x < Z.of_nat (length l).
Proof. clear_unused.
  induction l as [|y l IH]; cbn [indexOf length]; [lia|].
  case_bool_decide; [lia|]. cbv zeta.
  destruct (Z.ltb_spec (indexOf l x) 0); lia.
Qed.

Lemma indexOf_elem (l : list Z) x :
  x ∈ l → 0 ≤ indexOf l x ∧ l !! Z.to_nat (indexOf l x) = Some x.
Proof. clear_unused.
  induction l as [|y l IH]; [by intros ?%elem_of_nil|].
  intros Hin. cbn [indexOf]. case_bool_decide as Hy; [by subst|].
  apply elem_of_cons in Hin as [->|Hin]; [done|].
  destruct (IH Hin) as [Hpos Hlook]. cbv zeta.
  destruct (Z.ltb_spec (indexOf l x) 0); [lia|].
  split; [lia|].
  replace (Z.to_nat (indexOf l x + 1)) with (S (Z.to_nat (indexOf l x))) by lia.
  done.
Qed.

Lemma jsSlice_within {A} (l : list A) (start stop : Z) :
  0 ≤ start → start ≤ stop → stop ≤ Z.of_nat (length l) →
  jsSlice l start stop
  = take (Z.to_nat stop - Z.to_nat start) (drop (Z.to_nat start) l).
Proof. clear_unused.
  intros Hstart Hle Hstop. unfold jsSlice, relIndex. cbv zeta.
  destruct (Z.ltb_spec start 0); [lia|].
  destruct (Z.ltb_spec stop 0); [lia|].
  rewrite !Z.min_l by lia. f_equal. lia.
Qed.

Lemma elem_of_take_drop {A} (l : list A) (start n : nat) x :
  x ∈ take n (drop start l)
  ↔ ∃ k : nat, (start ≤ k < start + n)%nat ∧ l !! k = Some x.
Proof. clear_unused.
  rewrite list_elem_of_lookup. split.
  - intros [i Hi]. apply lookup_take_Some in Hi as [Hi Hlt].
    rewrite lookup_drop in Hi. exists (start + i)%nat. split; [lia|done].
  - intros (k & Hk & Hlook). exists (k - start)%nat.
    apply lookup_take_Some. split; [|lia].
    rewrite lookup_drop. by replace (start + (k - start))%nat with k by lia.
Qed.

(** X20: selecting a range.  With a selection whose last id and the toggled
    message are both among the current message ids of the view, toggling an
    unselected message with shift selects, besides what was selected, the
    current message ids from the one of the two that comes first to the
    other, both included; no id is selected twice and the chat id of the
    selection stays. *)
Theorem toggleMessageSelection_range global chatId threadId type messageId
    tabId old lastId viewportIds :
  tab_selectedMessages (selectTabState global tabId) = Some old →
  lastElem (sel_messageIds old) = Some lastId →
  messageId ∉ sel_messageIds old →
  selectCurrentMessageIds global chatId threadId type tabId = Some viewportIds →
  lastId ∈ viewportIds →
  messageId ∈ viewportIds →
  let i := Z.to_nat (indexOf viewportIds lastId) in
  let j := Z.to_nat (indexOf viewportIds messageId) in
  viewportIds !! i = Some lastId
  ∧ viewportIds !! j = Some messageId
  ∧ ∃ global' messageIds,
      toggleMessageSelection global chatId threadId type messageId None None
        true tabId
      = Some global'
      ∧ tab_selectedMessages (selectTabState global' tabId)
        = Some {| sel_chatId := sel_chatId old; sel_messageIds := messageIds |}
      ∧ NoDup messageIds
      ∧ ∀ id, id ∈ messageIds
              ↔ id ∈ sel_messageIds old
                ∨ ∃ k : nat, (i `min` j ≤ k ≤ i `max` j)%nat
                             ∧ viewportIds !! k = Some id.
Proof.
  intros Hold Hlast Hnew Hview Hlast_in Hmsg_in i j.
  destruct (indexOf_elem viewportIds lastId Hlast_in) as [Hi_pos Hi].
  destruct (indexOf_elem viewportIds messageId Hmsg_in) as [Hj_pos Hj].
  pose proof (indexOf_bounds viewportIds lastId) as Hi_bound.
  pose proof (indexOf_bounds viewportIds messageId) as Hj_bound.
  split; [exact Hi|]. split; [exact Hj|].
  unfold toggleMessageSelection. rewrite Hold. cbn [truthyString]. cbv zeta.
  simpl (default _ None).
  assert (filter (λ id, includes (sel_messageIds old) id = false) [messageId]
          = [messageId]) as ->.
  { apply filter_all. intros id ->%list_elem_of_singleton. unfold includes.
    by rewrite bool_decide_eq_false_2. }
  rewrite Hlast, Hview. cbn [mbind option_bind].
  set (from := Z.min (indexOf viewportIds lastId) (indexOf viewportIds messageId)).
  set (to := Z.max (indexOf viewportIds lastId) (indexOf viewportIds messageId)).
  set (messageIds := unique (sel_messageIds old ++ jsSlice viewportIds from (to + 1))).
  assert (∀ id, id ∈ messageIds
                ↔ id ∈ sel_messageIds old
                  ∨ ∃ k : nat, (i `min` j ≤ k ≤ i `max` j)%nat
                               ∧ viewportIds !! k = Some id) as Hmem.
  { intros id. unfold messageIds. rewrite elem_of_unique, elem_of_app.
    rewrite jsSlice_within by (unfold from, to; lia).
    rewrite elem_of_take_drop.
    split; (intros [Hin|(k & Hk & Hlook)]; [by left|right]);
      exists k; (split; [unfold from, to, i, j in *; lia|done]). }
  assert (lastId ∈ messageIds) as Hnonempty.
  { apply Hmem. left. unfold lastElem in Hlast.
    destruct (sel_messageIds old) as [|x l] eqn:Hl using rev_ind; [done|].
    rewrite last_snoc in Hlast. injection Hlast as ->.
    apply elem_of_app. right. by left. }
  destruct messageIds as [|m ms] eqn:Hids; [by apply elem_of_nil in Hnonempty|].
  eexists _, (m :: ms). split; [done|]. split; [apply selected_updateTabState|].
  split; [|exact Hmem].
  rewrite <- Hids. unfold messageIds, unique.
  rewrite reverse_Permutation. apply NoDup_remove_dups.
Qed.

(** ** Applying a thread info update again *)

Lemma spreadThreadInfo_idemp info update :
  spreadThreadInfo (spreadThreadInfo info update) update
  = spreadThreadInfo info update.
Proof. clear_unused.
  destruct info, update. unfold spreadThreadInfo, spreadKey, objSpread. simpl.
  f_equal; try by case_match.
  by rewrite (assoc_L (∪)), (idemp_L (∪)).
Qed.

Lemma selectThread_updateThreadInfo global chatId threadId update
    doNotUpdateLinked c t :
  let newThreadInfo := mergedThreadInfo global chatId threadId update in
  selectThread
    (updateThreadInfo global chatId threadId update doNotUpdateLinked) c t
  = if bool_decide ((c, t) = (chatId, threadId))
    then Some (withThreadInfo (default emptyThread (selectThread global c t))
                              newThreadInfo)
    else if bool_decide (doNotUpdateLinked = false
                         ∧ linkedThread newThreadInfo = Some (c, t))
    then Some (withThreadInfo
                 (default emptyThread (selectThread global c t))
                 (spreadThreadInfo
                    (default emptyThreadInfo (selectThreadInfo global c t))
                    (pick newThreadInfo)))
    else selectThread global c t.
Proof. clear_unused.
  intros newThreadInfo. destruct doNotUpdateLinked.
  - rewrite updateThreadInfo_suppressed. fold newThreadInfo.
    case_bool_decide as Heq.
    + injection Heq as -> ->. apply selectThread_replaceThreadParam_threadInfo.
    + rewrite bool_decide_eq_false_2 by (by intros [? _]).
      by apply selectThread_replaceThreadParam_ne.
  - rewrite updateThreadInfo_linked. cbv zeta. fold newThreadInfo.
    destruct (linkedThread newThreadInfo) as [[lc lt]|] eqn:Hlinked.
    + rewrite updateThreadInfo_suppressed. unfold mergedThreadInfo at 1.
      simpl (default _ (Some _)).
      set (linkedInfo :=
             spreadThreadInfo (default emptyThreadInfo (selectThreadInfo global lc lt))
                              (pick newThreadInfo)).
      destruct (decide ((c, t) = (chatId, threadId))) as [Heq|Hne].
      * rewrite (bool_decide_eq_true_2 _ Heq). injection Heq as -> ->.
        rewrite selectThread_replaceThreadParam_threadInfo.
        destruct (decide ((lc, lt) = (chatId, threadId))) as [[= -> ->]|Hne'].
        -- by rewrite selectThread_replaceThreadParam_threadInfo.
        -- by rewrite selectThread_replaceThreadParam_ne by congruence.
      * rewrite (bool_decide_eq_false_2 _ Hne).
        rewrite selectThread_replaceThreadParam_ne by done.
        destruct (decide ((lc, lt) = (c, t))) as [[= -> ->]|Hne'].
        -- rewrite bool_decide_eq_true_2 by done.
           apply selectThread_replaceThreadParam_threadInfo.
        -- rewrite bool_decide_eq_false_2 by (intros [_ [= ? ?]]; by subst).
           apply selectThread_replaceThreadParam_ne. congruence.
    + case_bool_decide as Heq.
      * injection Heq as -> ->. apply selectThread_replaceThreadParam_threadInfo.
      * rewrite bool_decide_eq_false_2 by (by intros [_ ?]).
        by apply selectThread_replaceThreadParam_ne.
Qed.

(** X21: applying the same update to the info of a thread again, with the
    same flag, changes no thread (the thread itself, a linked thread or any
    other) and nothing else of the state that the selectors of messages,
    tabs and scheduled messages show. *)
Theorem updateThreadInfo_idempotent global chatId threadId update
    doNotUpdateLinked :
  let global' :=
    updateThreadInfo global chatId threadId update doNotUpdateLinked in
  let global'' :=
    updateThreadInfo global' chatId threadId update doNotUpdateLinked in
  (∀ c t, selectThread global'' c t = selectThread global' c t)
  ∧ (∀ c m, selectChatMessage global'' c m = selectChatMessage global' c m)
  ∧ g_byTabId global'' = g_byTabId global'
  ∧ g_scheduledMessages global'' = g_scheduledMessages global'
  ∧ g_other global'' = g_other global'.
Proof. clear_unused.
  intros global' global''. split; [|apply updateThreadInfo_frame].
  set (newThreadInfo := mergedThreadInfo global chatId threadId update).
  assert (selectThread global' chatId threadId
          = Some (withThreadInfo
                    (default emptyThread (selectThread global chatId threadId))
                    newThreadInfo)) as Hlocal.
  { unfold global'. rewrite selectThread_updateThreadInfo.
    by rewrite bool_decide_eq_true_2. }
  assert (mergedThreadInfo global' chatId threadId update = newThreadInfo) as Hsame.
  { unfold mergedThreadInfo at 1. unfold selectThreadInfo. rewrite Hlocal.
    cbn [mbind option_bind withThreadInfo th_threadInfo]. simpl (default _ (Some _)).
    apply spreadThreadInfo_idemp. }
  intros c t. unfold global''. rewrite selectThread_updateThreadInfo. cbv zeta.
  rewrite Hsame.
  destruct (decide ((c, t) = (chatId, threadId))) as [Heq|Hne].
  { rewrite (bool_decide_eq_true_2 _ Heq). injection Heq as -> ->.
    by rewrite Hlocal. }
  rewrite (bool_decide_eq_false_2 _ Hne).
  case_bool_decide as Hlinked; [|done].
  assert (selectThread global' c t
          = Some (withThreadInfo
                    (default emptyThread (selectThread global c t))
                    (spreadThreadInfo
                       (default emptyThreadInfo (selectThreadInfo global c t))
                       (pick newThreadInfo)))) as Hlinked'.
  { unfold global'. rewrite selectThread_updateThreadInfo. cbv zeta.
    fold newThreadInfo. rewrite (bool_decide_eq_false_2 _ Hne).
    by rewrite bool_decide_eq_true_2. }
  unfold selectThreadInfo. rewrite Hlinked'.
  cbn [mbind option_bind withThreadInfo th_threadInfo]. simpl (default _ (Some _)).
  by rewrite spreadThreadInfo_idemp.
Qed.
End reducers.

(** * The properties on the example data *)

(** C1 as the specification words it: the main thread is the only thread
    [deleteChatMessages] walks for message 8, so thread 9 of
    [exampleChat] still lists it. *)
Lemma deletionComplete_counterexample :
  is_Some (selectChatMessages exampleChat "c")
  ∧ ¬ deletionComplete (-1) false false "tmp" exampleNotLocal exampleThreadOf
        exampleKeepTranslations exampleChat "c" [8].
Proof.
  split; [by eexists|]. intros [Hthreads _].
  destruct (Hthreads 9) as [[Hlisted _] _].
  apply (Hlisted [8]) with (id := 8).
  - vm_compute. reflexivity.
  - apply list_elem_of_here.
  - apply list_elem_of_here.
Qed.

(** C1 on [exampleChat]: deleting message 7, which is of topic 5, leaves the
    lists of topic 5 without it. *)
Lemma deleteChatMessages_removes_witness :
  selectChatMessages exampleChat "c"
  = Some (<[7 := exampleTopicMessage 7 5]> {[ 8 := exampleMessage 8 ]})
  ∧ threadListsAvoid
      (deleteChatMessages (-1) false false "tmp" exampleNotLocal exampleThreadOf
         exampleKeepTranslations exampleChat "c" [7])
      "c" 5 [7].
Proof.
  split; [reflexivity|].
  refine (proj1 (proj2 (proj2 (proj2
            (deleteChatMessages_removes (-1) false false "tmp" exampleNotLocal
               exampleThreadOf exampleKeepTranslations exampleChat "c" [7]
               (<[7 := exampleTopicMessage 7 5]> {[ 8 := exampleMessage 8 ]})
               _ _)))
            7 (exampleTopicMessage 7 5) 5 _ _ _)).
  - reflexivity.
  - intros g c m message. reflexivity.
  - apply list_elem_of_here.
  - reflexivity.
  - reflexivity.
Defined.

(** C2 as the specification words it: message 1 of [exampleTable] keeps its
    old text under [exampleBatch]. *)
Lemma upsertMerges_counterexample :
  ¬ upsertMerges exampleTable "c" exampleBatch.
Proof.
  intros Hmerge.
  specialize (Hmerge 1 (exampleText 1 "new") eq_refl).
  apply (f_equal (λ message, message ≫= λ o, o !! "text")) in Hmerge.
  vm_compute in Hmerge. discriminate Hmerge.
Qed.

(** C2 on [exampleTable]: under [exampleBatch] message 1 stays as it was and
    message 2 is stored. *)
Lemma addChatMessagesById_keeps_prior_witness :
  exampleBatch !! 1 = Some (exampleText 1 "new")
  ∧ selectChatMessage (addChatMessagesById exampleTable "c" exampleBatch) "c" 1
    = Some (exampleText 1 "old").
Proof.
  split; [reflexivity|].
  exact (addChatMessagesById_keeps_prior exampleTable "c" exampleBatch 1
           (exampleText 1 "new") eq_refl).
Defined.

(** C3 on [exampleTable]: a batch for message 1 alone changes nothing. *)
Lemma addChatMessagesById_idempotent_witness :
  selectChatMessages exampleTable "c" = Some {[ 1 := exampleText 1 "old" ]}
  ∧ addChatMessagesById exampleTable "c" {[ 1 := exampleText 1 "new" ]}
    = exampleTable.
Proof.
  split; [reflexivity|].
  apply (proj2 addChatMessagesById_idempotent exampleTable "c"
           {[ 1 := exampleText 1 "new" ]} {[ 1 := exampleText 1 "old" ]}).
  - reflexivity.
  - intros id [entry Hentry].
    apply lookup_singleton_Some in Hentry as [<- _]. by eexists.
Defined.

(** C4 on [exampleComments]: a new [messagesCount] of the comments thread
    reaches thread 7 of chat "group". *)
Lemma updateThreadInfo_cascade_witness :
  linkedThread (mergedThreadInfo exampleComments "c" 42 (Some exampleCountUpdate))
  = Some ("group", 7)
  ∧ ∃ linkedInfo,
      selectThreadInfo
        (updateThreadInfo exampleComments "c" 42 (Some exampleCountUpdate) false)
        "group" 7
      = Some linkedInfo
      ∧ ti_messagesCount linkedInfo = Some 4.
Proof.
  split; [reflexivity|].
  destruct (proj1 (updateThreadInfo_cascade exampleComments "c" 42
                     (Some exampleCountUpdate)) "group" 7 eq_refl)
    as ((linkedInfo & Hinfo & Hcount & _) & _).
  exists linkedInfo. split; [exact Hinfo|exact Hcount].
Defined.

(** C5 with a slice of 4 and a limit of 3: a viewport of three ids is at
    capacity, and adding id 9 leaves three ids. *)
Lemma addViewportId_window_witness :
  0 < 4 ÷ 2 ∧ 4 ÷ 2 < 3
  ∧ ∃ newIds,
      selectViewportIds (addViewportId 4 3 (exampleViewport [1; 2; 3]) "c" (-1) 9 1)
        "c" (-1) 1
      = Some newIds
      ∧ Z.of_nat (length newIds) ≤ 3.
Proof.
  split; [reflexivity|]. split; [reflexivity|].
  destruct (proj2 (addViewportId_window 4 3 (exampleViewport [1; 2; 3]) "c" (-1) 9 1
                     eq_refl eq_refl))
    as (newIds & Hnew & Hlen & _).
  - vm_compute. intros Hin. inversion Hin as [|? ? ? Hin2]; subst.
    inversion Hin2 as [|? ? ? Hin3]; subst.
    inversion Hin3 as [|? ? ? Hin4]; subst. inversion Hin4.
  - exists newIds. split; [exact Hnew|exact Hlen].
Defined.

(** C6 as the specification words it: with the origin post not in the
    message table of "chan", the thread entry of the origin stays. *)
Lemma linkedPostDropped_counterexample :
  ¬ linkedPostDropped (-1) false false "tmp" exampleNotLocal exampleThreadOf
      exampleKeepTranslations (exampleDiscussion false) "c" [42].
Proof.
  intros Hdropped.
  destruct (Hdropped {[ 42 := examplePost ]} 42 examplePost eq_refl
              (list_elem_of_here _ _) eq_refl eq_refl) as [_ Horigin].
  specialize (Horigin 7 eq_refl). vm_compute in Horigin. discriminate Horigin.
Qed.

(** C6 on [exampleDiscussion] with the origin post loaded: tab 1 shows the
    main thread of "c" afterwards and thread 7 of "chan" is gone. *)
Lemma deleteChatMessages_linked_post_witness :
  selectChatMessages (exampleDiscussion true) "c" = Some {[ 42 := examplePost ]}
  ∧ isLinkedChannelPost examplePost = true
  ∧ showsMainThread (-1)
      (deleteChatMessages (-1) false false "tmp" exampleNotLocal exampleThreadOf
         exampleKeepTranslations (exampleDiscussion true) "c" [42])
      "c" 1
  ∧ selectThread
      (deleteChatMessages (-1) false false "tmp" exampleNotLocal exampleThreadOf
         exampleKeepTranslations (exampleDiscussion true) "c" [42])
      "chan" 7
    = None.
Proof.
  split; [reflexivity|]. split; [reflexivity|].
  destruct (deleteChatMessages_linked_post (-1) false false "tmp" exampleNotLocal
              exampleThreadOf exampleKeepTranslations (exampleDiscussion true)
              "c" [42] {[ 42 := examplePost ]} 42 examplePost eq_refl
              (list_elem_of_here _ _) eq_refl eq_refl) as [Hreset Horigin].
  split.
  - apply (Hreset ltac:(discriminate) 1 42); reflexivity.
  - apply (Horigin ltac:(discriminate) 7 eq_refl). by eexists.
Defined.

(** C7 as the specification words it: the main thread of
    [exampleScheduled false] has no [scheduledIds] list, and topic 5 keeps
    id 3. *)
Lemma scheduledDeletionComplete_counterexample :
  ¬ scheduledDeletionComplete (-1) (exampleScheduled false) "c" [3].
Proof.
  intros Hcomplete.
  destruct (Hcomplete {[ 3 := exampleMessage 3 ]} eq_refl) as (_ & Hthreads & _).
  apply (Hthreads 5 [3]) with (id := 3).
  - vm_compute. reflexivity.
  - apply list_elem_of_here.
  - apply list_elem_of_here.
Qed.

(** C7 on [exampleScheduled true]: topic 5 loses id 3. *)
Lemma deleteChatScheduledMessages_strips_witness :
  selectChatScheduledMessages (exampleScheduled true) "c"
  = Some {[ 3 := exampleMessage 3 ]}
  ∧ selectScheduledIds
      (deleteChatScheduledMessages (-1) (exampleScheduled true) "c" [3]) "c" 5
    = Some [].
Proof.
  split; [reflexivity|].
  destruct (deleteChatScheduledMessages_strips (-1) (exampleScheduled true) "c" [3]
              {[ 3 := exampleMessage 3 ]} eq_refl) as (_ & _ & Hthreads & _).
  rewrite (Hthreads ltac:(by eexists) 5). reflexivity.
Defined.

(** C8 as the specification words it: entering selection mode without ids
    on tab 1 of [exampleChat], which has no selection, leaves a record. *)
Lemma selectionPresentIffNonEmpty_counterexample :
  ¬ selectionPresentIffNonEmpty exampleNoGroups exampleCurrentIds exampleChat "c" 1.
Proof.
  intros [Habsent _]. specialize (Habsent eq_refl).
  vm_compute in Habsent. discriminate Habsent.
Qed.

(** C8 on a tab with message 5 selected: toggling message 5 removes the
    record. *)
Lemma selection_record_after_witness :
  tab_selectedMessages (selectTabState (exampleSelection [5]) 1)
  = Some {| sel_chatId := "c"; sel_messageIds := [5] |}
  ∧ ∃ global',
      toggleMessageSelection exampleNoGroups exampleCurrentIds
        (exampleSelection [5]) "c" (-1) ListThread 5 None None false 1
      = Some global'
      ∧ tab_selectedMessages (selectTabState global' 1) = None.
Proof.
  split; [reflexivity|].
  apply (proj1 (proj2 (proj2 (proj2
           (selection_record_after exampleNoGroups exampleCurrentIds
              (exampleSelection [5]) "c" 1))))
           (-1) ListThread 5 None None false
           {| sel_chatId := "c"; sel_messageIds := [5] |} eq_refl).
  intros id. reflexivity.
Defined.

(** C9 on [exampleTable]: a patch that sets the id of message 1 to 0 is
    dropped. *)
Lemma update_without_id_is_noop_witness :
  truthy (getProp (mergeMessage (selectChatMessage exampleTable "c" 1)
                                {[ "id" := JNum 0 ]}) "id") = false
  ∧ updateChatMessage exampleNoTtl exampleTable "c" 1 {[ "id" := JNum 0 ]}
    = Some exampleTable.
Proof.
  split; [reflexivity|].
  apply (proj1 (update_without_id_is_noop exampleNoTtl exampleTable "c" 1
                  {[ "id" := JNum 0 ]})).
  - by eexists.
  - reflexivity.
Defined.

(** C10 on [exampleTable]: a patch for message 2, which the table does not
    hold, is stored as it is. *)
Lemma updateChatMessage_inserts_witness :
  selectChatMessage exampleTable "c" 2 = None
  ∧ ∃ global',
      updateChatMessage exampleNoTtl exampleTable "c" 2 (exampleMessage 2)
      = Some global'
      ∧ selectChatMessage global' "c" 2 = Some (exampleMessage 2).
Proof.
  split; [reflexivity|].
  destruct (updateChatMessage_inserts exampleNoTtl exampleTable "c" 2
              (exampleMessage 2) eq_refl eq_refl)
    as (global' & Hupdate & Hstored & _).
  exists global'. split; [exact Hupdate|exact Hstored].
Defined.

(** * The scenarios of the specification, run on the embedding *)

(** Range selection: with the viewport [10..14] and message 12 selected,
    toggling message 14 with the range modifier selects 12, 13 and 14. *)
Example range_select :
  let global :=
    {| g_messages := ∅; g_scheduledMessages := ∅;
       g_byTabId :=
         [(1, {| tab_messageLists := [];
                 tab_tabThreads :=
                   {[ "c" := {[ -1 := {| tt_viewportIds := Some [10; 11; 12; 13; 14];
                                         tt_other := ∅ |} ]} ]};
                 tab_selectedMessages :=
                   Some {| sel_chatId := "c"; sel_messageIds := [12] |};
                 tab_other := ∅ |})];
       g_other := ∅ |} in
  (λ global', sel_messageIds <$> tab_selectedMessages (selectTabState global' 1))
    <$> toggleMessageSelection exampleNoGroups exampleCurrentIds global "c" (-1)
          ListThread 14 None None true 1
  = Some (Some [12; 13; 14]).
Proof. vm_compute. reflexivity. Qed.

(** Deleting the linked forwarded channel post 42 while tab 1 shows its
    comments thread: the tab goes back to the main thread, the entry of
    the origin thread is dropped, and message 42 leaves the table. *)
Example delete_linked_post :
  let global' :=
    deleteChatMessages (-1) false false "tmp" exampleNotLocal exampleThreadOf
      exampleKeepTranslations (exampleDiscussion true) "c" [42] in
  selectCurrentMessageList global' 1
  = Some {| ml_chatId := "c"; ml_threadId := -1; ml_type := ListThread |}
  ∧ selectThread global' "chan" 7 = None
  ∧ selectChatMessage global' "c" 42 = None.
Proof. vm_compute. repeat split; reflexivity. Qed.

(** Deleting message 7 of topic 5 from [exampleChat]: the main thread and
    the topic lose it, the viewport of tab 1 loses it, thread 9 is as it
    was. *)
Example delete_topic_message :
  let global' :=
    deleteChatMessages (-1) false false "tmp" exampleNotLocal exampleThreadOf
      exampleKeepTranslations exampleChat "c" [7] in
  selectListedIds global' "c" (-1) = Some [8]
  ∧ selectOutlyingLists global' "c" (-1) = Some [[8]]
  ∧ selectPinnedIds global' "c" (-1) = Some [8]
  ∧ selectListedIds global' "c" 5 = Some []
  ∧ selectListedIds global' "c" 9 = Some [8]
  ∧ selectViewportIds global' "c" (-1) 1 = Some [8]
  ∧ selectChatMessage global' "c" 7 = None
  ∧ selectChatMessage global' "c" 8 = Some (exampleMessage 8).
Proof. vm_compute. repeat split; reflexivity. Qed.

(** A viewport at capacity (limit 3, slice 4) keeps its last two ids and
    takes the new one. *)
Example viewport_at_capacity :
  selectViewportIds (addViewportId 4 3 (exampleViewport [1; 2; 3]) "c" (-1) 9 1)
    "c" (-1) 1
  = Some [2; 3; 9].
Proof. vm_compute. reflexivity. Qed.

(** The media-expiry rule: marking a voice message with a time to live as
    played replaces the voice by the expired marker. *)
Example expire_voice :
  let voiceMessage : JsObj :=
    <["content" := JObj {[ "voice" := JObj ∅ ]}]> (exampleMessage 1) in
  expireMedia (λ _, true) (Some voiceMessage) {[ "isMediaUnread" := JBool false ]}
  = Some (<["content" := JObj (<["isExpiredVoice" := JBool true]>
                                 {[ "voice" := JUndefined ]})]>
            {[ "isMediaUnread" := JBool false ]}).
Proof. vm_compute. reflexivity. Qed.

(** The own-key order of an object: array indices ascending, then the other
    keys as inserted. *)
Example own_keys :
  objectValues [(5000000000, "e"); (7, "b"); (-1, "m"); (3, "a")]
  = ["a"; "b"; "e"; "m"].
Proof. vm_compute. reflexivity. Qed.

(** ** Instances of the further properties *)

Lemma deleteChatMessages_main_thread_witness :
  selectChatMessages exampleChat "c"
  = Some (<[7 := exampleTopicMessage 7 5]> {[ 8 := exampleMessage 8 ]})
  ∧ selectListedIds
      (deleteChatMessages (-1) false false "tmp" exampleNotLocal exampleThreadOf
         exampleKeepTranslations exampleChat "c" [8]) "c" (-1)
    = Some [7]
  ∧ selectViewportIds
      (deleteChatMessages (-1) false false "tmp" exampleNotLocal exampleThreadOf
         exampleKeepTranslations exampleChat "c" [8]) "c" (-1) 1
    = Some [7].
Proof.
  split; [reflexivity|].
  assert (∀ id message,
            id ∈ [8] →
            (<[7 := exampleTopicMessage 7 5]> {[ 8 := exampleMessage 8 ]} : gmap Z JsObj)
              !! id = Some message →
            isLinkedChannelPost message = false) as Hnone.
  { intros id message Hid Hmsg. apply list_elem_of_singleton in Hid. subst id.
    vm_compute in Hmsg. injection Hmsg as <-. reflexivity. }
  destruct (deleteChatMessages_main_thread (-1) false false "tmp" exampleNotLocal
              exampleThreadOf exampleKeepTranslations exampleChat "c" [8] _
              eq_refl Hnone) as (Hlisted & _ & _ & Hviewport & _).
  split.
  - etrans; [exact Hlisted|]. vm_compute. reflexivity.
  - etrans; [exact (Hviewport 1)|]. vm_compute. reflexivity.
Defined.


Lemma updateChatMessage_patches_witness :
  selectChatMessage exampleTable "c" 1 = Some (exampleText 1 "old")
  ∧ ∃ global' stored,
      updateChatMessage exampleNoTtl exampleTable "c" 1 {[ "text" := JStr "new" ]}
      = Some global'
      ∧ selectChatMessage global' "c" 1 = Some stored
      ∧ getProp stored "text" = JStr "new"
      ∧ getProp stored "id" = JNum 1.
Proof.
  split; [reflexivity|].
  destruct (updateChatMessage_patches exampleNoTtl exampleTable "c" 1
              {[ "text" := JStr "new" ]} (exampleText 1 "old")
              ltac:(vm_compute; reflexivity) ltac:(vm_compute; reflexivity)
              ltac:(vm_compute; reflexivity))
    as (global' & stored & Hupdate & Hstored & Hkeys & _).
  exists global', stored. split; [exact Hupdate|]. split; [exact Hstored|].
  split.
  - etrans; [exact (Hkeys "text")|]. vm_compute. reflexivity.
  - etrans; [exact (Hkeys "id")|]. vm_compute. reflexivity.
Defined.

Lemma updateChatMessage_expires_witness :
  selectChatMessage exampleVoice "c" 1 = Some exampleVoiceMessage
  ∧ ∃ global' stored,
      updateChatMessage exampleAlwaysTtl exampleVoice "c" 1
        {[ "isMediaUnread" := JBool false ]}
      = Some global'
      ∧ selectChatMessage global' "c" 1 = Some stored
      ∧ getProp stored "content"
        = JObj (<["isExpiredVoice" := JBool true]> {[ "voice" := JUndefined ]}).
Proof.
  split; [reflexivity|].
  pose proof (updateChatMessage_expires exampleAlwaysTtl exampleVoice "c" 1
                {[ "isMediaUnread" := JBool false ]} exampleVoiceMessage
                ltac:(vm_compute; reflexivity) ltac:(vm_compute; reflexivity)
                ltac:(vm_compute; reflexivity)) as Hexpires.
  cbv zeta in Hexpires. destruct Hexpires as (_ & Hvoice & _).
  destruct (Hvoice ltac:(vm_compute; reflexivity) ltac:(vm_compute; reflexivity))
    as (global' & Hupdate & stored & Hstored & Hcontent & _).
  exists global', stored. split; [exact Hupdate|]. split; [exact Hstored|].
  etrans; [exact Hcontent|]. vm_compute. reflexivity.
Defined.

Lemma updateCurrentMessageList_opens_witness :
  "c" ≠ ""
  ∧ selectCurrentMessageList
      (updateCurrentMessageList (-1) false false "tmp" emptyGlobal (Some "c")
         None None false false 1) 1
    = Some {| ml_chatId := "c"; ml_threadId := -1; ml_type := ListThread |}.
Proof.
  split; [discriminate|].
  exact (proj1 (updateCurrentMessageList_opens (-1) false false "tmp" emptyGlobal
                  "c" None None false false 1 ltac:(discriminate))).
Defined.

Lemma updateCurrentMessageList_back_witness :
  "d" ≠ ""
  ∧ tab_messageLists
      (selectTabState
         (updateCurrentMessageList (-1) false false "tmp"
            (updateCurrentMessageList (-1) false false "tmp"
               (exampleViewport [1]) (Some "d") None None false false 1)
            None None None false false 1) 1)
    = tab_messageLists (selectTabState (exampleViewport [1]) 1).
Proof.
  split; [discriminate|].
  pose proof (updateCurrentMessageList_back (-1) false false "tmp"
                (exampleViewport [1]) "d" None None 1 eq_refl
                ltac:(discriminate)) as Hback.
  cbv zeta in Hback. destruct Hback as (_ & Hround & _).
  apply Hround. intros last Hlast. vm_compute in Hlast. injection Hlast as <-.
  split; discriminate.
Defined.

Lemma toggleMessageSelection_twice_witness :
  tab_selectedMessages (selectTabState (exampleSelection [12]) 1)
  = Some {| sel_chatId := "c"; sel_messageIds := [12] |}
  ∧ ∃ global1,
      toggleMessageSelection exampleNoGroups exampleCurrentIds
        (exampleSelection [12]) "c" (-1) ListThread 14 None None false 1
      = Some global1
      ∧ toggleMessageSelection exampleNoGroups exampleCurrentIds global1 "c" (-1)
          ListThread 14 None None false 1
        = Some (exampleSelection [12]).
Proof.
  split; [reflexivity|].
  assert (∀ id, id ∈ default [14] None → id ∉ [12]) as Hnew.
  { intros id Hid Hin. apply list_elem_of_singleton in Hid.
    apply list_elem_of_singleton in Hin. subst id. discriminate. }
  destruct (toggleMessageSelection_twice exampleNoGroups exampleCurrentIds
              (exampleSelection [12]) "c" (-1) ListThread 14 None false 1
              {| sel_chatId := "c"; sel_messageIds := [12] |}
              eq_refl ltac:(discriminate) Hnew)
    as (global1 & Hfirst & _ & Hsecond).
  exists global1. split; [exact Hfirst|exact Hsecond].
Defined.


Lemma addMessages_stores_witness :
  Forall (λ message, is_Some (messageKey message)) exampleMessages
  ∧ selectChatMessage (addMessages exampleTable exampleMessages) "c" 1
    = Some (exampleText 1 "old")
  ∧ selectChatMessage (addMessages exampleTable exampleMessages) "c" 2
    = Some (exampleChatMessage "c" 2 "second")
  ∧ selectChatMessage (addMessages exampleTable exampleMessages) "d" 5
    = Some (exampleChatMessage "d" 5 "other").
Proof.
  assert (Forall (λ message, is_Some (messageKey message)) exampleMessages)
    as Hids.
  { unfold exampleMessages.
    repeat (apply Forall_cons; split; [eexists; vm_compute; reflexivity|]).
    constructor. }
  split; [exact Hids|].
  pose proof (addMessages_stores exampleTable exampleMessages Hids) as Hstores.
  cbv zeta in Hstores. destruct Hstores as (Hmsg & _).
  split; [|split].
  - etrans; [exact (Hmsg "c" 1)|]. vm_compute. reflexivity.
  - etrans; [exact (Hmsg "c" 2)|]. vm_compute. reflexivity.
  - etrans; [exact (Hmsg "d" 5)|]. vm_compute. reflexivity.
Defined.

Lemma addViewportId_below_limit_witness :
  ∃ newIds,
    selectViewportIds (addViewportId 4 3 (exampleViewport [1; 2]) "c" (-1) 9 1)
      "c" (-1) 1
    = Some newIds
    ∧ newIds ≡ₚ [1; 2; 9]
    ∧ Sorted Z.le newIds.
Proof.
  pose proof (addViewportId_below_limit 4 3 (exampleViewport [1; 2]) "c" (-1) 9 1)
    as Hbelow.
  cbv zeta in Hbelow.
  destruct Hbelow as (newIds & Hviewport & Hperm & Hsorted & _).
  - compute_done.
  - reflexivity.
  - exists newIds. split; [exact Hviewport|]. split; [exact Hperm|exact Hsorted].
Defined.

Lemma toggleMessageSelection_range_witness :
  tab_selectedMessages (selectTabState exampleRange 1)
  = Some {| sel_chatId := "c"; sel_messageIds := [12] |}
  ∧ ∃ global' messageIds,
      toggleMessageSelection exampleNoGroups exampleCurrentIds exampleRange "c"
        (-1) ListThread 14 None None true 1
      = Some global'
      ∧ tab_selectedMessages (selectTabState global' 1)
        = Some {| sel_chatId := "c"; sel_messageIds := messageIds |}
      ∧ NoDup messageIds
      ∧ (13 ∈ messageIds).
Proof.
  split; [reflexivity|].
  assert (14 ∉ [12]) as Hnew by compute_done.
  assert (12 ∈ [10; 11; 12; 13; 14]) as Hlast by compute_done.
  assert (14 ∈ [10; 11; 12; 13; 14]) as Hmessage by compute_done.
  pose proof (toggleMessageSelection_range exampleNoGroups exampleCurrentIds
                exampleRange "c" (-1) ListThread 14 1
                {| sel_chatId := "c"; sel_messageIds := [12] |} 12
                [10; 11; 12; 13; 14] eq_refl eq_refl Hnew eq_refl Hlast Hmessage)
    as Hrange.
  cbv zeta in Hrange.
  destruct Hrange as (_ & _ & global' & messageIds & Htoggle & Hselected
                      & Hnodup & Hmem).
  exists global', messageIds. split; [exact Htoggle|]. split; [exact Hselected|].
  split; [exact Hnodup|].
  apply Hmem. right. exists 3%nat. split; [vm_compute; lia|reflexivity].
Defined.
